(** * CPCD evaluation: retrieval metrics and their per-turn aggregation

    A shallow embedding of [metrics.py], of [eval.py] (with the output of
    [write_output] as the rows given to the CSV writer), and of [data.py]
    from the loaded JSON lists on.

    Conventions of the embedding:
    - item identifiers are strings; Python lists are lists; a Python [set]
      is a [gset string]; a Python [dict] whose iteration order is observed
      is an insertion-ordered association list ([dict]), one that is only
      looked up is a [gmap];
    - Python [int] is [Z]; Python [float] is modelled by the exact rationals
      [Qc] (no rounding), and [/] raises [ZeroDivisionError] on a zero divisor;
      the running average is given over binary64 as well, to evaluate it;
    - exceptions are values of [exn]; code that can raise lives in [res],
      and the code that calls the metric functions lives in [M], which also
      records every such call. *)

From Stdlib Require Import ZArith QArith Qcanon Lia Ascii.
From Stdlib Require PrimFloat.
From stdpp Require Import base numbers option list sets gmap strings pretty sorting.

Set Warnings "-clear-no-such-hyp".

Local Open Scope Z_scope.
Local Open Scope string_scope.
Local Open Scope list_scope.

(** ** Python exceptions and results *)

Inductive exn : Type :=
  | ValueError (msg : string)
  | ZeroDivisionError
  | KeyError (key : string).

Inductive res (A : Type) : Type :=
  | Ok (a : A)
  | Raise (e : exn).
Arguments Ok {A} a.
Arguments Raise {A} e.

#[global] Instance res_ret : MRet res := fun A a => Ok a.
#[global] Instance res_bind : MBind res := fun A B f m =>
  match m with
  | Ok a => f a
  | Raise e => Raise e
  end.

(** One call of a registered metric function: [metric_fn(gold, preds, k)]. *)
Record call : Type := Call {
  call_metric : string;
  call_gold : list string;
  call_preds : list string;
  call_k : Z
}.

(** A computation that may raise and that logs its metric calls. *)
Record M (A : Type) : Type := Run {
  calls : list call;
  outcome : res A
}.
Arguments Run {A} calls outcome.
Arguments calls {A} m.
Arguments outcome {A} m.

#[global] Instance M_ret : MRet M := fun A a => Run [] (Ok a).
#[global] Instance M_bind : MBind M := fun A B f m =>
  match outcome m with
  | Ok a => Run (calls m ++ calls (f a)) (outcome (f a))
  | Raise e => Run (calls m) (Raise e)
  end.

Definition lift {A} (r : res A) : M A := Run [] r.
Definition raise {A} (e : exn) : M A := Run [] (Raise e).

(** [for x in xs: s = body(s, x)], in either monad. *)
Fixpoint for_each {S X : Type} (body : S -> X -> M S) (xs : list X) (s : S) : M S :=
  match xs with
  | [] => mret s
  | x :: xs' => s' ← body s x; for_each body xs' s'
  end.

Fixpoint for_each_res {S X : Type} (body : S -> X -> res S) (xs : list X) (s : S) : res S :=
  match xs with
  | [] => mret s
  | x :: xs' => s' ← body s x; for_each_res body xs' s'
  end.

(** ** Python numbers *)

Definition Qc_of_nat (n : nat) : Qc := Qc_of_Z (Z.of_nat n).

(** [x / y]: true division. *)
Definition truediv (x y : Qc) : res Qc :=
  if decide (y = 0%Qc) then Raise ZeroDivisionError else Ok (x / y)%Qc.

(** [sum(values)]: left to right, from [0]. *)
Definition sum (values : list Qc) : Qc := foldl Qcplus 0%Qc values.

(** [max(ks)]: raises on the empty sequence. *)
Definition py_max (ks : list Z) : res Z :=
  match ks with
  | [] => Raise (ValueError "max() arg is an empty sequence")
  | k :: ks' => Ok (foldl Z.max k ks')
  end.

(** [l[:k]]: a negative [k] counts from the end, clamped at the start. *)
Definition slice_to {A} (l : list A) (k : Z) : list A :=
  if decide (0 <= k) then take (Z.to_nat k) l
  else take (length l - Z.to_nat (- k)) l.

(** ** Insertion-ordered dictionaries with string keys *)

Definition dict (V : Type) : Type := list (string * V).

Fixpoint dict_get {V} (d : dict V) (key : string) : option V :=
  match d with
  | [] => None
  | (k, v) :: d' => if decide (k = key) then Some v else dict_get d' key
  end.

(** [d[key] = v]: an existing key keeps its position, a new one goes last. *)
Fixpoint dict_set {V} (d : dict V) (key : string) (v : V) : dict V :=
  match d with
  | [] => [(key, v)]
  | (k, v') :: d' =>
      if decide (k = key) then (k, v) :: d' else (k, v') :: dict_set d' key v
  end.

Definition dict_keys {V} (d : dict V) : list string := d.*1.

(** [d[key].append(v)] on a [defaultdict(list)]. *)
Definition dict_append {V} (d : dict (list V)) (key : string) (v : V) : dict (list V) :=
  dict_set d key (default [] (dict_get d key) ++ [v]).

(** ** metrics.py *)

(** [len(set(gold).intersection(preds))] *)
Definition num_common (gold preds : list string) : nat :=
  size ((list_to_set gold : gset string) ∩ list_to_set preds).

Definition get_hit (gold preds : list string) (k : Z) : Z :=
  let preds := slice_to preds k in
  if decide (0 < num_common gold preds)%nat then 1 else 0.

(** The loop of [get_reciprocal_rank]; [i] is the rank of the head of
    [preds].  Ranks start at 1, so [1 / i] has no zero divisor. *)
Fixpoint reciprocal_rank_loop (gold : list string) (i : nat) (preds : list string) : Qc :=
  match preds with
  | [] => 0%Qc
  | pred :: rest =>
      if decide (pred ∈ gold) then (1 / Qc_of_nat i)%Qc
      else reciprocal_rank_loop gold (S i) rest
  end.

Definition get_reciprocal_rank (gold preds : list string) (k : Z) : Qc :=
  let preds := slice_to preds k in
  reciprocal_rank_loop gold 1 preds.

Definition get_precision (gold preds : list string) (k : Z) : res Qc :=
  let preds := slice_to preds k in
  let num_hit := num_common gold preds in
  truediv (Qc_of_nat num_hit) (Qc_of_nat (length preds)).

Definition get_recall (gold preds : list string) (k : Z) : res Qc :=
  let preds := slice_to preds k in
  let num_hit := num_common gold preds in
  truediv (Qc_of_nat num_hit) (Qc_of_nat (length gold)).

(** The loop of [get_average_precision], with its two accumulators; [i]
    is the rank of the head of [preds], from 1. *)
Fixpoint average_precision_loop (gold : list string) (i num_hit : nat)
    (total_precision : Qc) (preds : list string) : Qc :=
  match preds with
  | [] => total_precision
  | pred :: rest =>
      if decide (pred ∈ gold) then
        let num_hit := S num_hit in
        average_precision_loop gold (S i) num_hit
          (total_precision + Qc_of_nat num_hit / Qc_of_nat i)%Qc rest
      else average_precision_loop gold (S i) num_hit total_precision rest
  end.

Definition get_average_precision (gold preds : list string) (k : Z) : res Qc :=
  let preds := slice_to preds k in
  truediv (average_precision_loop gold 1 0 0%Qc preds)
          (Qc_of_nat (length gold `min` length preds)).

(** [len(values) > len(set(values))] *)
Definition _has_duplicates (values : list string) : bool :=
  bool_decide (size (list_to_set values : gset string) < length values)%nat.

Definition metric_fn : Type := list string -> list string -> Z -> res Qc.

Definition _STANDARD_METRIC_MAP : gmap string metric_fn :=
  list_to_map
    [ ("hit", fun gold preds k => Ok (Qc_of_Z (get_hit gold preds k)));
      ("map", get_average_precision);
      ("recall", get_recall);
      ("precision", get_precision);
      ("mrr", fun gold preds k => Ok (get_reciprocal_rank gold preds k)) ].

(** The order of [str]: by code point. *)
Definition string_le (a b : string) : Prop := String.leb a b = true.
#[global] Instance string_le_dec : RelDecision string_le :=
  fun a b => decide (String.leb a b = true).

(** [sorted(_STANDARD_METRIC_MAP.keys())] *)
Definition STANDARD_METRICS : list string :=
  merge_sort string_le (elements (dom _STANDARD_METRIC_MAP)).
Arguments STANDARD_METRICS : simpl never.

(** [metric_fn(gold=gold, preds=preds, k=k)], logged. *)
Definition call_metric_fn (metric : string) (fn : metric_fn)
    (gold preds : list string) (k : Z) : M Qc :=
  Run [Call metric gold preds k] (fn gold preds k).

(** The key [f"{metric}@{k}"]. *)
Definition metric_key (metric : string) (k : Z) : string :=
  metric +:+ "@" +:+ pretty k.

(** The body of [for k in k_values], for one metric. *)
Definition metric_round (preds gold : list string) (metric : string) (fn : metric_fn)
    (metric_vals : dict Qc) (k : Z) : M (dict Qc) :=
  v ← call_metric_fn metric fn gold preds k;
  mret (dict_set metric_vals (metric_key metric k) v).

(** The body of [for metric in metrics]. *)
Definition metric_rounds (preds gold : list string) (k_values : list Z)
    (metric_vals : dict Qc) (metric : string) : M (dict Qc) :=
  match _STANDARD_METRIC_MAP !! metric with
  | None => raise (KeyError metric)
  | Some fn => for_each (metric_round preds gold metric fn) k_values metric_vals
  end.

Definition compute_metrics (preds gold : list string) (k_values : list Z)
    (metrics : list string) : M (dict Qc) :=
  if _has_duplicates preds then
    raise (ValueError "Predictions should be unique. Duplicates detected.")
  else if _has_duplicates gold then
    raise (ValueError "Gold item list should be unique. Duplicates detected.")
  else if existsb (fun metric => bool_decide (_STANDARD_METRIC_MAP !! metric = None)) metrics then
    raise (ValueError "Couldn't find implementation for some metrics.")
  else
    k_max ← lift (py_max k_values);
    if decide (Z.of_nat (length preds) < k_max) then
      raise (ValueError ("k is larger than the number of retrieved preds, "
                         +:+ pretty k_max +:+ " > " +:+ pretty (length preds) +:+ "."))
    else for_each (metric_rounds preds gold k_values) metrics [].

(** ** eval.py *)

Module _AveragedValue.

Record t : Type := Build { value : Qc; count : Qc }.

(** [_AveragedValue()] *)
Definition fresh : t := {| value := 0%Qc; count := 0%Qc |}.

Definition update (self : t) (v : Qc) : res t :=
  let count := (count self + 1)%Qc in
  d ← truediv (v - value self)%Qc count;
  mret {| value := (value self + d)%Qc; count := count |}.

End _AveragedValue.

(** The same accumulator over IEEE 754 binary64, the [float] of Python, to
    evaluate concrete runs without the idealisation to rationals. *)
Module _AveragedValue_binary64.
Import PrimFloat.

Record t : Type := Build { value : float; count : float }.

Definition fresh : t := {| value := 0%float; count := 0%float |}.

Definition update (self : t) (v : float) : t :=
  let count := (count self + 1)%float in
  {| value := (value self + (v - value self) / count)%float; count := count |}.

Definition observations_2_4_6 : list float := [2%float; 4%float; 6%float].

Definition mean_4_count_3 : t := {| value := 4%float; count := 3%float |}.

End _AveragedValue_binary64.

Module _PerTurnMetricSummary.

Record t : Type := Build {
  micro_average : _AveragedValue.t;
  macro_average : _AveragedValue.t;
  per_turn_average : list _AveragedValue.t
}.

Definition __init__ (max_turns : Z) : t :=
  {| micro_average := _AveragedValue.fresh;
     macro_average := _AveragedValue.fresh;
     per_turn_average := replicate (Z.to_nat max_turns) _AveragedValue.fresh |}.

(** One round of the loop over [enumerate(values)]: the bucket of the turn,
    when there is one, then the micro average.  (The lookup cannot miss
    under the bound just tested.) *)
Definition update_turn (self : t) (turn : nat * Qc) : res t :=
  let '(turn_idx, v) := turn in
  per_turn ←
    (if decide (turn_idx < length (per_turn_average self))%nat then
       match per_turn_average self !! turn_idx with
       | Some turn_avg =>
           turn_avg' ← _AveragedValue.update turn_avg v;
           mret (<[turn_idx := turn_avg']> (per_turn_average self))
       | None => mret (per_turn_average self)
       end
     else mret (per_turn_average self));
  micro ← _AveragedValue.update (micro_average self) v;
  mret {| micro_average := micro;
          macro_average := macro_average self;
          per_turn_average := per_turn |}.

(** [imap pair values] is [enumerate(values)]. *)
Definition update (self : t) (values : list Qc) : res t :=
  mean ← truediv (sum values) (Qc_of_nat (length values));
  macro ← _AveragedValue.update (macro_average self) mean;
  for_each_res update_turn (imap pair values)
    {| micro_average := micro_average self;
       macro_average := macro;
       per_turn_average := per_turn_average self |}.

End _PerTurnMetricSummary.

(** [[track for track in tracks if track not in seed_tracks]] *)
Definition _filter_tracks (tracks : list string) (seed_tracks : gset string) : list string :=
  filter (fun track => track ∉ seed_tracks) tracks.

(** One round of the loop of [compute_metrics_per_turn]; the state is
    [ret] and [prev_seed_tracks]. *)
Definition per_turn_body (gold : list string) (k_values : list Z)
    (st : dict (list Qc) * gset string) (turn : list string * list string)
    : M (dict (list Qc) * gset string) :=
  let '(ret, prev_seed_tracks) := st in
  let '(turn_preds, turn_seed_tracks) := turn in
  let prev_seed_tracks := prev_seed_tracks ∪ list_to_set turn_seed_tracks in
  let filtered_preds := _filter_tracks turn_preds prev_seed_tracks in
  let filtered_gold := _filter_tracks gold prev_seed_tracks in
  if decide (filtered_gold = []) then mret (ret, prev_seed_tracks)
  else
    turn_metrics ← compute_metrics filtered_preds filtered_gold k_values STANDARD_METRICS;
    mret (foldl (fun ret '(metric_name, metric_vals) =>
                   dict_append ret metric_name metric_vals) ret turn_metrics,
          prev_seed_tracks).

(** [zip] stops at the shorter of [preds] and [seed_tracks]. *)
Definition compute_metrics_per_turn (preds : list (list string)) (gold : list string)
    (seed_tracks : list (list string)) (k_values : list Z) : M (dict (list Qc)) :=
  st ← for_each (per_turn_body gold k_values) (zip preds seed_tracks) ([], ∅);
  mret st.1.

(** [d[key]] on a plain [dict]. *)
Definition getitem {V} (d : gmap string V) (key : string) : res V :=
  match d !! key with
  | Some v => Ok v
  | None => Raise (KeyError key)
  end.

(** [agg_metrics[metric_name].update(metric_vals)] on the [defaultdict]. *)
Definition aggregate_metric (max_turns : Z) (agg_metrics : dict _PerTurnMetricSummary.t)
    (item : string * list Qc) : M (dict _PerTurnMetricSummary.t) :=
  let '(metric_name, metric_vals) := item in
  let summ := default (_PerTurnMetricSummary.__init__ max_turns)
                      (dict_get agg_metrics metric_name) in
  summ' ← lift (_PerTurnMetricSummary.update summ metric_vals);
  mret (dict_set agg_metrics metric_name summ').

(** One round of the loop over [preds.items()]. *)
Definition score_dialog (gold : gmap string (list string))
    (seed_tracks : gmap string (list (list string))) (k_values : list Z) (max_turns : Z)
    (agg_metrics : dict _PerTurnMetricSummary.t)
    (item : string * list (list string)) : M (dict _PerTurnMetricSummary.t) :=
  let '(dialog_id, dialog_preds) := item in
  dialog_gold ← lift (getitem gold dialog_id);
  dialog_seed_tracks ← lift (getitem seed_tracks dialog_id);
  dialog_metrics ← compute_metrics_per_turn dialog_preds dialog_gold dialog_seed_tracks k_values;
  for_each (aggregate_metric max_turns) dialog_metrics agg_metrics.

(** [[macro.value, micro.value, *[turn_avg.value for turn_avg in per_turn]]] *)
Definition values_row (metric_summ : _PerTurnMetricSummary.t) : list Qc :=
  _AveragedValue.value (_PerTurnMetricSummary.macro_average metric_summ)
  :: _AveragedValue.value (_PerTurnMetricSummary.micro_average metric_summ)
  :: map _AveragedValue.value (_PerTurnMetricSummary.per_turn_average metric_summ).

(** [[macro.count, micro.count, *[turn_avg.count for turn_avg in per_turn]]] *)
Definition counts_row (metric_summ : _PerTurnMetricSummary.t) : list Qc :=
  _AveragedValue.count (_PerTurnMetricSummary.macro_average metric_summ)
  :: _AveragedValue.count (_PerTurnMetricSummary.micro_average metric_summ)
  :: map _AveragedValue.count (_PerTurnMetricSummary.per_turn_average metric_summ).

(** One round of the reporting loop over [agg_metrics.items()]. *)
Definition report_metric (reported_metrics : dict (list Qc))
    (item : string * _PerTurnMetricSummary.t) : dict (list Qc) :=
  let '(metric_name, metric_summ) := item in
  let reported_metrics := dict_set reported_metrics metric_name (values_row metric_summ) in
  dict_set reported_metrics "counts" (counts_row metric_summ).

(** The first loop of [score_dataset]: [agg_metrics] after all dialogs. *)
Definition aggregate_dataset (preds : dict (list (list string)))
    (gold : gmap string (list string)) (seed_tracks : gmap string (list (list string)))
    (k_values : list Z) (max_turns : Z) : M (dict _PerTurnMetricSummary.t) :=
  for_each (score_dialog gold seed_tracks k_values max_turns) preds [].

(** The second loop of [score_dataset]: [reported_metrics]. *)
Definition report (agg_metrics : dict _PerTurnMetricSummary.t) : dict (list Qc) :=
  foldl report_metric [] agg_metrics.

Definition score_dataset (preds : dict (list (list string)))
    (gold : gmap string (list string)) (seed_tracks : gmap string (list (list string)))
    (k_values : list Z) (max_turns : Z) : M (dict (list Qc)) :=
  agg_metrics ← aggregate_dataset preds gold seed_tracks k_values max_turns;
  mret (report agg_metrics).

Definition _DEFAULT_K_VALUES : list Z := [1; 5; 10; 20; 100].
Definition _MAX_TURNS : Z := 10.

(** ** data.py: the records and [load_results] *)

Module data.

(** [Track], [Turn] and [Dialog] are total [TypedDict]s: every key is there. *)
Record Track : Type := Build_Track {
  track_ids : string;
  track_titles : string;
  track_artists : list string;
  track_release_titles : string;
  track_canonical_ids : string;
  track_cluster_ids : string
}.

Record Turn : Type := Build_Turn {
  user_query : string;
  system_response : string;
  search_queries : list string;
  search_results : list (list string);
  liked_results : list string;
  disliked_results : list string
}.

Record Dialog : Type := Build_Dialog {
  id : string;
  turns : list Turn;
  tracks : dict Track;
  goal_playlist : list string
}.

(** [Neighbor] and [Result] are declared with [total=False]: a key may be
    missing, and reading it then raises [KeyError]. *)
Module Neighbor.
Record t : Type := Build { docid : option string; distance : option Qc }.
End Neighbor.

Module Result.
Record t : Type := Build { docid : option string; neighbor : option (list Neighbor.t) }.
End Result.

End data.

(** [d[name]] on a record that may lack the key. *)
Definition field {A} (name : string) (v : option A) : res A :=
  match v with
  | Some a => Ok a
  | None => Raise (KeyError name)
  end.

(** [s.split(":", 1)] when [s] has a colon: the text before the first colon
    and the text after it. *)
Fixpoint split_colon (s : string) : option (string * string) :=
  match s with
  | EmptyString => None
  | String c s' =>
      if decide (c = ":"%char) then Some (EmptyString, s')
      else match split_colon s' with
           | Some (before, after) => Some (String c before, after)
           | None => None
           end
  end.

(** [a, b = s.split(":", 1)]: without a colon the list has one element and
    the unpacking raises. *)
Definition unpack_split (s : string) : res (string * string) :=
  match split_colon s with
  | Some parts => Ok parts
  | None => Raise (ValueError "not enough values to unpack (expected 2, got 1)")
  end.

(** [[per_turn_result.get(i, []) for i in range(max(per_turn_result)+1)]] *)
Definition turn_lists (per_turn_result : gmap Z (list string)) : res (list (list string)) :=
  last_idx ← py_max (map_to_list per_turn_result).*1;
  mret ((fun i => default [] (per_turn_result !! i)) <$> seqZ 0 (last_idx + 1)).

(** [load_results] reads a file with [load_jsonl] and parses turn indices
    with the builtin [int]; it is given here from the loaded list on, for
    any [int]. *)
Section load_results.
Variable int : string -> res Z.

(** One round of the loop over [results].  The right-hand side of the
    assignment is evaluated first, then the target. *)
Definition load_result (per_turn_results : dict (gmap Z (list string)))
    (result : data.Result.t) : res (dict (gmap Z (list string))) :=
  docid ← field "docid" (data.Result.docid result);
  parts ← unpack_split docid;
  neighbor ← field "neighbor" (data.Result.neighbor result);
  docids ← mapM (fun n => field "docid" (data.Neighbor.docid n)) neighbor;
  let per_turn_result := default ∅ (dict_get per_turn_results parts.1) in
  turn_idx ← int parts.2;
  mret (dict_set per_turn_results parts.1 (<[turn_idx := docids]> per_turn_result)).

Definition load_results (results : list data.Result.t) : res (dict (list (list string))) :=
  per_turn_results ← for_each_res load_result results [];
  for_each_res (fun out item =>
                  lists ← turn_lists item.2;
                  mret (dict_set out item.1 lists)) per_turn_results [].

End load_results.

(** [load_cpcd_dialogs] and [load_cpcd_tracks], from the loaded list on:
    [{x["id"]: x for x in results}] and [{x["track_ids"]: x for x in results}].
    The dialogs are iterated later, the tracks are only looked up. *)
Definition load_cpcd_dialogs (results : list data.Dialog) : dict data.Dialog :=
  foldl (fun d x => dict_set d (data.id x) x) [] results.

Definition load_cpcd_tracks (results : list data.Track) : gmap string data.Track :=
  foldl (fun m x => <[data.track_ids x := x]> m) ∅ results.

(** ** eval.py: from dialogs and tracks to the scorer's input *)

(** [d[key]] on an insertion-ordered dictionary. *)
Definition dict_getitem {V} (d : dict V) (key : string) : res V :=
  match dict_get d key with
  | Some v => Ok v
  | None => Raise (KeyError key)
  end.

(** One round of the loop of [convert_to_cluster_ids]. *)
Definition convert_track (tracks : gmap string data.Track)
    (st : list string * gset string) (track_id : string) : res (list string * gset string) :=
  let '(cluster_ids, seen_clusters) := st in
  track ← getitem tracks track_id;
  let cluster_id := data.track_cluster_ids track in
  if decide (cluster_id ∈ seen_clusters) then mret (cluster_ids, seen_clusters)
  else mret (cluster_ids ++ [cluster_id], seen_clusters ∪ {[cluster_id]}).

Definition convert_to_cluster_ids (track_ids : list string)
    (tracks : gmap string data.Track) : res (list string) :=
  st ← for_each_res (convert_track tracks) track_ids ([], ∅);
  mret st.1.

(** [{dialog_id: dialog["goal_playlist"] for dialog_id, dialog in dialogs.items()}] *)
Definition get_gold_results (dialogs : dict data.Dialog) : dict (list string) :=
  foldl (fun d item => dict_set d item.1 (data.goal_playlist item.2)) [] dialogs.

(** [seed_tracks[dialog_id].append(turn["liked_results"][:num_previous_tracks])] *)
Definition append_seed_tracks (dialog_id : string) (num_previous_tracks : Z)
    (seed_tracks : dict (list (list string))) (turn : data.Turn)
    : res (dict (list (list string))) :=
  seeds ← dict_getitem seed_tracks dialog_id;
  mret (dict_set seed_tracks dialog_id
          (seeds ++ [slice_to (data.liked_results turn) num_previous_tracks])).

(** One round of the loop over [dialogs.items()]. *)
Definition seed_dialog (num_previous_tracks : Z) (seed_tracks : dict (list (list string)))
    (item : string * data.Dialog) : res (dict (list (list string))) :=
  let seed_tracks := dict_set seed_tracks item.1 [[]] in
  for_each_res (append_seed_tracks item.1 num_previous_tracks)
               (slice_to (data.turns item.2) (-1)) seed_tracks.

Definition get_seed_tracks (dialogs : dict data.Dialog) (num_previous_tracks : Z)
    : res (dict (list (list string))) :=
  for_each_res (seed_dialog num_previous_tracks) dialogs [].

(** [{key: f(value) for key, value in d.items()}], when the new dictionary is
    iterated later, and when it is only looked up. *)
Definition dict_comprehension {V W} (f : V -> res W) (d : dict V) : res (dict W) :=
  for_each_res (fun out item => w ← f item.2; mret (dict_set out item.1 w)) d [].

Definition map_comprehension {V W} (f : V -> res W) (d : dict V) : res (gmap string W) :=
  for_each_res (fun out item => w ← f item.2; mret (<[item.1 := w]> out)) d ∅.

(** [[convert_to_cluster_ids(track_ids, tracks) for track_ids in results]] *)
Definition convert_lists (tracks : gmap string data.Track)
    (results : list (list string)) : res (list (list string)) :=
  mapM (fun track_ids => convert_to_cluster_ids track_ids tracks) results.

(** [main], between the three loads and [write_output]: from the loaded
    predictions, dialogs and tracks and the flag [num_prev_tracks] to the
    scores. *)
Definition main (model_results : dict (list (list string)))
    (gold_dialogs : dict data.Dialog) (tracks : gmap string data.Track)
    (num_prev_tracks : Z) : M (dict (list Qc)) :=
  let gold_results := get_gold_results gold_dialogs in
  seed_tracks ← lift (get_seed_tracks gold_dialogs num_prev_tracks);
  model_results_ ← lift (dict_comprehension (convert_lists tracks) model_results);
  gold_results_ ← lift (map_comprehension
                          (fun results => convert_to_cluster_ids results tracks)
                          gold_results);
  seed_tracks_ ← lift (map_comprehension (convert_lists tracks) seed_tracks);
  score_dataset model_results_ gold_results_ seed_tracks_ _DEFAULT_K_VALUES _MAX_TURNS.

(** ** eval.py: [write_output] *)

(** What [write_output] does: the rows it hands to [csv.writer], or the
    [StopIteration] that [next] raises, before the file is opened, when
    there is no metric. *)
Inductive written : Type :=
  | Rows (rows : list (list string))
  | StopIteration.

(** [format_4f] stands for the formatting [f"{v:0.4f}"] of a float. *)
Definition write_output (format_4f : Qc -> string) (agg_metrics : dict (list Qc)) : written :=
  match agg_metrics with
  | [] => StopIteration
  | (_, values) :: _ =>
      let max_turns := Z.of_nat (length values) - 2 in
      Rows (("metric" :: "macro" :: "micro"
             :: ((fun i => "Turn " +:+ pretty i) <$> seqZ 0 max_turns))
            :: ((fun item => item.1 :: (format_4f <$> item.2)) <$> agg_metrics))
  end.

(** * Definitions used by the statements *)

#[global] Instance exn_eq_dec : EqDecision exn.
Proof. solve_decision. Defined.
#[global] Instance res_eq_dec {A} `{EqDecision A} : EqDecision (res A).
Proof. solve_decision. Defined.
#[global] Instance call_eq_dec : EqDecision call.
Proof. solve_decision. Defined.
#[global] Instance M_eq_dec {A} `{EqDecision A} : EqDecision (M A).
Proof. solve_decision. Defined.
#[global] Instance AveragedValue_eq_dec : EqDecision _AveragedValue.t.
Proof. solve_decision. Defined.
#[global] Instance PerTurnMetricSummary_eq_dec : EqDecision _PerTurnMetricSummary.t.
Proof. solve_decision. Defined.

(** The update rule, as a total function. *)
Definition mean_rule (self : _AveragedValue.t) (v : Qc) : _AveragedValue.t :=
  {| _AveragedValue.value :=
       (_AveragedValue.value self
        + (v - _AveragedValue.value self) / (_AveragedValue.count self + 1))%Qc;
     _AveragedValue.count := (_AveragedValue.count self + 1)%Qc |}.

(** The number of relevant predictions among the first [rank] of [top]. *)
Definition hits_so_far (gold top : list string) (rank : nat) : nat :=
  length (filter (fun pred => pred ∈ gold) (take rank top)).

(** What the prediction at 0-based position [j] adds: [hits so far / rank]
    when it is relevant, nothing otherwise. *)
Definition precision_term (gold top : list string) (j : nat) : Qc :=
  match top !! j with
  | Some pred =>
      if decide (pred ∈ gold)
      then (Qc_of_nat (hits_so_far gold top (S j)) / Qc_of_nat (S j))%Qc
      else 0%Qc
  | None => 0%Qc
  end.

Definition precision_sum (gold top : list string) : Qc :=
  foldr Qcplus 0%Qc (precision_term gold top <$> seq 0 (length top)).

(** average-precision@k as the specification words it: the sum over the
    relevant predictions within the top [k], divided by [min(|gold|, k)]. *)
Definition average_precision_spec (gold preds : list string) (k : Z) : res Qc :=
  truediv (precision_sum gold (slice_to preds k))
          (Qc_of_Z (Z.of_nat (length gold) `min` k)).

(** Where [d[key] = v] puts the key. *)
Definition key_insert (keys : list string) (key : string) : list string :=
  if decide (key ∈ keys) then keys else keys ++ [key].

(** The value a metric takes, when its function returns. *)
Definition metric_value (metric : string) (gold preds : list string) (k : Z) : Qc :=
  match _STANDARD_METRIC_MAP !! metric with
  | Some fn => match fn gold preds k with Ok v => v | Raise _ => 0%Qc end
  | None => 0%Qc
  end.

Definition set_metric (gold preds : list string) (metric : string)
    (d : dict Qc) (k : Z) : dict Qc :=
  dict_set d (metric_key metric k) (metric_value metric gold preds k).

(** The mapping the two loops build, written without the monad. *)
Definition metric_table (gold preds : list string) (k_values : list Z)
    (metrics : list string) : dict Qc :=
  foldl (fun d metric => foldl (set_metric gold preds metric) d k_values) [] metrics.

Definition returns_or (E : exn -> Prop) {A} (r : res A) : Prop :=
  match r with
  | Ok _ => True
  | Raise e => E e
  end.

(** The entry of a registered pair holds that pair's value. *)
Definition holds (gold preds : list string) (metric : string) (k : Z) (d : dict Qc) : Prop :=
  dict_get d (metric_key metric k) = Some (metric_value metric gold preds k).

(** The four conditions under which the input is rejected. *)
Definition rejected (preds gold : list string) (k_values : list Z)
    (metrics : list string) : Prop :=
  ~ NoDup preds
  \/ ~ NoDup gold
  \/ (exists metric, metric ∈ metrics /\ metric ∉ STANDARD_METRICS)
  \/ (exists k_max, py_max k_values = Ok k_max /\ Z.of_nat (length preds) < k_max).

Definition is_ValueError {A} (r : res A) : Prop :=
  exists msg, r = Raise (ValueError msg).

(** The seen set of turn [t]: the union of the seed batches of turns [0..t]. *)
Definition seen_at (seed_tracks : list (list string)) (t : nat) : gset string :=
  ⋃ (list_to_set <$> take (S t) seed_tracks).

(** The seen sets of all turns, in turn order. *)
Definition seen_sets (seed_tracks : list (list string)) : list (gset string) :=
  seen_at seed_tracks <$> seq 0 (length seed_tracks).

(** [ret[metric_name].append(value)] for every entry of [turn_metrics]. *)
Definition record_turn (ret : dict (list Qc)) (turn_metrics : dict Qc) : dict (list Qc) :=
  foldl (fun ret '(metric_name, metric_vals) => dict_append ret metric_name metric_vals)
        ret turn_metrics.

(** Scoring one turn as the specification words it, from the turn's
    predictions and the turn's seen set. *)
Definition score_turn (gold : list string) (k_values : list Z)
    (ret : dict (list Qc)) (turn : list string * gset string) : M (dict (list Qc)) :=
  let '(turn_preds, seen) := turn in
  let filtered_preds := _filter_tracks turn_preds seen in
  let filtered_gold := _filter_tracks gold seen in
  if decide (filtered_gold = []) then mret ret
  else
    turn_metrics ← compute_metrics filtered_preds filtered_gold k_values STANDARD_METRICS;
    mret (record_turn ret turn_metrics).

(** The seen sets that the loop goes through from [prev_seed_tracks]. *)
Fixpoint running_seen (prev_seed_tracks : gset string) (seed_tracks : list (list string))
    : list (gset string) :=
  match seed_tracks with
  | [] => []
  | batch :: rest =>
      (prev_seed_tracks ∪ list_to_set batch)
      :: running_seen (prev_seed_tracks ∪ list_to_set batch) rest
  end.

(** The turns that are scored: those with gold left after filtering. *)
Definition scored_turns (gold : list string)
    (turns : list (list string * gset string)) : list (list string * gset string) :=
  filter (fun turn => _filter_tracks gold turn.2 <> []) turns.

(** The keys [compute_metrics] fills for the registered metrics, in order. *)
Definition standard_keys (k_values : list Z) : list string :=
  dict_keys (metric_table [] [] k_values STANDARD_METRICS).

(** What holds of [ret] after the turns [turns]. *)
Definition per_turn_shape (gold : list string) (k_values : list Z)
    (turns : list (list string * gset string)) (ret : dict (list Qc)) : Prop :=
  (forall key vals, dict_get ret key = Some vals ->
                    length vals = length (scored_turns gold turns))
  /\ (scored_turns gold turns = [] -> ret = [])
  /\ (scored_turns gold turns <> [] -> dict_keys ret = standard_keys k_values).

(** [mean(values)], as [_PerTurnMetricSummary.update] computes it. *)
Definition mean (values : list Qc) : Qc := (sum values / Qc_of_nat (length values))%Qc.

(** What one round of updates does to the bucket of position [i]. *)
Definition bucket_rule (values : list Qc) (i : nat)
    (turn_avg : _AveragedValue.t) : _AveragedValue.t :=
  match values !! i with
  | Some v => mean_rule turn_avg v
  | None => turn_avg
  end.

(** The summary after [update(values)], written without loop or exception. *)
Definition summary_rule (self : _PerTurnMetricSummary.t) (values : list Qc)
    : _PerTurnMetricSummary.t :=
  {| _PerTurnMetricSummary.micro_average :=
       foldl mean_rule (_PerTurnMetricSummary.micro_average self) values;
     _PerTurnMetricSummary.macro_average :=
       mean_rule (_PerTurnMetricSummary.macro_average self) (mean values);
     _PerTurnMetricSummary.per_turn_average :=
       imap (bucket_rule values) (_PerTurnMetricSummary.per_turn_average self) |}.

(** No accumulator of the summary has a negative count. *)
Definition counts_nonneg (self : _PerTurnMetricSummary.t) : Prop :=
  (0 <= _AveragedValue.count (_PerTurnMetricSummary.micro_average self))%Qc
  /\ (0 <= _AveragedValue.count (_PerTurnMetricSummary.macro_average self))%Qc
  /\ Forall (fun turn_avg => (0 <= _AveragedValue.count turn_avg)%Qc)
            (_PerTurnMetricSummary.per_turn_average self).

(** [dm] is what [compute_metrics_per_turn] returns for the dialog [item]. *)
Definition dialog_result (gold : gmap string (list string))
    (seed_tracks : gmap string (list (list string))) (k_values : list Z)
    (item : string * list (list string)) (dm : dict (list Qc)) : Prop :=
  exists dialog_gold dialog_seed_tracks,
    gold !! item.1 = Some dialog_gold
    /\ seed_tracks !! item.1 = Some dialog_seed_tracks
    /\ outcome (compute_metrics_per_turn item.2 dialog_gold dialog_seed_tracks k_values)
       = Ok dm.

(** The per-turn lists of one metric, over the dialogs that have it. *)
Definition metric_lists (metric_name : string) (dms : list (dict (list Qc)))
    : list (list Qc) :=
  omap (fun dm => dict_get dm metric_name) dms.

(** [agg] holds, for every metric seen in [dms], the summary fed with that
    metric's lists in dialog order, and nothing else. *)
Definition aggregated (max_turns : Z) (dms : list (dict (list Qc)))
    (agg : dict _PerTurnMetricSummary.t) : Prop :=
  NoDup (dict_keys agg)
  /\ forall metric_name,
       dict_get agg metric_name
       = match metric_lists metric_name dms with
         | [] => None
         | vss => Some (foldl summary_rule (_PerTurnMetricSummary.__init__ max_turns) vss)
         end.

(** The value of one metric at one scored turn. *)
Definition turn_value (gold : list string) (metric : string) (k : Z)
    (turn : list string * gset string) : Qc :=
  metric_value metric (_filter_tracks gold turn.2) (_filter_tracks turn.1 turn.2) k.

(** [ret] lists, under every key, the values of the scored turns, in order. *)
Definition per_turn_values (gold : list string) (k_values : list Z)
    (turns : list (list string * gset string)) (ret : dict (list Qc)) : Prop :=
  forall metric k,
    metric ∈ STANDARD_METRICS -> k ∈ k_values -> scored_turns gold turns <> [] ->
    dict_get ret (metric_key metric k)
    = Some (turn_value gold metric k <$> scored_turns gold turns).

(** What the first loop of [score_dataset] keeps of [agg_metrics]: no key
    twice, no negative count, and the keys of [compute_metrics] once a
    dialog has brought any. *)
Definition summaries_wf (k_values : list Z) (agg : dict _PerTurnMetricSummary.t) : Prop :=
  NoDup (dict_keys agg)
  /\ (forall name summ, dict_get agg name = Some summ -> counts_nonneg summ)
  /\ (agg = [] \/ dict_keys agg = standard_keys k_values).

(** The dialog [item] is scored. *)
Definition dialog_scored (gold : gmap string (list string))
    (seed_tracks : gmap string (list (list string))) (k_values : list Z)
    (item : string * list (list string)) : Prop :=
  exists dm, dialog_result gold seed_tracks k_values item dm.

(** The dialog [item] makes [score_dataset] raise [e]: its id is missing
    from [gold] or from [seed_tracks], or its per-turn scoring raises. *)
Definition dialog_raises (gold : gmap string (list string))
    (seed_tracks : gmap string (list (list string))) (k_values : list Z)
    (item : string * list (list string)) (e : exn) : Prop :=
  match gold !! item.1, seed_tracks !! item.1 with
  | Some dialog_gold, Some dialog_seed_tracks =>
      outcome (compute_metrics_per_turn item.2 dialog_gold dialog_seed_tracks k_values)
      = Raise e
  | _, _ => e = KeyError item.1
  end.

(** [[tracks[track_id]["track_cluster_ids"] for track_id in track_ids]] *)
Definition lookup_clusters (tracks : gmap string data.Track)
    (track_ids : list string) : res (list string) :=
  mapM (fun track_id => track ← getitem tracks track_id;
                        mret (data.track_cluster_ids track)) track_ids.

(** The seed tracks of a dialog, turn by turn: none for the first turn, then
    the first [num_previous_tracks] liked results of the turn before. *)
Definition dialog_seeds (num_previous_tracks : Z) (dialog : data.Dialog)
    : list (list string) :=
  [] :: ((fun turn => slice_to (data.liked_results turn) num_previous_tracks)
         <$> slice_to (data.turns dialog) (-1)).

(** The [ValueError] of [compute_metrics] for a cutoff beyond the predictions. *)
Definition k_too_large (k_max : Z) (num_preds : nat) : exn :=
  ValueError ("k is larger than the number of retrieved preds, " +:+ pretty k_max
              +:+ " > " +:+ pretty num_preds +:+ ".").

(** What one result holds: the dialog id, the turn index and the docids of
    the neighbors; it raises what reading the result raises. *)
Definition result_record (int : string -> res Z) (result : data.Result.t)
    : res (string * Z * list string) :=
  docid ← field "docid" (data.Result.docid result);
  parts ← unpack_split docid;
  neighbor ← field "neighbor" (data.Result.neighbor result);
  docids ← mapM (fun n => field "docid" (data.Neighbor.docid n)) neighbor;
  turn_idx ← int parts.2;
  mret (parts.1, turn_idx, docids).

(** [per_turn_results[dialog_id][turn_idx] = docids] on the [defaultdict]. *)
Definition store_record (per_turn_results : dict (gmap Z (list string)))
    (record : string * Z * list string) : dict (gmap Z (list string)) :=
  dict_set per_turn_results record.1.1
    (<[record.1.2 := record.2]> (default ∅ (dict_get per_turn_results record.1.1))).

(** The docids of the last record of a dialog and turn index, if there is one. *)
Definition latest (records : list (string * Z * list string))
    (dialog_id : string) (turn_idx : Z) : option (list string) :=
  last (omap (fun record : string * Z * list string =>
                if decide (record.1.1 = dialog_id /\ record.1.2 = turn_idx)
                then Some record.2 else None) records).

Definition turn_lists_of (per_turn_result : gmap Z (list string)) : list (list string) :=
  match turn_lists per_turn_result with
  | Ok lists => lists
  | Raise _ => []
  end.

(** An [int] for the examples: it reads plain decimal digits. *)
Fixpoint digits (s : string) (acc : Z) : option Z :=
  match s with
  | EmptyString => Some acc
  | String c s' =>
      let n := nat_of_ascii c in
      if decide (48 <= n <= 57)%nat then digits s' (10 * acc + Z.of_nat (n - 48)) else None
  end.

Definition int_of_digits (s : string) : res Z :=
  match s, digits s 0 with
  | String _ _, Some z => Ok z
  | _, _ => Raise (ValueError ("invalid literal for int() with base 10: '" +:+ s +:+ "'"))
  end.

(** No dialog of [preds] has a turn with gold left after filtering; some
    dialog has one. *)
Definition no_scored_turn (gold : gmap string (list string))
    (seed_tracks : gmap string (list (list string)))
    (preds : dict (list (list string))) : Prop :=
  forall dialog_id dialog_preds dialog_gold dialog_seed_tracks,
    (dialog_id, dialog_preds) ∈ preds ->
    gold !! dialog_id = Some dialog_gold ->
    seed_tracks !! dialog_id = Some dialog_seed_tracks ->
    scored_turns dialog_gold (zip dialog_preds (seen_sets dialog_seed_tracks)) = [].

Definition some_scored_turn (gold : gmap string (list string))
    (seed_tracks : gmap string (list (list string)))
    (preds : dict (list (list string))) : Prop :=
  exists dialog_id dialog_preds dialog_gold dialog_seed_tracks,
    (dialog_id, dialog_preds) ∈ preds
    /\ gold !! dialog_id = Some dialog_gold
    /\ seed_tracks !! dialog_id = Some dialog_seed_tracks
    /\ scored_turns dialog_gold (zip dialog_preds (seen_sets dialog_seed_tracks)) <> [].

(** * Properties *)

(** ** Numbers *)

Lemma Qc_of_nat_0 : Qc_of_nat 0 = 0%Qc.
Proof. apply Z2Qc_inj_0. Qed.

Lemma Qc_of_nat_S n : Qc_of_nat (S n) = (Qc_of_nat n + 1)%Qc.
Proof.
  unfold Qc_of_nat. rewrite Nat2Z.inj_succ, <- Z.add_1_r.
  rewrite Z2Qc_inj_add. reflexivity.
Qed.

Lemma Qc_of_nat_nonneg n : (0 <= Qc_of_nat n)%Qc.
Proof.
  unfold Qc_of_nat. rewrite <- Z2Qc_inj_0. apply (proj1 (Z2Qc_inj_le _ _)). lia.
Qed.

Lemma Qc_of_nat_pos n : (0 < n)%nat -> (0 < Qc_of_nat n)%Qc.
Proof.
  intros Hn. unfold Qc_of_nat. rewrite <- Z2Qc_inj_0. apply (proj1 (Z2Qc_inj_lt _ _)). lia.
Qed.

Lemma Qc_of_nat_eq_0 n : Qc_of_nat n = 0%Qc <-> n = 0%nat.
Proof.
  split; [|intros ->; apply Qc_of_nat_0].
  intros H. destruct n as [|n]; [reflexivity|].
  pose proof (Qc_of_nat_pos (S n) ltac:(lia)) as Hp.
  rewrite H in Hp. destruct (irreflexivity Qclt 0%Qc Hp).
Qed.

Lemma Qc_succ_nonzero (x : Qc) : (0 <= x)%Qc -> (x + 1)%Qc <> 0%Qc.
Proof.
  intros Hx Heq.
  assert (0 < x + 1)%Qc as Hlt.
  { apply Qclt_le_trans with (0 + 1)%Qc; [reflexivity|].
    apply Qcplus_le_mono_r. exact Hx. }
  rewrite Heq in Hlt. destruct (irreflexivity Qclt 0%Qc Hlt).
Qed.

Lemma truediv_Ok x y : y <> 0%Qc -> truediv x y = Ok (x / y)%Qc.
Proof. intros Hy. unfold truediv. destruct (decide (y = 0%Qc)); congruence. Qed.

Lemma truediv_Raise x y : truediv x y = Raise ZeroDivisionError <-> y = 0%Qc.
Proof. unfold truediv. destruct (decide (y = 0%Qc)); split; congruence. Qed.

(** ** The running average *)

Section running_average.
Import _AveragedValue.

Lemma update_rule self v :
  (count self + 1)%Qc <> 0%Qc -> update self v = Ok (mean_rule self v).
Proof. intros Hc. unfold update. rewrite truediv_Ok by exact Hc. reflexivity. Qed.

Lemma update_nonneg self v :
  (0 <= count self)%Qc ->
  update self v = Ok (mean_rule self v) /\ (0 <= count (mean_rule self v))%Qc.
Proof.
  intros Hc. split; [apply update_rule, Qc_succ_nonzero, Hc|].
  simpl. apply Qcle_trans with (count self); [exact Hc|].
  rewrite <- (Qcplus_0_r (count self)) at 1.
  apply Qcplus_le_mono_l. discriminate.
Qed.

(** Feeding observations one by one never raises, whatever they are. *)
Lemma feed_rule vs self :
  (0 <= count self)%Qc ->
  for_each_res update vs self = Ok (foldl mean_rule self vs)
  /\ count (foldl mean_rule self vs) = (count self + Qc_of_nat (length vs))%Qc.
Proof.
  revert self. induction vs as [|v vs IH]; intros self Hc; simpl.
  - split; [reflexivity|]. rewrite Qc_of_nat_0, Qcplus_0_r. reflexivity.
  - destruct (update_nonneg self v Hc) as [-> Hc']. simpl.
    destruct (IH _ Hc') as [-> Hn]. split; [reflexivity|].
    rewrite Hn, Qc_of_nat_S. simpl. ring.
Qed.

(** C5: the accumulator moves by
    [new_mean = old_mean + (value - old_mean) / new_count] with
    [new_count = old_count + 1] (for any accumulator whose new count is not
    zero, and so at every observation fed to a fresh one); a fresh
    accumulator fed [2, 4, 6] ends with mean 4 and count 3, over the
    rationals and over binary64 alike. *)
Theorem running_average_update_rule :
  (forall (self : t) (v : Qc),
     (count self + 1)%Qc <> 0%Qc ->
     update self v =
     Ok {| value := (value self + (v - value self) / (count self + 1))%Qc;
           count := (count self + 1)%Qc |})
  /\ (forall (vs : list Qc) (v : Qc),
        exists self,
          for_each_res update vs fresh = Ok self
          /\ count self = Qc_of_nat (length vs)
          /\ update self v =
             Ok {| value := (value self + (v - value self) / (count self + 1))%Qc;
                   count := (count self + 1)%Qc |})
  /\ for_each_res update [Qc_of_Z 2; Qc_of_Z 4; Qc_of_Z 6] fresh
     = Ok {| value := Qc_of_Z 4; count := Qc_of_Z 3 |}
  /\ foldl _AveragedValue_binary64.update _AveragedValue_binary64.fresh
       _AveragedValue_binary64.observations_2_4_6
     = _AveragedValue_binary64.mean_4_count_3.
Proof.
  split; [exact update_rule|]. split.
  - intros vs v. exists (foldl mean_rule fresh vs).
    destruct (feed_rule vs fresh) as [Hfeed Hcount]; [discriminate|].
    split; [exact Hfeed|]. split.
    + rewrite Hcount. simpl. apply Qcplus_0_l.
    + apply update_rule, Qc_succ_nonzero.
      rewrite Hcount. simpl. rewrite Qcplus_0_l. apply Qc_of_nat_nonneg.
  - split; [compute_done|]. vm_compute. reflexivity.
Qed.

End running_average.

(** ** Sets, duplicates and slices *)

Lemma num_common_pos gold preds :
  (0 < num_common gold preds)%nat <-> exists x, x ∈ gold /\ x ∈ preds.
Proof.
  unfold num_common. split.
  - intros H. apply size_pos_elem_of in H as [x Hx]. exists x. set_solver.
  - intros (x & Hg & Hp).
    assert (size ((list_to_set gold : gset string) ∩ list_to_set preds) <> 0%nat); [|lia].
    apply size_non_empty_iff. set_solver.
Qed.

Lemma size_list_to_set_le (l : list string) :
  (size (list_to_set l : gset string) <= length l)%nat.
Proof.
  induction l as [|x l IH].
  - rewrite list_to_set_nil, size_empty. simpl. lia.
  - rewrite list_to_set_cons, size_union_alt, size_singleton. simpl.
    pose proof (subseteq_size (list_to_set l ∖ {[x]}) (list_to_set l : gset string)
                  ltac:(set_solver)). lia.
Qed.

Lemma _has_duplicates_false values : _has_duplicates values = false <-> NoDup values.
Proof.
  unfold _has_duplicates. rewrite bool_decide_eq_false. split.
  - intros Hsz. induction values as [|x l IH]; [constructor|].
    rewrite list_to_set_cons, size_union_alt, size_singleton in Hsz. simpl in Hsz.
    pose proof (size_list_to_set_le l) as Hle.
    pose proof (subseteq_size (list_to_set l ∖ {[x]}) (list_to_set l : gset string)
                  ltac:(set_solver)) as Hsub.
    constructor.
    + intros Hin.
      assert (list_to_set l ∖ {[x]} ⊂ (list_to_set l : gset string)) as Hss.
      { apply strict_spec_alt. split; [set_solver|]. intros Heq.
        assert (x ∈ (list_to_set l ∖ {[x]} : gset string)) as Hx; [|set_solver].
        rewrite Heq. apply elem_of_list_to_set. exact Hin. }
      apply subset_size in Hss. lia.
    + apply IH. lia.
  - intros Hnd. rewrite size_list_to_set by exact Hnd. lia.
Qed.

Lemma _has_duplicates_true values : _has_duplicates values = true <-> ~ NoDup values.
Proof.
  rewrite <- _has_duplicates_false. destruct (_has_duplicates values); split; congruence.
Qed.

Lemma slice_to_in_range {A} (l : list A) (k : Z) :
  0 <= k <= Z.of_nat (length l) ->
  slice_to l k = take (Z.to_nat k) l /\ length (slice_to l k) = Z.to_nat k.
Proof.
  intros Hk. unfold slice_to. destruct (decide (0 <= k)); [|lia].
  split; [reflexivity|]. rewrite length_take. lia.
Qed.

(** ** hit@k and reciprocal-rank@k *)

Lemma reciprocal_rank_loop_pos gold i preds :
  (0 < i)%nat ->
  (0 < reciprocal_rank_loop gold i preds)%Qc <-> exists x, x ∈ gold /\ x ∈ preds.
Proof.
  revert i. induction preds as [|pred rest IH]; intros i Hi; simpl.
  - split; [intros H; destruct (irreflexivity Qclt 0%Qc H)|].
    intros (x & _ & Hx). inversion Hx.
  - destruct (decide (pred ∈ gold)) as [Hin|Hnin].
    + split; [intros _; exists pred; split; [exact Hin|left]|].
      intros _. unfold Qcdiv. rewrite Qcmult_1_l.
      apply Qcinv_pos, Qc_of_nat_pos, Hi.
    + rewrite IH by lia. split.
      * intros (x & Hg & Hx). exists x. split; [exact Hg|right; exact Hx].
      * intros (x & Hg & Hx). exists x. split; [exact Hg|].
        apply elem_of_cons in Hx as [->|Hx]; [contradiction|exact Hx].
Qed.

(** C9: for every gold collection, prediction sequence and cutoff,
    hit@k is 1 exactly when reciprocal-rank@k is strictly positive. *)
Theorem hit_iff_reciprocal_rank_pos (gold preds : list string) (k : Z) :
  get_hit gold preds k = 1 <-> (0 < get_reciprocal_rank gold preds k)%Qc.
Proof.
  unfold get_hit, get_reciprocal_rank.
  rewrite reciprocal_rank_loop_pos by lia.
  rewrite <- num_common_pos.
  destruct (decide (0 < num_common gold (slice_to preds k))%nat); split; intros; (done || lia).
Qed.

(** ** average-precision@k *)

Lemma average_precision_loop_sum gold pre rest total :
  average_precision_loop gold (S (length pre)) (hits_so_far gold pre (length pre)) total rest
  = (total + foldr Qcplus 0%Qc
               (precision_term gold (pre ++ rest) <$> seq (length pre) (length rest)))%Qc.
Proof.
  revert pre total. induction rest as [|pred rest IH]; intros pre total; simpl.
  - rewrite Qcplus_0_r. reflexivity.
  - assert (hits_so_far gold (pre ++ [pred]) (length (pre ++ [pred]))
            = if decide (pred ∈ gold) then S (hits_so_far gold pre (length pre))
              else hits_so_far gold pre (length pre)) as Hhits.
    { unfold hits_so_far. rewrite !firstn_all, filter_app, length_app.
      rewrite filter_cons, filter_nil.
      destruct (decide (pred ∈ gold)); simpl; lia. }
    assert (precision_term gold (pre ++ pred :: rest) (length pre)
            = if decide (pred ∈ gold)
              then (Qc_of_nat (S (hits_so_far gold pre (length pre)))
                    / Qc_of_nat (S (length pre)))%Qc
              else 0%Qc) as Hterm.
    { unfold precision_term. rewrite list_lookup_middle by reflexivity.
      destruct (decide (pred ∈ gold)) as [Hin|Hnin]; [|reflexivity].
      do 2 f_equal. rewrite <- Hhits.
      unfold hits_so_far.
      replace (S (length pre)) with (length (pre ++ [pred])) by (rewrite length_app; simpl; lia).
      rewrite (cons_middle pred pre rest), app_assoc.
      rewrite take_app_length, firstn_all. reflexivity. }
    rewrite Hterm.
    specialize (IH (pre ++ [pred])).
    rewrite Hhits, length_app in IH. simpl in IH.
    rewrite Nat.add_1_r, <- app_assoc in IH. simpl in IH.
    destruct (decide (pred ∈ gold)); rewrite IH.
    + rewrite Qcplus_assoc. reflexivity.
    + rewrite Qcplus_0_l. reflexivity.
Qed.

Lemma average_precision_loop_spec gold top :
  average_precision_loop gold 1 0 0%Qc top = precision_sum gold top.
Proof.
  pose proof (average_precision_loop_sum gold [] top 0%Qc) as H.
  simpl in H. rewrite Qcplus_0_l in H. exact H.
Qed.

(** The code divides by the number of predictions it kept, not by [k]. *)
Lemma get_average_precision_unfold gold preds k :
  get_average_precision gold preds k
  = truediv (precision_sum gold (slice_to preds k))
            (Qc_of_nat (length gold `min` length (slice_to preds k))).
Proof.
  unfold get_average_precision. rewrite average_precision_loop_spec. reflexivity.
Qed.

(** C6, as stated, fails on a prediction list shorter than the cutoff:
    with gold [A, B], predictions [A] and k = 2 the code divides by
    [min(2, 1) = 1] and returns 1, where the stated formula gives 1/2. *)
Lemma average_precision_short_preds :
  get_average_precision ["A"; "B"] ["A"] 2 = Ok 1%Qc
  /\ average_precision_spec ["A"; "B"] ["A"] 2 = Ok (1 / Qc_of_Z 2)%Qc
  /\ get_average_precision ["A"; "B"] ["A"] 2 <> average_precision_spec ["A"; "B"] ["A"] 2.
Proof. repeat split; compute_done. Qed.

(** C6, amended: average-precision@k is the sum of (hits so far / rank)
    over the relevant predictions within the top k, divided by
    [min(|gold|, len(preds[:k]))]; the divisor is [min(|gold|, k)], as
    stated, whenever [0 <= k <= len(preds)]. *)
Theorem average_precision_formula (gold preds : list string) (k : Z) :
  get_average_precision gold preds k
  = truediv (precision_sum gold (slice_to preds k))
            (Qc_of_nat (length gold `min` length (slice_to preds k)))
  /\ (0 <= k <= Z.of_nat (length preds) ->
      get_average_precision gold preds k = average_precision_spec gold preds k).
Proof.
  split; [apply get_average_precision_unfold|].
  intros Hk. rewrite get_average_precision_unfold. unfold average_precision_spec.
  destruct (slice_to_in_range preds k Hk) as [_ ->].
  f_equal. unfold Qc_of_nat. f_equal. lia.
Qed.

(** A cutoff within the prediction list: the stated divisor applies. *)
Lemma average_precision_formula_witness :
  get_average_precision ["A"; "B"] ["A"; "C"] 2
  = average_precision_spec ["A"; "B"] ["A"; "C"] 2.
Proof.
  apply (proj2 (average_precision_formula ["A"; "B"] ["A"; "C"] 2)).
  simpl. lia.
Defined.

(** ** Dictionaries *)

Section dict_facts.
Context {V : Type}.
Implicit Types (d : dict V) (key : string) (v : V).

Lemma dict_get_set_eq d key v : dict_get (dict_set d key v) key = Some v.
Proof.
  induction d as [|[k v'] d IH]; simpl.
  - rewrite decide_True; reflexivity.
  - destruct (decide (k = key)) as [->|Hne]; simpl.
    + rewrite decide_True; reflexivity.
    + rewrite decide_False by exact Hne. exact IH.
Qed.

Lemma dict_get_set_ne d key key' v :
  key <> key' -> dict_get (dict_set d key v) key' = dict_get d key'.
Proof.
  intros Hne. induction d as [|[k v'] d IH]; simpl.
  - rewrite decide_False by exact Hne. reflexivity.
  - destruct (decide (k = key)) as [->|Hk]; simpl.
    + rewrite !decide_False by exact Hne. reflexivity.
    + destruct (decide (k = key')); [reflexivity|exact IH].
Qed.

Lemma dict_get_None d key : dict_get d key = None <-> key ∉ dict_keys d.
Proof.
  unfold dict_keys. induction d as [|[k v'] d IH]; simpl.
  - split; [intros _; apply not_elem_of_nil|reflexivity].
  - rewrite not_elem_of_cons. destruct (decide (k = key)) as [->|Hk].
    + split; [discriminate|intros [[] _]; reflexivity].
    + rewrite IH. split; [intros ?; split; [congruence|assumption]|intros [_ ?]; assumption].
Qed.

Lemma dict_get_elem_of d key v : dict_get d key = Some v -> (key, v) ∈ d.
Proof.
  induction d as [|[k v'] d IH]; simpl; [discriminate|].
  destruct (decide (k = key)) as [->|Hk].
  - intros [= ->]. left.
  - intros H. right. apply IH, H.
Qed.

Lemma dict_get_is_Some d key : is_Some (dict_get d key) <-> key ∈ dict_keys d.
Proof.
  destruct (dict_get d key) as [v|] eqn:Hg.
  - split; [intros _|intros _; eexists; reflexivity].
    apply dict_get_elem_of in Hg. apply list_elem_of_fmap.
    exists (key, v). split; [reflexivity|exact Hg].
  - apply dict_get_None in Hg. split; [intros [? [=]]|contradiction].
Qed.

Lemma elem_of_dict_get d key v :
  NoDup (dict_keys d) -> (key, v) ∈ d -> dict_get d key = Some v.
Proof.
  unfold dict_keys. induction d as [|[k v'] d IH]; simpl; intros Hnd Hin.
  - inversion Hin.
  - apply NoDup_cons in Hnd as [Hk Hnd].
    apply elem_of_cons in Hin as [[= -> ->]|Hin].
    + rewrite decide_True; reflexivity.
    + destruct (decide (k = key)) as [->|Hne]; [|apply IH; assumption].
      destruct Hk. apply list_elem_of_fmap. exists (key, v). split; [reflexivity|exact Hin].
Qed.

Lemma dict_keys_set d key v :
  dict_keys (dict_set d key v) = key_insert (dict_keys d) key.
Proof.
  unfold key_insert, dict_keys. induction d as [|[k v'] d IH]; [reflexivity|].
  cbn [dict_set]. destruct (decide (k = key)) as [->|Hk]; rewrite !fmap_cons; cbn [fst].
  - rewrite decide_True by left. reflexivity.
  - rewrite IH. destruct (decide (key ∈ d.*1)) as [Hin|Hnin].
    + rewrite decide_True by (right; exact Hin). reflexivity.
    + rewrite decide_False; [reflexivity|].
      rewrite not_elem_of_cons. split; [congruence|exact Hnin].
Qed.

Lemma key_insert_NoDup keys key : NoDup keys -> NoDup (key_insert keys key).
Proof.
  intros Hnd. unfold key_insert. destruct (decide (key ∈ keys)); [exact Hnd|].
  apply NoDup_app. split; [exact Hnd|]. split; [|apply NoDup_singleton].
  intros x Hx Hx'. apply list_elem_of_singleton in Hx' as ->. contradiction.
Qed.

Lemma elem_of_key_insert keys key x : x ∈ key_insert keys key <-> x ∈ keys \/ x = key.
Proof.
  unfold key_insert. destruct (decide (key ∈ keys)) as [Hin|Hnin].
  - split; [left; assumption|]. intros [?| ->]; assumption.
  - rewrite elem_of_app, list_elem_of_singleton. reflexivity.
Qed.

Lemma dict_set_NoDup d key v : NoDup (dict_keys d) -> NoDup (dict_keys (dict_set d key v)).
Proof. rewrite dict_keys_set. apply key_insert_NoDup. Qed.

End dict_facts.

(** ** Loops *)

Section loop_rules.
Context {S X : Type}.
Implicit Types (body : S -> X -> M S) (xs : list X) (s : S).

Lemma for_each_app body xs ys s :
  for_each body (xs ++ ys) s = s' ← for_each body xs s; for_each body ys s'.
Proof.
  revert s. induction xs as [|x xs IH]; intros s; simpl.
  - unfold mbind, M_bind, mret, M_ret. simpl. destruct (for_each body ys s); reflexivity.
  - unfold mbind, M_bind. simpl. destruct (body s x) as [c [s'|e]]; simpl; [|reflexivity].
    rewrite IH. unfold mbind, M_bind. simpl.
    destruct (for_each body xs s') as [c' [s''|e]]; simpl; [|reflexivity].
    rewrite app_assoc. reflexivity.
Qed.

(** The invariant rule: [Inv pre s] holds of the state [s] reached after
    the rounds [pre]; [C] holds of every call made and [E] of any
    exception raised. *)
Lemma for_each_rule (Inv : list X -> S -> Prop) (C : call -> Prop) (E : exn -> Prop)
    body xs s0 :
  Inv [] s0 ->
  (forall pre x post s, xs = pre ++ x :: post -> Inv pre s ->
     Forall C (calls (body s x))
     /\ match outcome (body s x) with
        | Ok s' => Inv (pre ++ [x]) s'
        | Raise e => E e
        end) ->
  Forall C (calls (for_each body xs s0))
  /\ match outcome (for_each body xs s0) with
     | Ok s' => Inv xs s'
     | Raise e => E e
     end.
Proof.
  intros H0 Hstep.
  assert (forall rest pre s, xs = pre ++ rest -> Inv pre s ->
            Forall C (calls (for_each body rest s))
            /\ match outcome (for_each body rest s) with
               | Ok s' => Inv xs s'
               | Raise e => E e
               end) as Hgen.
  { induction rest as [|x rest IH]; intros pre s Hxs Hinv; simpl.
    - rewrite app_nil_r in Hxs. subst pre. split; [constructor|exact Hinv].
    - destruct (Hstep pre x rest s Hxs Hinv) as [Hc Ho].
      unfold mbind, M_bind. destruct (outcome (body s x)) as [s'|e] eqn:Hb; simpl.
      + destruct (IH (pre ++ [x]) s') as [Hc' Ho']; [rewrite <- app_assoc; exact Hxs|exact Ho|].
        split; [apply Forall_app; split; assumption|exact Ho'].
      + split; assumption. }
  apply (Hgen xs [] s0); [reflexivity|exact H0].
Qed.

End loop_rules.

(** ** The metric registry *)

Lemma STANDARD_METRICS_eq : STANDARD_METRICS = ["hit"; "map"; "mrr"; "precision"; "recall"].
Proof. vm_compute. reflexivity. Qed.

Lemma registry_lookup metric :
  _STANDARD_METRIC_MAP !! metric =
  if decide ("hit" = metric) then Some (fun gold preds k => Ok (Qc_of_Z (get_hit gold preds k)))
  else if decide ("map" = metric) then Some get_average_precision
  else if decide ("recall" = metric) then Some get_recall
  else if decide ("precision" = metric) then Some get_precision
  else if decide ("mrr" = metric) then Some (fun gold preds k => Ok (get_reciprocal_rank gold preds k))
  else None.
Proof.
  unfold _STANDARD_METRIC_MAP. cbn [list_to_map foldr uncurry fst snd].
  rewrite !lookup_insert, lookup_empty.
  repeat (destruct (decide _); [reflexivity|]). reflexivity.
Qed.

Lemma registered_iff metric :
  is_Some (_STANDARD_METRIC_MAP !! metric) <-> metric ∈ STANDARD_METRICS.
Proof.
  rewrite registry_lookup, STANDARD_METRICS_eq.
  repeat (destruct (decide _) as [<-|];
          [split; [intros _; repeat (left || right)|intros _; eexists; reflexivity]|]).
  split; [intros [? [=]]|].
  rewrite !elem_of_cons. intros [->|[->|[->|[->|[->|H]]]]]; try congruence. inversion H.
Qed.

Lemma recall_registered : "recall" ∈ STANDARD_METRICS.
Proof. apply registered_iff. rewrite registry_lookup. eexists. reflexivity. Qed.

Lemma unregistered_iff metric :
  _STANDARD_METRIC_MAP !! metric = None <-> metric ∉ STANDARD_METRICS.
Proof.
  rewrite <- registered_iff, eq_None_not_Some. reflexivity.
Qed.

(** A registered metric function raises nothing but [ZeroDivisionError]. *)
Lemma metric_fn_outcome metric fn gold preds k :
  _STANDARD_METRIC_MAP !! metric = Some fn ->
  match fn gold preds k with
  | Ok _ => True
  | Raise e => e = ZeroDivisionError
  end.
Proof.
  rewrite registry_lookup.
  repeat (destruct (decide _); [intros [= <-]|]); try discriminate; try exact I;
    unfold get_average_precision, get_recall, get_precision, truediv;
    destruct (decide _); done.
Qed.

(** It returns when gold is not empty and the cutoff keeps a prediction. *)
Lemma metric_fn_returns metric fn gold preds k :
  _STANDARD_METRIC_MAP !! metric = Some fn ->
  gold <> [] -> 1 <= k <= Z.of_nat (length preds) ->
  exists v, fn gold preds k = Ok v.
Proof.
  rewrite registry_lookup. intros Hfn Hgold Hk.
  destruct (slice_to_in_range preds k ltac:(lia)) as [_ Hlen].
  assert (length gold <> 0%nat) as Hg by (destruct gold; [congruence|simpl; lia]).
  repeat (destruct (decide _); [injection Hfn as <-|]); try discriminate;
    try (eexists; reflexivity);
    unfold get_average_precision, get_recall, get_precision;
    rewrite truediv_Ok; try (eexists; reflexivity);
    rewrite Qc_of_nat_eq_0; lia.
Qed.

(** ** [compute_metrics] *)

Section metric_loops.
Context (E : exn -> Prop) (preds gold : list string) (k_values : list Z).

Lemma metric_round_rule metric fn d0 :
  _STANDARD_METRIC_MAP !! metric = Some fn ->
  (forall k, k ∈ k_values -> returns_or E (fn gold preds k)) ->
  let r := for_each (metric_round preds gold metric fn) k_values d0 in
  Forall (fun c => call_gold c = gold /\ call_preds c = preds /\ call_metric c = metric
                   /\ call_k c ∈ k_values) (calls r)
  /\ match outcome r with
     | Ok d => d = foldl (set_metric gold preds metric) d0 k_values
               /\ forall k, k ∈ k_values -> fn gold preds k = Ok (metric_value metric gold preds k)
     | Raise e => E e
     end.
Proof.
  intros Hfn Hret r. subst r.
  apply (for_each_rule
           (fun pre d => d = foldl (set_metric gold preds metric) d0 pre
                         /\ forall k, k ∈ pre -> fn gold preds k = Ok (metric_value metric gold preds k))).
  - split; [reflexivity|]. intros k Hk. inversion Hk.
  - intros pre k post d Hks [-> Hpre].
    assert (k ∈ k_values) as Hk by (rewrite Hks; apply elem_of_app; right; left).
    specialize (Hret k Hk).
    unfold metric_round, call_metric_fn, mbind, M_bind. simpl.
    destruct (fn gold preds k) as [v|e] eqn:Hv; simpl.
    + assert (metric_value metric gold preds k = v) as Hmv.
      { unfold metric_value. rewrite Hfn, Hv. reflexivity. }
      split; [repeat constructor; exact Hk|].
      split.
      * rewrite foldl_app. simpl. rewrite <- Hmv. reflexivity.
      * intros k' [Hk'|Hk']%elem_of_app; [apply Hpre, Hk'|].
        apply list_elem_of_singleton in Hk' as ->. rewrite Hmv. exact Hv.
    + split; [repeat constructor; exact Hk|exact Hret].
Qed.

Lemma metric_rounds_rule metrics :
  (forall metric, metric ∈ metrics -> is_Some (_STANDARD_METRIC_MAP !! metric)) ->
  (forall metric k (fn : metric_fn), metric ∈ metrics -> k ∈ k_values ->
     _STANDARD_METRIC_MAP !! metric = Some fn -> returns_or E (fn gold preds k)) ->
  let r := for_each (metric_rounds preds gold k_values) metrics [] in
  Forall (fun c => call_gold c = gold /\ call_preds c = preds /\ call_metric c ∈ metrics
                   /\ call_k c ∈ k_values) (calls r)
  /\ match outcome r with
     | Ok d => d = metric_table gold preds k_values metrics
               /\ forall metric k (fn : metric_fn), metric ∈ metrics -> k ∈ k_values ->
                    _STANDARD_METRIC_MAP !! metric = Some fn ->
                    fn gold preds k = Ok (metric_value metric gold preds k)
     | Raise e => E e
     end.
Proof.
  intros Hreg Hret r. subst r. unfold metric_table.
  apply (for_each_rule
           (fun pre d =>
              d = foldl (fun d metric => foldl (set_metric gold preds metric) d k_values) [] pre
              /\ forall metric k (fn : metric_fn), metric ∈ pre -> k ∈ k_values ->
                   _STANDARD_METRIC_MAP !! metric = Some fn ->
                   fn gold preds k = Ok (metric_value metric gold preds k))).
  - split; [reflexivity|]. intros ? ? ? Hm. inversion Hm.
  - intros pre metric post d Hms [-> Hpre].
    assert (metric ∈ metrics) as Hm by (rewrite Hms; apply elem_of_app; right; left).
    destruct (Hreg metric Hm) as [fn Hfn].
    unfold metric_rounds. rewrite Hfn.
    destruct (metric_round_rule metric fn
                (foldl (fun d metric => foldl (set_metric gold preds metric) d k_values) [] pre)
                Hfn) as [Hcalls Hout].
    { intros k Hk. exact (Hret metric k fn Hm Hk Hfn). }
    split.
    + eapply Forall_impl; [exact Hcalls|].
      intros c (? & ? & -> & ?). repeat split; assumption.
    + destruct (outcome _) as [d|e]; [|exact Hout].
      destruct Hout as [-> Hks]. split.
      * rewrite foldl_app. reflexivity.
      * intros metric' k fn' [Hin|Hin]%elem_of_app Hk Hfn'.
        -- exact (Hpre metric' k fn' Hin Hk Hfn').
        -- apply list_elem_of_singleton in Hin. subst metric'.
           rewrite Hfn in Hfn'. injection Hfn' as <-. apply Hks, Hk.
Qed.

End metric_loops.

(** Distinct (registered metric, cutoff) pairs have distinct keys. *)
Lemma metric_key_inj metric metric' k k' :
  metric ∈ STANDARD_METRICS -> metric' ∈ STANDARD_METRICS ->
  metric_key metric k = metric_key metric' k' -> metric = metric' /\ k = k'.
Proof.
  rewrite STANDARD_METRICS_eq, !elem_of_cons, !elem_of_nil. unfold metric_key.
  intros [->|[->|[->|[->|[->|[]]]]]] [->|[->|[->|[->|[->|[]]]]]] Heq;
    simpl in Heq; try discriminate;
    (split; [reflexivity|]); injection Heq as Heq; exact (inj pretty _ _ Heq).
Qed.

Section metric_table_facts.
Context (gold preds : list string).

Lemma set_metric_keys metric d k_values key :
  key ∈ dict_keys (foldl (set_metric gold preds metric) d k_values)
  <-> key ∈ dict_keys d \/ exists k, k ∈ k_values /\ key = metric_key metric k.
Proof.
  revert d. induction k_values as [|k ks IH]; intros d; simpl.
  - split; [left; assumption|]. intros [?|(k & Hk & _)]; [assumption|inversion Hk].
  - rewrite IH. unfold set_metric at 1. rewrite dict_keys_set, elem_of_key_insert.
    split.
    + intros [[?| ->]|(k' & Hk' & ->)].
      * left; assumption.
      * right. exists k. split; [left|reflexivity].
      * right. exists k'. split; [right; assumption|reflexivity].
    + intros [?|(k' & Hk' & ->)]; [left; left; assumption|].
      apply elem_of_cons in Hk' as [->|Hk'].
      * left; right; reflexivity.
      * right. exists k'. split; [assumption|reflexivity].
Qed.

Lemma metric_table_keys k_values metrics key :
  key ∈ dict_keys (metric_table gold preds k_values metrics)
  <-> exists metric k, metric ∈ metrics /\ k ∈ k_values /\ key = metric_key metric k.
Proof.
  unfold metric_table.
  assert (forall d,
            key ∈ dict_keys (foldl (fun d metric =>
                                      foldl (set_metric gold preds metric) d k_values) d metrics)
            <-> key ∈ dict_keys d
                \/ exists metric k, metric ∈ metrics /\ k ∈ k_values /\ key = metric_key metric k)
    as Hgen.
  { induction metrics as [|m ms IH]; intros d; simpl.
    - split; [left; assumption|]. intros [?|(m & _ & Hm & _)]; [assumption|inversion Hm].
    - rewrite IH, set_metric_keys. split.
      + intros [[?|(k & Hk & ->)]|(m' & k & Hm' & Hk & ->)].
        * left; assumption.
        * right. exists m, k. split; [left|]. split; [assumption|reflexivity].
        * right. exists m', k. split; [right; assumption|]. split; [assumption|reflexivity].
      + intros [?|(m' & k & Hm' & Hk & ->)]; [left; left; assumption|].
        apply elem_of_cons in Hm' as [->|Hm'].
        * left; right. exists k. split; [assumption|reflexivity].
        * right. exists m', k. split; [assumption|]. split; [assumption|reflexivity]. }
  rewrite Hgen. split; [intros [Hnil|?]; [inversion Hnil|assumption]|right; assumption].
Qed.

Lemma set_metric_NoDup metric d k_values :
  NoDup (dict_keys d) -> NoDup (dict_keys (foldl (set_metric gold preds metric) d k_values)).
Proof.
  revert d. induction k_values as [|k ks IH]; intros d Hd; simpl; [exact Hd|].
  apply IH. apply dict_set_NoDup, Hd.
Qed.

Lemma metric_table_NoDup k_values metrics :
  NoDup (dict_keys (metric_table gold preds k_values metrics)).
Proof.
  unfold metric_table.
  assert (forall d, NoDup (dict_keys d) ->
            NoDup (dict_keys (foldl (fun d metric =>
                                       foldl (set_metric gold preds metric) d k_values) d metrics)))
    as Hgen.
  { induction metrics as [|m ms IH]; intros d Hd; simpl; [exact Hd|].
    apply IH, set_metric_NoDup, Hd. }
  apply Hgen. constructor.
Qed.

Lemma set_metric_holds metric k metric' k' d :
  metric ∈ STANDARD_METRICS -> metric' ∈ STANDARD_METRICS ->
  holds gold preds metric k d \/ (metric' = metric /\ k' = k) ->
  holds gold preds metric k (set_metric gold preds metric' d k').
Proof.
  intros Hm Hm' H. unfold holds, set_metric.
  destruct (decide (metric_key metric' k' = metric_key metric k)) as [Heq|Hne].
  - destruct (metric_key_inj _ _ _ _ Hm' Hm Heq) as [-> ->].
    apply dict_get_set_eq.
  - rewrite dict_get_set_ne by exact Hne.
    destruct H as [H|[-> ->]]; [exact H|congruence].
Qed.

Lemma set_metrics_holds metric k metric' k_values d :
  metric ∈ STANDARD_METRICS -> metric' ∈ STANDARD_METRICS ->
  holds gold preds metric k d \/ (metric' = metric /\ k ∈ k_values) ->
  holds gold preds metric k (foldl (set_metric gold preds metric') d k_values).
Proof.
  intros Hm Hm'. revert d. induction k_values as [|k' ks IH]; intros d H; simpl.
  - destruct H as [H|[_ Hk]]; [exact H|inversion Hk].
  - apply IH. destruct H as [H|[-> Hk]].
    + left. apply set_metric_holds; [assumption..|left; exact H].
    + apply elem_of_cons in Hk as [->|Hk]; [left|right; split; [reflexivity|exact Hk]].
      apply set_metric_holds; [assumption..|right; split; reflexivity].
Qed.

Lemma metric_table_lookup k_values metrics metric k :
  (forall m, m ∈ metrics -> m ∈ STANDARD_METRICS) ->
  metric ∈ metrics -> k ∈ k_values ->
  dict_get (metric_table gold preds k_values metrics) (metric_key metric k)
  = Some (metric_value metric gold preds k).
Proof.
  intros Hreg Hm Hk. pose proof (Hreg _ Hm) as Hmreg. unfold metric_table.
  assert (forall ms d,
            (forall m, m ∈ ms -> m ∈ STANDARD_METRICS) ->
            holds gold preds metric k d \/ metric ∈ ms ->
            holds gold preds metric k (foldl (fun d metric =>
                                     foldl (set_metric gold preds metric) d k_values) d ms))
    as Hgen.
  { induction ms as [|m ms IH]; intros d Hr H; simpl.
    - destruct H as [H|H]; [exact H|inversion H].
    - apply IH; [intros; apply Hr; right; assumption|].
      assert (m ∈ STANDARD_METRICS) as Hmr by (apply Hr; left).
      destruct H as [H|H].
      + left. apply set_metrics_holds; [exact Hmreg|exact Hmr|left; exact H].
      + apply elem_of_cons in H as [->|H]; [left|right; exact H].
        apply set_metrics_holds; [exact Hmreg|exact Hmr|right; split; [reflexivity|exact Hk]]. }
  apply Hgen; [exact Hreg|right; exact Hm].
Qed.

End metric_table_facts.

(** ** Input validation in [compute_metrics] *)

Lemma foldl_max_spec ks k0 :
  foldl Z.max k0 ks ∈ k0 :: ks /\ forall k, k ∈ k0 :: ks -> k <= foldl Z.max k0 ks.
Proof.
  revert k0. induction ks as [|k1 ks IH]; intros k0; simpl.
  - split; [left|]. intros k Hk. apply list_elem_of_singleton in Hk as ->. lia.
  - destruct (IH (k0 `max` k1)) as [Hin Hle]. split.
    + apply elem_of_cons in Hin as [Heq|Hin]; [|right; right; exact Hin].
      rewrite Heq. destruct (Z.max_spec k0 k1) as [[_ ->]|[_ ->]]; [right; left|left].
    + intros k Hk.
      assert (k0 `max` k1 <= foldl Z.max (k0 `max` k1) ks) as Hm by (apply Hle; left).
      apply elem_of_cons in Hk as [->|Hk]; [lia|].
      apply elem_of_cons in Hk as [->|Hk]; [lia|].
      apply Hle. right. exact Hk.
Qed.

Lemma py_max_spec ks k_max :
  py_max ks = Ok k_max -> k_max ∈ ks /\ forall k, k ∈ ks -> k <= k_max.
Proof.
  destruct ks as [|k0 ks]; simpl; [discriminate|]. intros [= <-]. apply foldl_max_spec.
Qed.

Lemma existsb_unregistered metrics :
  existsb (fun metric => bool_decide (_STANDARD_METRIC_MAP !! metric = None)) metrics = true
  <-> exists metric, metric ∈ metrics /\ metric ∉ STANDARD_METRICS.
Proof.
  rewrite existsb_exists. split; intros (m & Hin & Hm); exists m.
  - apply list_elem_of_In in Hin. apply bool_decide_eq_true in Hm.
    split; [exact Hin|apply unregistered_iff, Hm].
  - split; [apply list_elem_of_In, Hin|]. apply bool_decide_eq_true, unregistered_iff, Hm.
Qed.

(** The paths through [compute_metrics], in the order of its checks. *)
Lemma compute_metrics_paths preds gold k_values metrics :
  let r := compute_metrics preds gold k_values metrics in
  (rejected preds gold k_values metrics /\ calls r = [] /\ is_ValueError (outcome r)
   /\ (~ NoDup preds ->
       r = raise (ValueError "Predictions should be unique. Duplicates detected.")))
  \/ (~ rejected preds gold k_values metrics /\ k_values = []
      /\ r = raise (ValueError "max() arg is an empty sequence"))
  \/ (~ rejected preds gold k_values metrics /\ k_values <> []
      /\ (forall k, k ∈ k_values -> k <= Z.of_nat (length preds))
      /\ (forall metric, metric ∈ metrics -> metric ∈ STANDARD_METRICS)
      /\ r = for_each (metric_rounds preds gold k_values) metrics []).
Proof.
  intros r. subst r. unfold compute_metrics, rejected.
  destruct (_has_duplicates preds) eqn:Hp.
  { apply _has_duplicates_true in Hp. left.
    split; [left; exact Hp|]. split; [reflexivity|]. split; [eexists; reflexivity|reflexivity]. }
  apply _has_duplicates_false in Hp.
  destruct (_has_duplicates gold) eqn:Hg.
  { apply _has_duplicates_true in Hg. left.
    split; [right; left; exact Hg|]. split; [reflexivity|].
    split; [eexists; reflexivity|contradiction]. }
  apply _has_duplicates_false in Hg.
  destruct (existsb _ metrics) eqn:Hm.
  { apply existsb_unregistered in Hm. left.
    split; [right; right; left; exact Hm|]. split; [reflexivity|].
    split; [eexists; reflexivity|contradiction]. }
  assert (forall metric, metric ∈ metrics -> metric ∈ STANDARD_METRICS) as Hreg.
  { intros m Hin. destruct (decide (m ∈ STANDARD_METRICS)) as [?|Hn]; [assumption|].
    assert (existsb (fun metric => bool_decide (_STANDARD_METRIC_MAP !! metric = None)) metrics
            = true) as Ht by (apply existsb_unregistered; exists m; split; assumption).
    congruence. }
  destruct (py_max k_values) as [k_max|e] eqn:Hmax.
  - unfold mbind, M_bind, lift. simpl.
    destruct (decide (Z.of_nat (length preds) < k_max)) as [Hlt|Hge].
    + left. split; [right; right; right; exists k_max; split; [reflexivity|exact Hlt]|].
      split; [reflexivity|]. split; [eexists; reflexivity|contradiction].
    + right. right. destruct (py_max_spec _ _ Hmax) as [Hin Hle].
      split; [|split; [|split; [|split; [exact Hreg|]]]].
      * intros [?|[?|[(m & Hin' & Hn)|(k' & [= <-] & ?)]]]; try contradiction.
        exact (Hn (Hreg m Hin')).
      * intros ->. inversion Hin.
      * intros k Hk. specialize (Hle k Hk). lia.
      * destruct (for_each (metric_rounds preds gold k_values) metrics []); reflexivity.
  - right. left. destruct k_values; [|discriminate]. simpl in Hmax. injection Hmax as <-.
    split; [|split; reflexivity].
    intros [?|[?|[(m & Hin' & Hn)|(k' & [=] & ?)]]]; try contradiction.
    exact (Hn (Hreg m Hin')).
Qed.

(** What [compute_metrics] calls, returns and raises. *)
Lemma compute_metrics_spec preds gold k_values metrics :
  Forall (fun c => call_gold c = gold /\ call_preds c = preds /\ call_metric c ∈ metrics
                   /\ call_k c ∈ k_values)
         (calls (compute_metrics preds gold k_values metrics))
  /\ match outcome (compute_metrics preds gold k_values metrics) with
     | Ok d =>
         d = metric_table gold preds k_values metrics
         /\ ~ rejected preds gold k_values metrics
         /\ k_values <> []
         /\ (forall k, k ∈ k_values -> k <= Z.of_nat (length preds))
         /\ (forall metric, metric ∈ metrics -> metric ∈ STANDARD_METRICS)
         /\ (forall metric k (fn : metric_fn), metric ∈ metrics -> k ∈ k_values ->
               _STANDARD_METRIC_MAP !! metric = Some fn ->
               fn gold preds k = Ok (metric_value metric gold preds k))
     | Raise e => e = ZeroDivisionError \/ exists msg, e = ValueError msg
     end.
Proof.
  destruct (compute_metrics_paths preds gold k_values metrics)
    as [(_ & Hc & (msg & Ho) & _)|[(_ & _ & Hr)|(Hnr & Hks & Hle & Hreg & Hr)]].
  - rewrite Hc, Ho. split; [constructor|]. right. exists msg. reflexivity.
  - rewrite Hr. simpl. split; [constructor|]. right. eexists. reflexivity.
  - rewrite Hr.
    destruct (metric_rounds_rule (fun e => e = ZeroDivisionError) preds gold k_values metrics)
      as [Hcalls Hout].
    + intros m Hm. apply registered_iff, Hreg, Hm.
    + intros m k fn _ _ Hfn. pose proof (metric_fn_outcome m fn gold preds k Hfn) as H.
      destruct (fn gold preds k); exact H.
    + split; [exact Hcalls|].
      destruct (outcome _) as [d|e]; [|left; exact Hout].
      destruct Hout as [-> Hvals]. repeat split; assumption.
Qed.

(** C3, as stated, fails in its last part: with predictions [X], an empty
    gold list, k_values [1] and the metric recall, none of the four
    conditions holds, yet the call does not return: recall divides by
    [len(gold) = 0].  Its equivalence also misses the empty [k_values],
    for which [max] raises a [ValueError] of its own. *)
Lemma compute_metrics_raises_unrejected :
  (~ rejected ["X"] [] [1] ["recall"]
   /\ compute_metrics ["X"] [] [1] ["recall"]
      = Run [Call "recall" [] ["X"] 1] (Raise ZeroDivisionError))
  /\ (~ rejected ["X"] ["X"] [] ["recall"]
      /\ compute_metrics ["X"] ["X"] [] ["recall"]
         = raise (ValueError "max() arg is an empty sequence")).
Proof.
  assert (NoDup ["X"]) as HX by (repeat constructor; set_solver).
  assert ("recall" ∈ STANDARD_METRICS) as Hr by (rewrite STANDARD_METRICS_eq; set_solver).
  split; (split; [|compute_done]).
  - intros [H|[H|[(m & Hm & Hn)|(k & [= <-] & Hk)]]].
    + exact (H HX).
    + apply H. constructor.
    + apply list_elem_of_singleton in Hm as ->. exact (Hn Hr).
    + simpl in Hk. lia.
  - intros [H|[H|[(m & Hm & Hn)|(k & [=] & Hk)]]].
    + exact (H HX).
    + exact (H HX).
    + apply list_elem_of_singleton in Hm as ->. exact (Hn Hr).
Qed.

(** C3, amended: [compute_metrics] raises a [ValueError] exactly when preds
    has duplicates, or gold has duplicates, or a requested metric is not
    registered, or the largest k exceeds [len(preds)], or [k_values] is
    empty; it does so before any metric function is called (so for preds
    with duplicates nothing is computed); otherwise it returns or raises
    [ZeroDivisionError], and it does return a value for every pair of
    metrics x k_values when gold is not empty and every k is at least 1. *)
Theorem compute_metrics_validation (preds gold : list string) (k_values : list Z)
    (metrics : list string) :
  (is_ValueError (outcome (compute_metrics preds gold k_values metrics))
   <-> rejected preds gold k_values metrics \/ k_values = [])
  /\ (is_ValueError (outcome (compute_metrics preds gold k_values metrics)) ->
      calls (compute_metrics preds gold k_values metrics) = [])
  /\ (~ NoDup preds ->
      compute_metrics preds gold k_values metrics
      = raise (ValueError "Predictions should be unique. Duplicates detected."))
  /\ (~ rejected preds gold k_values metrics -> k_values <> [] ->
      outcome (compute_metrics preds gold k_values metrics) = Raise ZeroDivisionError
      \/ outcome (compute_metrics preds gold k_values metrics)
         = Ok (metric_table gold preds k_values metrics))
  /\ (~ rejected preds gold k_values metrics -> k_values <> [] ->
      gold <> [] -> (forall k, k ∈ k_values -> 1 <= k) ->
      exists d,
        outcome (compute_metrics preds gold k_values metrics) = Ok d
        /\ forall metric k, metric ∈ metrics -> k ∈ k_values ->
             exists (fn : metric_fn) v,
               _STANDARD_METRIC_MAP !! metric = Some fn
               /\ fn gold preds k = Ok v
               /\ dict_get d (metric_key metric k) = Some v).
Proof.
  pose proof (compute_metrics_spec preds gold k_values metrics) as [_ Hspec].
  destruct (compute_metrics_paths preds gold k_values metrics)
    as [(Hrej & Hc & Hve & Hdup)|[(Hnr & Hks & Hr)|(Hnr & Hks & Hle & Hreg & Hr)]].
  - split; [split; [intros _; left; exact Hrej|intros _; exact Hve]|].
    split; [intros _; exact Hc|]. split; [exact Hdup|].
    split; intros; contradiction.
  - rewrite Hr. simpl.
    split; [split; [intros _; right; exact Hks|intros _; eexists; reflexivity]|].
    split; [reflexivity|]. split; [intros Hp; destruct Hnr; left; exact Hp|].
    split; intros; contradiction.
  - assert (~ is_ValueError (outcome (compute_metrics preds gold k_values metrics))) as Hnve.
    { rewrite Hr.
      destruct (metric_rounds_rule (fun e => e = ZeroDivisionError) preds gold k_values metrics)
        as [_ Hout].
      + intros m Hm. apply registered_iff, Hreg, Hm.
      + intros m k fn _ _ Hfn. pose proof (metric_fn_outcome m fn gold preds k Hfn) as H.
        destruct (fn gold preds k); exact H.
      + intros [msg Hmsg]. rewrite Hmsg in Hout. discriminate. }
    split; [split; [intros H; destruct (Hnve H)|intros [?|?]; contradiction]|].
    split; [intros H; destruct (Hnve H)|].
    split; [intros Hp; destruct Hnr; left; exact Hp|].
    split.
    + intros _ _. destruct (outcome _) as [d|e].
      * right. destruct Hspec as [-> _]. reflexivity.
      * left. destruct Hspec as [->|[msg ->]]; [reflexivity|].
        destruct Hnve. eexists. reflexivity.
    + intros _ _ Hgold Hk1. rewrite Hr.
      destruct (metric_rounds_rule (fun _ => False) preds gold k_values metrics)
        as [_ Hout].
      * intros m Hm. apply registered_iff, Hreg, Hm.
      * intros m k fn _ Hk Hfn.
        destruct (metric_fn_returns m fn gold preds k Hfn Hgold) as [v ->]; [|exact I].
        split; [apply Hk1, Hk|apply Hle, Hk].
      * destruct (outcome (for_each (metric_rounds preds gold k_values) metrics []))
          as [d|e]; [|destruct Hout].
        destruct Hout as [-> Hvals]. eexists. split; [reflexivity|].
        intros m k Hm Hk.
        destruct (proj2 (registered_iff m) (Hreg m Hm)) as [fn Hfn].
        exists fn, (metric_value m gold preds k).
        split; [exact Hfn|]. split; [exact (Hvals m k fn Hm Hk Hfn)|].
        apply metric_table_lookup; assumption.
Qed.

(** The end-to-end scenario: nothing is rejected, and every pair has a value. *)
Lemma compute_metrics_validation_witness :
  exists d,
    outcome (compute_metrics ["X"; "A"; "B"] ["X"; "Y"] [1; 2] STANDARD_METRICS) = Ok d
    /\ forall metric k, metric ∈ STANDARD_METRICS -> k ∈ [1; 2] ->
         exists (fn : metric_fn) v,
           _STANDARD_METRIC_MAP !! metric = Some fn
           /\ fn ["X"; "Y"] ["X"; "A"; "B"] k = Ok v
           /\ dict_get d (metric_key metric k) = Some v.
Proof.
  apply (proj2 (proj2 (proj2 (proj2
           (compute_metrics_validation ["X"; "A"; "B"] ["X"; "Y"] [1; 2] STANDARD_METRICS))))).
  - intros [H|[H|[(m & Hm & Hn)|(k & [= <-] & Hk)]]].
    + apply H. repeat constructor; set_solver.
    + apply H. repeat constructor; set_solver.
    + exact (Hn Hm).
    + simpl in Hk. lia.
  - discriminate.
  - discriminate.
  - intros k Hk. apply elem_of_cons in Hk as [->|Hk]; [lia|].
    apply list_elem_of_singleton in Hk as ->. lia.
Defined.

(** ** Laws of the call-logging monad *)

Lemma M_bind_ret_l {A B} (a : A) (f : A -> M B) : (mret a ≫= f) = f a.
Proof. unfold mbind, M_bind, mret, M_ret. simpl. destruct (f a); reflexivity. Qed.

Lemma M_bind_lift_Ok {A B} (a : A) (f : A -> M B) : (lift (Ok a) ≫= f) = f a.
Proof. apply M_bind_ret_l. Qed.

Lemma M_bind_ret_r {A} (m : M A) : (m ≫= mret) = m.
Proof.
  unfold mbind, M_bind, mret, M_ret. destruct m as [c [a|e]]; simpl; [|reflexivity].
  rewrite app_nil_r. reflexivity.
Qed.

Lemma M_bind_assoc {A B C} (m : M A) (f : A -> M B) (g : B -> M C) :
  ((m ≫= f) ≫= g) = (m ≫= fun a => f a ≫= g).
Proof.
  unfold mbind, M_bind. destruct m as [c [a|e]]; simpl; [|reflexivity].
  destruct (f a) as [c' [b|e]]; simpl; [|reflexivity].
  rewrite app_assoc. reflexivity.
Qed.

Lemma M_bind_ext {A B} (m : M A) (f g : A -> M B) :
  (forall a, f a = g a) -> (m ≫= f) = (m ≫= g).
Proof.
  intros H. unfold mbind, M_bind. destruct m as [c [a|e]]; simpl; [|reflexivity].
  rewrite H. reflexivity.
Qed.

Lemma for_each_skip {S X} (body : S -> X -> M S) (xs : list X) (s : S) :
  (forall x, x ∈ xs -> body s x = mret s) -> for_each body xs s = mret s.
Proof.
  induction xs as [|x xs IH]; intros H; simpl; [reflexivity|].
  rewrite H by left. rewrite M_bind_ret_l. apply IH. intros y Hy. apply H. right. exact Hy.
Qed.

(** ** The per-turn scorer *)

Lemma seen_at_cons batch rest t :
  seen_at (batch :: rest) (S t) = list_to_set batch ∪ seen_at rest t.
Proof. reflexivity. Qed.

Lemma seen_at_0 seed_tracks batch :
  seed_tracks !! 0%nat = Some batch -> seen_at seed_tracks 0 = ∅ ∪ list_to_set batch.
Proof.
  destruct seed_tracks as [|b rest]; [discriminate|]. intros [= ->].
  unfold seen_at. simpl. set_solver.
Qed.

Lemma seen_at_S seed_tracks t batch :
  seed_tracks !! S t = Some batch ->
  seen_at seed_tracks (S t) = seen_at seed_tracks t ∪ list_to_set batch.
Proof.
  intros Hb. unfold seen_at.
  rewrite (take_S_r seed_tracks (S t) batch Hb), fmap_app, union_list_app_L.
  simpl. set_solver.
Qed.

Lemma seen_at_mono seed_tracks t t' :
  (t <= t')%nat -> seen_at seed_tracks t ⊆ seen_at seed_tracks t'.
Proof.
  intros Hle x. unfold seen_at. rewrite !elem_of_union_list.
  intros (X & HX & Hx). exists X. split; [|exact Hx].
  apply list_elem_of_fmap in HX as (batch & -> & Hb). apply list_elem_of_fmap.
  exists batch. split; [reflexivity|].
  apply list_elem_of_lookup in Hb as [i Hi]. apply list_elem_of_lookup.
  exists i. apply lookup_take_Some in Hi as [Hi Hlt].
  apply lookup_take_Some. split; [exact Hi|lia].
Qed.

Lemma running_seen_closed prev seed_tracks :
  running_seen prev seed_tracks
  = (fun t => prev ∪ seen_at seed_tracks t) <$> seq 0 (length seed_tracks).
Proof.
  revert prev. induction seed_tracks as [|batch rest IH]; intros prev; [reflexivity|].
  cbn [running_seen length seq fmap list_fmap]. f_equal.
  - unfold seen_at. simpl. set_solver.
  - rewrite IH, <- fmap_S_seq, <- list_fmap_compose.
    apply list_fmap_ext. intros _ t _. simpl. rewrite seen_at_cons. set_solver.
Qed.

Lemma running_seen_empty seed_tracks : running_seen ∅ seed_tracks = seen_sets seed_tracks.
Proof.
  rewrite running_seen_closed. unfold seen_sets.
  apply list_fmap_ext. intros _ t _. set_solver.
Qed.

Lemma seen_sets_lookup seed_tracks t :
  (t < length seed_tracks)%nat -> seen_sets seed_tracks !! t = Some (seen_at seed_tracks t).
Proof.
  intros Ht. unfold seen_sets. rewrite list_lookup_fmap, lookup_seq_lt by exact Ht.
  reflexivity.
Qed.

(** One round of the code's loop is [score_turn] at the updated seen set. *)
Lemma per_turn_body_score gold k_values ret prev turn_preds batch :
  per_turn_body gold k_values (ret, prev) (turn_preds, batch)
  = (ret' ← score_turn gold k_values ret (turn_preds, prev ∪ list_to_set batch);
     mret (ret', prev ∪ list_to_set batch)).
Proof.
  unfold per_turn_body, score_turn, record_turn.
  destruct (decide (_filter_tracks gold _ = [])).
  - rewrite M_bind_ret_l. reflexivity.
  - rewrite M_bind_assoc. apply M_bind_ext. intros tm. rewrite M_bind_ret_l. reflexivity.
Qed.

Lemma per_turn_loop_score gold k_values preds seed_tracks ret prev :
  (st ← for_each (per_turn_body gold k_values) (zip preds seed_tracks) (ret, prev); mret st.1)
  = for_each (score_turn gold k_values) (zip preds (running_seen prev seed_tracks)) ret.
Proof.
  revert seed_tracks ret prev.
  induction preds as [|turn_preds preds IH]; intros [|batch rest] ret prev;
    cbn [zip_with running_seen for_each];
    try (rewrite M_bind_ret_l; reflexivity).
  rewrite per_turn_body_score, !M_bind_assoc. apply M_bind_ext. intros ret'.
  rewrite M_bind_ret_l. apply IH.
Qed.

(** The code's loop, with its running set, is the turn-by-turn scoring
    against the closed-form seen sets. *)
Lemma compute_metrics_per_turn_score preds gold seed_tracks k_values :
  compute_metrics_per_turn preds gold seed_tracks k_values
  = for_each (score_turn gold k_values) (zip preds (seen_sets seed_tracks)) [].
Proof.
  unfold compute_metrics_per_turn. rewrite per_turn_loop_score, running_seen_empty.
  reflexivity.
Qed.

Lemma _filter_tracks_spec tracks seed_tracks :
  _filter_tracks tracks seed_tracks `sublist_of` tracks
  /\ forall track, track ∈ _filter_tracks tracks seed_tracks
                   <-> track ∈ tracks /\ track ∉ seed_tracks.
Proof.
  unfold _filter_tracks. split; [apply sublist_filter|].
  intros track. rewrite list_elem_of_filter. tauto.
Qed.

(** C1: in [compute_metrics_per_turn] the seen set starts empty and grows,
    turn by turn, by that turn's seed batch (so it never shrinks); each
    turn is scored, through [compute_metrics], on its predictions without
    the seen items, order kept, and on gold without the seen items.  With
    gold [A, B, C], turn 0 predicting [A, B] with no seeds and turn 1
    predicting [A, C] with seed batch [A], turn 1 is scored on [C] against
    [B, C]. *)
Theorem per_turn_seed_exclusion :
  (forall preds gold seed_tracks k_values,
     compute_metrics_per_turn preds gold seed_tracks k_values
     = for_each (score_turn gold k_values) (zip preds (seen_sets seed_tracks)) [])
  /\ (forall seed_tracks t, (t < length seed_tracks)%nat ->
        seen_sets seed_tracks !! t = Some (seen_at seed_tracks t))
  /\ (forall seed_tracks batch, seed_tracks !! 0%nat = Some batch ->
        seen_at seed_tracks 0 = ∅ ∪ list_to_set batch)
  /\ (forall seed_tracks t batch, seed_tracks !! S t = Some batch ->
        seen_at seed_tracks (S t) = seen_at seed_tracks t ∪ list_to_set batch)
  /\ (forall seed_tracks t t', (t <= t')%nat ->
        seen_at seed_tracks t ⊆ seen_at seed_tracks t')
  /\ (forall tracks seen,
        _filter_tracks tracks seen `sublist_of` tracks
        /\ forall track, track ∈ _filter_tracks tracks seen <-> track ∈ tracks /\ track ∉ seen)
  /\ (_filter_tracks ["A"; "C"] (seen_at [[]; ["A"]] 1) = ["C"]
      /\ _filter_tracks ["A"; "B"; "C"] (seen_at [[]; ["A"]] 1) = ["B"; "C"]
      /\ calls (compute_metrics_per_turn [["A"; "B"]; ["A"; "C"]] ["A"; "B"; "C"]
                  [[]; ["A"]] [1])
         = ((fun metric => Call metric ["A"; "B"; "C"] ["A"; "B"] 1) <$> STANDARD_METRICS)
           ++ ((fun metric => Call metric ["B"; "C"] ["C"] 1) <$> STANDARD_METRICS)).
Proof.
  split; [exact compute_metrics_per_turn_score|].
  split; [exact seen_sets_lookup|].
  split; [exact seen_at_0|].
  split; [exact seen_at_S|].
  split; [exact seen_at_mono|].
  split; [exact _filter_tracks_spec|].
  repeat split; compute_done.
Qed.

(** ** recall@k and the empty gold list *)

Lemma get_recall_raises gold preds k :
  get_recall gold preds k = Raise ZeroDivisionError <-> gold = [].
Proof.
  unfold get_recall. rewrite truediv_Raise, Qc_of_nat_eq_0.
  destruct gold; simpl; split; intros; (done || lia).
Qed.

Lemma get_recall_returns gold preds k :
  gold <> [] ->
  get_recall gold preds k
  = Ok (Qc_of_nat (num_common gold (slice_to preds k)) / Qc_of_nat (length gold))%Qc.
Proof.
  intros Hg. unfold get_recall. apply truediv_Ok. rewrite Qc_of_nat_eq_0.
  destruct gold; [congruence|simpl; lia].
Qed.

Lemma calls_bind_mret {A B} (m : M A) (f : A -> B) :
  calls (a ← m; mret (f a)) = calls m.
Proof.
  unfold mbind, M_bind, mret, M_ret. destruct m as [c [a|e]]; simpl; [|reflexivity].
  apply app_nil_r.
Qed.

(** Every metric call of a turn passes that turn's filtered lists. *)
Lemma score_turn_calls gold k_values ret turn_preds seen :
  Forall (fun c => call_gold c = _filter_tracks gold seen
                   /\ call_preds c = _filter_tracks turn_preds seen
                   /\ call_gold c <> [])
         (calls (score_turn gold k_values ret (turn_preds, seen))).
Proof.
  unfold score_turn. destruct (decide (_filter_tracks gold seen = [])) as [|Hne].
  - constructor.
  - rewrite calls_bind_mret.
    eapply Forall_impl; [apply compute_metrics_spec|].
    intros c (Hg & Hp & _). rewrite Hg. repeat split; assumption.
Qed.

Lemma compute_metrics_per_turn_calls preds gold seed_tracks k_values :
  Forall (fun c => call_gold c <> [])
         (calls (compute_metrics_per_turn preds gold seed_tracks k_values)).
Proof.
  rewrite compute_metrics_per_turn_score.
  apply (for_each_rule (fun _ _ => True) (fun c => call_gold c <> []) (fun _ => True));
    [exact I|].
  intros pre [turn_preds seen] post ret _ _. split.
  - eapply Forall_impl; [apply score_turn_calls|]. intros c (_ & _ & H). exact H.
  - destruct (outcome _); exact I.
Qed.

(** C8: recall@k divides by [len(gold)] and raises [ZeroDivisionError]
    exactly when gold is empty; every call that [compute_metrics_per_turn]
    makes to a metric function passes a non-empty gold list, so none of
    them can take that branch of recall. *)
Theorem recall_division_unreachable :
  (forall gold preds k,
     (get_recall gold preds k = Raise ZeroDivisionError <-> gold = [])
     /\ (gold <> [] ->
         get_recall gold preds k
         = Ok (Qc_of_nat (num_common gold (slice_to preds k)) / Qc_of_nat (length gold))%Qc))
  /\ (forall preds gold seed_tracks k_values,
        Forall (fun c => call_gold c <> []
                         /\ get_recall (call_gold c) (call_preds c) (call_k c)
                            <> Raise ZeroDivisionError)
               (calls (compute_metrics_per_turn preds gold seed_tracks k_values))).
Proof.
  split.
  - intros gold preds k. split; [apply get_recall_raises|apply get_recall_returns].
  - intros preds gold seed_tracks k_values.
    eapply Forall_impl; [apply compute_metrics_per_turn_calls|].
    intros c Hc. split; [exact Hc|]. rewrite get_recall_raises. exact Hc.
Qed.

(** ** Skipped turns *)

Lemma score_turn_skip gold k_values ret turn_preds seen :
  _filter_tracks gold seen = [] ->
  score_turn gold k_values ret (turn_preds, seen) = mret ret.
Proof. intros H. unfold score_turn. rewrite decide_True by exact H. reflexivity. Qed.

Lemma per_turn_body_skip gold k_values ret prev turn_preds batch :
  _filter_tracks gold (prev ∪ list_to_set batch) = [] ->
  per_turn_body gold k_values (ret, prev) (turn_preds, batch)
  = mret (ret, prev ∪ list_to_set batch).
Proof. intros H. unfold per_turn_body. rewrite decide_True by exact H. reflexivity. Qed.

(** Once nothing of gold is left, nothing is left for any larger seen set. *)
Lemma _filter_tracks_empty_mono gold seen seen' :
  seen ⊆ seen' -> _filter_tracks gold seen = [] -> _filter_tracks gold seen' = [].
Proof.
  intros Hsub Hnil. destruct (_filter_tracks gold seen') as [|x l] eqn:Hf; [reflexivity|].
  assert (x ∈ _filter_tracks gold seen') as Hx by (rewrite Hf; left).
  apply _filter_tracks_spec in Hx as [Hg Hs].
  assert (x ∈ _filter_tracks gold seen) as Hx'.
  { apply _filter_tracks_spec. split; [exact Hg|]. intros Hin. apply Hs, Hsub, Hin. }
  rewrite Hnil in Hx'. inversion Hx'.
Qed.

(** From a turn with no gold left, the dialog is scored as if it ended there. *)
Lemma compute_metrics_per_turn_truncate preds gold seed_tracks k_values t :
  _filter_tracks gold (seen_at seed_tracks t) = [] ->
  compute_metrics_per_turn preds gold seed_tracks k_values
  = compute_metrics_per_turn (take t preds) gold seed_tracks k_values.
Proof.
  intros Hnil. rewrite !compute_metrics_per_turn_score.
  rewrite <- (take_drop t (zip preds (seen_sets seed_tracks))) at 1.
  rewrite for_each_app, zip_with_take, zip_with_drop.
  rewrite zip_with_take_r' by (rewrite length_take; lia).
  etransitivity; [|apply M_bind_ret_r].
  apply M_bind_ext. intros ret. apply for_each_skip.
  intros [turn_preds seen] Hin. apply score_turn_skip.
  apply elem_of_zip_r in Hin. apply list_elem_of_lookup in Hin as [i Hi].
  rewrite lookup_drop in Hi. unfold seen_sets in Hi.
  rewrite list_lookup_fmap in Hi. apply fmap_Some in Hi as (t' & Ht' & ->).
  apply lookup_seq in Ht' as [-> _].
  apply (_filter_tracks_empty_mono gold (seen_at seed_tracks t)); [|exact Hnil].
  apply seen_at_mono. lia.
Qed.

Lemma score_dialog_truncate gold seed_tracks k_values max_turns agg dialog_id preds
    dialog_gold dialog_seed_tracks t :
  gold !! dialog_id = Some dialog_gold ->
  seed_tracks !! dialog_id = Some dialog_seed_tracks ->
  _filter_tracks dialog_gold (seen_at dialog_seed_tracks t) = [] ->
  score_dialog gold seed_tracks k_values max_turns agg (dialog_id, preds)
  = score_dialog gold seed_tracks k_values max_turns agg (dialog_id, take t preds).
Proof.
  intros Hg Hs Hnil. unfold score_dialog, getitem. rewrite Hg, Hs.
  rewrite !M_bind_lift_Ok.
  rewrite (compute_metrics_per_turn_truncate preds _ _ _ t Hnil). reflexivity.
Qed.

(** C2: a turn whose filtered gold list is empty is skipped entirely: its
    round of the loop appends nothing and calls nothing, whatever it
    predicts; the dialog's per-turn lists are those of the dialog cut
    before that turn, and so is everything [score_dataset] reports
    (means and counts, macro, micro and per position). *)
Theorem skipped_turn_contributes_nothing (preds : list (list string)) (gold : list string)
    (seed_tracks : list (list string)) (k_values : list Z) (t : nat) :
  _filter_tracks gold (seen_at seed_tracks t) = [] ->
  (forall ret prev turn_preds batch,
     prev ∪ list_to_set batch = seen_at seed_tracks t ->
     per_turn_body gold k_values (ret, prev) (turn_preds, batch)
     = Run [] (Ok (ret, seen_at seed_tracks t)))
  /\ compute_metrics_per_turn preds gold seed_tracks k_values
     = compute_metrics_per_turn (take t preds) gold seed_tracks k_values
  /\ (forall other,
        compute_metrics_per_turn (<[t := other]> preds) gold seed_tracks k_values
        = compute_metrics_per_turn preds gold seed_tracks k_values)
  /\ (forall dialog_id before after all_gold all_seed_tracks max_turns,
        all_gold !! dialog_id = Some gold ->
        all_seed_tracks !! dialog_id = Some seed_tracks ->
        score_dataset (before ++ (dialog_id, preds) :: after)
                      all_gold all_seed_tracks k_values max_turns
        = score_dataset (before ++ (dialog_id, take t preds) :: after)
                        all_gold all_seed_tracks k_values max_turns).
Proof.
  intros Hnil. split; [|split; [|split]].
  - intros ret prev turn_preds batch Hseen.
    rewrite per_turn_body_skip by (rewrite Hseen; exact Hnil). rewrite Hseen. reflexivity.
  - apply compute_metrics_per_turn_truncate, Hnil.
  - intros other.
    rewrite (compute_metrics_per_turn_truncate (<[t := other]> preds) _ _ _ t Hnil).
    rewrite (compute_metrics_per_turn_truncate preds _ _ _ t Hnil).
    rewrite take_insert_ge by lia. reflexivity.
  - intros dialog_id before after all_gold all_seed_tracks max_turns Hg Hs.
    unfold score_dataset, aggregate_dataset. rewrite !for_each_app, !M_bind_assoc.
    apply M_bind_ext. intros agg. cbn [for_each].
    rewrite (score_dialog_truncate _ _ _ _ _ _ _ _ _ t Hg Hs Hnil). reflexivity.
Qed.

(** A dialog whose only gold item is seeded away at turn 1. *)
Lemma skipped_turn_contributes_nothing_witness :
  _filter_tracks ["A"] (seen_at [[]; ["A"]] 1) = []
  /\ compute_metrics_per_turn [["A"]; ["B"]] ["A"] [[]; ["A"]] [1]
     = compute_metrics_per_turn (take 1 [["A"]; ["B"]]) ["A"] [[]; ["A"]] [1].
Proof.
  assert (_filter_tracks ["A"] (seen_at [[]; ["A"]] 1) = []) as H by compute_done.
  split; [exact H|].
  exact (proj1 (proj2 (skipped_turn_contributes_nothing
                         [["A"]; ["B"]] ["A"] [[]; ["A"]] [1] 1%nat H))).
Defined.

(** ** The shape of the per-turn result *)

Lemma set_metric_keys_fold gold preds metric d k_values :
  dict_keys (foldl (set_metric gold preds metric) d k_values)
  = foldl (fun keys k => key_insert keys (metric_key metric k)) (dict_keys d) k_values.
Proof.
  revert d. induction k_values as [|k ks IH]; intros d; simpl; [reflexivity|].
  rewrite IH. unfold set_metric at 1. rewrite dict_keys_set. reflexivity.
Qed.

Lemma metric_table_keys_fold gold preds k_values metrics :
  dict_keys (metric_table gold preds k_values metrics)
  = foldl (fun keys metric =>
             foldl (fun keys k => key_insert keys (metric_key metric k)) keys k_values)
          [] metrics.
Proof.
  unfold metric_table.
  assert (forall d,
            dict_keys (foldl (fun d metric => foldl (set_metric gold preds metric) d k_values)
                             d metrics)
            = foldl (fun keys metric =>
                       foldl (fun keys k => key_insert keys (metric_key metric k)) keys k_values)
                    (dict_keys d) metrics) as Hgen.
  { induction metrics as [|m ms IH]; intros d; simpl; [reflexivity|].
    rewrite IH, set_metric_keys_fold. reflexivity. }
  apply Hgen.
Qed.

Lemma metric_table_standard_keys gold preds k_values :
  dict_keys (metric_table gold preds k_values STANDARD_METRICS) = standard_keys k_values.
Proof. unfold standard_keys. rewrite !metric_table_keys_fold. reflexivity. Qed.

Lemma standard_keys_NoDup k_values : NoDup (standard_keys k_values).
Proof. apply metric_table_NoDup. Qed.

Lemma elem_of_standard_keys k_values key :
  key ∈ standard_keys k_values
  <-> exists metric k, metric ∈ STANDARD_METRICS /\ k ∈ k_values /\ key = metric_key metric k.
Proof. apply metric_table_keys. Qed.

Lemma foldl_key_insert_fresh acc keys :
  NoDup (acc ++ keys) -> foldl key_insert acc keys = acc ++ keys.
Proof.
  revert acc. induction keys as [|key keys IH]; intros acc Hnd; simpl.
  - rewrite app_nil_r. reflexivity.
  - assert (key ∉ acc) as Hk.
    { apply NoDup_app in Hnd as (_ & Hdis & _). intros Hin. apply (Hdis key Hin). left. }
    unfold key_insert at 2. rewrite decide_False by exact Hk.
    rewrite IH; rewrite <- app_assoc; [reflexivity|exact Hnd].
Qed.

Lemma foldl_key_insert_nil keys : NoDup keys -> foldl key_insert [] keys = keys.
Proof. intros Hnd. exact (foldl_key_insert_fresh [] keys Hnd). Qed.

Lemma foldl_key_insert_known acc keys :
  (forall key, key ∈ keys -> key ∈ acc) -> foldl key_insert acc keys = acc.
Proof.
  induction keys as [|key keys IH]; intros Hin; simpl; [reflexivity|].
  unfold key_insert at 2. rewrite decide_True by (apply Hin; left).
  apply IH. intros k Hk. apply Hin. right. exact Hk.
Qed.

Lemma record_turn_keys ret turn_metrics :
  dict_keys (record_turn ret turn_metrics)
  = foldl key_insert (dict_keys ret) (dict_keys turn_metrics).
Proof.
  unfold record_turn. revert ret.
  induction turn_metrics as [|[name v] tm IH]; intros ret; [reflexivity|].
  cbn [foldl]. rewrite IH. unfold dict_append. rewrite dict_keys_set. reflexivity.
Qed.

Lemma record_turn_get ret turn_metrics key :
  NoDup (dict_keys turn_metrics) ->
  dict_get (record_turn ret turn_metrics) key
  = match dict_get turn_metrics key with
    | Some v => Some (default [] (dict_get ret key) ++ [v])
    | None => dict_get ret key
    end.
Proof.
  unfold record_turn. revert ret.
  induction turn_metrics as [|[name v] tm IH]; intros ret Hnd; [reflexivity|].
  unfold dict_keys in Hnd. rewrite fmap_cons in Hnd. apply NoDup_cons in Hnd as [Hname Hnd].
  cbn [fst] in Hname. cbn [foldl dict_get]. rewrite (IH _ Hnd). unfold dict_append.
  destruct (decide (name = key)) as [->|Hne].
  - apply dict_get_None in Hname. rewrite Hname. apply dict_get_set_eq.
  - rewrite dict_get_set_ne by exact Hne. reflexivity.
Qed.

Lemma scored_turns_snoc gold turns turn_preds seen :
  scored_turns gold (turns ++ [(turn_preds, seen)])
  = scored_turns gold turns
    ++ (if decide (_filter_tracks gold seen = []) then [] else [(turn_preds, seen)]).
Proof.
  unfold scored_turns. rewrite filter_app, filter_cons, filter_nil. cbn [snd].
  destruct (decide (_filter_tracks gold seen = [])) as [Hnil|Hne].
  - rewrite decide_False by (intros H; exact (H Hnil)). reflexivity.
  - rewrite decide_True by exact Hne. reflexivity.
Qed.

Lemma score_turn_shape gold k_values turns ret turn :
  per_turn_shape gold k_values turns ret ->
  match outcome (score_turn gold k_values ret turn) with
  | Ok ret' => per_turn_shape gold k_values (turns ++ [turn]) ret'
  | Raise _ => True
  end.
Proof.
  intros (Hlen & Hnone & Hsome). destruct turn as [turn_preds seen].
  unfold score_turn, per_turn_shape. rewrite scored_turns_snoc.
  destruct (decide (_filter_tracks gold seen = [])) as [Hnil|Hne].
  - rewrite app_nil_r. cbn [outcome mret M_ret]. repeat split; assumption.
  - pose proof (compute_metrics_spec (_filter_tracks turn_preds seen) (_filter_tracks gold seen)
                  k_values STANDARD_METRICS) as [_ Hcm].
    unfold mbind, M_bind.
    destruct (outcome (compute_metrics (_filter_tracks turn_preds seen)
                         (_filter_tracks gold seen) k_values STANDARD_METRICS))
      as [tm|e]; [|exact I].
    destruct Hcm as (-> & _). cbn [outcome mret M_ret].
    set (table := metric_table (_filter_tracks gold seen) (_filter_tracks turn_preds seen)
                    k_values STANDARD_METRICS).
    pose proof (metric_table_standard_keys (_filter_tracks gold seen)
                  (_filter_tracks turn_preds seen) k_values) as Hkeys.
    fold table in Hkeys.
    pose proof (standard_keys_NoDup k_values) as Hnd.
    assert (dict_keys (record_turn ret table) = standard_keys k_values) as Hkeys'.
    { rewrite record_turn_keys, Hkeys.
      destruct (scored_turns gold turns) as [|x l] eqn:Hs.
      - rewrite (Hnone eq_refl). apply foldl_key_insert_nil, Hnd.
      - rewrite Hsome by discriminate. apply foldl_key_insert_known. intros key H; exact H. }
    split; [|split; [intros H; apply app_eq_nil in H as [_ H]; discriminate|intros _; exact Hkeys']].
    intros key vals. rewrite record_turn_get by (rewrite Hkeys; exact Hnd).
    rewrite length_app. cbn [length].
    destruct (dict_get table key) as [v|] eqn:Hv.
    + intros [= <-]. rewrite length_app. cbn [length]. f_equal.
      destruct (dict_get ret key) as [vals|] eqn:Hr; cbn [default length];
        [apply (Hlen _ _ Hr)|].
      destruct (scored_turns gold turns) as [|x l] eqn:Hs; [reflexivity|].
      apply dict_get_None in Hr. rewrite Hsome in Hr by discriminate.
      destruct Hr. rewrite <- Hkeys. apply dict_get_is_Some. eexists. exact Hv.
    + intros Hr. exfalso.
      apply dict_get_None in Hv. rewrite Hkeys in Hv.
      destruct (scored_turns gold turns) as [|x l] eqn:Hs.
      * rewrite (Hnone eq_refl) in Hr. discriminate.
      * apply Hv. rewrite <- Hsome by discriminate. apply dict_get_is_Some. eexists. exact Hr.
Qed.

Lemma compute_metrics_per_turn_shape preds gold seed_tracks k_values :
  match outcome (compute_metrics_per_turn preds gold seed_tracks k_values) with
  | Ok ret => per_turn_shape gold k_values (zip preds (seen_sets seed_tracks)) ret
  | Raise _ => True
  end.
Proof.
  rewrite compute_metrics_per_turn_score.
  apply (for_each_rule (per_turn_shape gold k_values) (fun _ => True) (fun _ => True)).
  - repeat split; [discriminate|contradiction].
  - intros pre turn post ret _ Hinv. split; [apply Forall_forall; done|].
    pose proof (score_turn_shape gold k_values pre ret turn Hinv) as H.
    destruct (outcome _); [exact H|exact I].
Qed.

(** C10: when [compute_metrics_per_turn] returns, every list of the
    result has one entry per turn that was not skipped; the result is empty
    when every turn was skipped, and otherwise its keys are exactly the
    keys ["<metric>@<k>"] for the five registered metrics and the requested
    cutoffs. *)
Theorem per_turn_result_shape (preds : list (list string)) (gold : list string)
    (seed_tracks : list (list string)) (k_values : list Z) (ret : dict (list Qc)) :
  outcome (compute_metrics_per_turn preds gold seed_tracks k_values) = Ok ret ->
  (forall key vals,
     dict_get ret key = Some vals ->
     length vals = length (scored_turns gold (zip preds (seen_sets seed_tracks))))
  /\ (scored_turns gold (zip preds (seen_sets seed_tracks)) = [] -> ret = [])
  /\ (scored_turns gold (zip preds (seen_sets seed_tracks)) <> [] ->
      NoDup (dict_keys ret)
      /\ forall key,
           key ∈ dict_keys ret
           <-> exists metric k,
                 metric ∈ STANDARD_METRICS /\ k ∈ k_values /\ key = metric_key metric k).
Proof.
  intros Hret.
  pose proof (compute_metrics_per_turn_shape preds gold seed_tracks k_values) as Hshape.
  rewrite Hret in Hshape. destruct Hshape as (Hlen & Hnone & Hsome).
  split; [exact Hlen|]. split; [exact Hnone|].
  intros Hne. rewrite (Hsome Hne). split; [apply standard_keys_NoDup|].
  intros key. apply elem_of_standard_keys.
Qed.

(** The two-turn dialog of the seed-exclusion scenario: both turns are scored. *)
Lemma per_turn_result_shape_witness :
  exists ret,
    outcome (compute_metrics_per_turn [["A"; "B"]; ["A"; "C"]] ["A"; "B"; "C"]
               [[]; ["A"]] [1]) = Ok ret
    /\ forall key vals, dict_get ret key = Some vals -> length vals = 2%nat.
Proof.
  destruct (outcome (compute_metrics_per_turn [["A"; "B"]; ["A"; "C"]] ["A"; "B"; "C"]
                       [[]; ["A"]] [1])) as [ret|e] eqn:Hret.
  - exists ret. split; [reflexivity|].
    intros key vals Hget.
    rewrite (proj1 (per_turn_result_shape _ _ _ _ ret Hret) key vals Hget).
    vm_compute. reflexivity.
  - vm_compute in Hret. discriminate Hret.
Defined.

(** ** The per-metric summary *)

Lemma for_each_res_app {S X} (body : S -> X -> res S) (xs ys : list X) (s : S) :
  for_each_res body (xs ++ ys) s = s' ← for_each_res body xs s; for_each_res body ys s'.
Proof.
  revert s. induction xs as [|x xs IH]; intros s; simpl; [reflexivity|].
  destruct (body s x) as [s'|e]; simpl; [apply IH|reflexivity].
Qed.

Lemma foldl_mean_rule_count self vs :
  _AveragedValue.count (foldl mean_rule self vs)
  = (_AveragedValue.count self + Qc_of_nat (length vs))%Qc.
Proof.
  revert self. induction vs as [|v vs IH]; intros self; simpl.
  - rewrite Qc_of_nat_0, Qcplus_0_r. reflexivity.
  - rewrite IH, Qc_of_nat_S. simpl. ring.
Qed.

Lemma foldl_mean_rule_nonneg self vs :
  (0 <= _AveragedValue.count self)%Qc ->
  (0 <= _AveragedValue.count (foldl mean_rule self vs))%Qc.
Proof.
  intros H. rewrite foldl_mean_rule_count.
  rewrite <- (Qcplus_0_r 0%Qc). apply Qcplus_le_compat; [exact H|apply Qc_of_nat_nonneg].
Qed.

Section summary.
Import _PerTurnMetricSummary.

(** The state of the loop over [enumerate(values)] after the rounds [vs]. *)
Lemma update_turns_rule self vs :
  counts_nonneg self ->
  for_each_res update_turn (imap pair vs) self
  = Ok {| micro_average := foldl mean_rule (micro_average self) vs;
          macro_average := macro_average self;
          per_turn_average := imap (bucket_rule vs) (per_turn_average self) |}.
Proof.
  intros (Hmicro & Hmacro & Hturns).
  induction vs as [|v vs IH] using rev_ind.
  - simpl. destruct self as [mi ma pt]. simpl. do 2 f_equal.
    apply list_eq. intros i. rewrite list_lookup_imap.
    destruct (pt !! i); reflexivity.
  - rewrite imap_app, for_each_res_app, IH. cbn [mbind res_bind imap for_each_res].
    unfold update_turn. cbn [micro_average macro_average per_turn_average].
    rewrite length_imap, Nat.add_0_r.
    destruct (update_nonneg (foldl mean_rule (micro_average self) vs) v
                (foldl_mean_rule_nonneg _ vs Hmicro)) as [Hupd _].
    assert (forall i a, i <> length vs -> bucket_rule (vs ++ [v]) i a = bucket_rule vs i a)
      as Hother.
    { intros i a Hi. unfold bucket_rule.
      destruct (decide (i < length vs)%nat) as [Hlt|Hge].
      - rewrite lookup_app_l by exact Hlt. reflexivity.
      - rewrite !lookup_ge_None_2; [reflexivity|lia|rewrite length_app; simpl; lia]. }
    destruct (decide (length vs < length (per_turn_average self))%nat) as [Hlt|Hge].
    + destruct (lookup_lt_is_Some_2 _ _ Hlt) as [a Ha].
      rewrite list_lookup_imap, Ha. cbn [fmap option_fmap option_map].
      assert (bucket_rule vs (length vs) a = a) as ->.
      { unfold bucket_rule. rewrite lookup_ge_None_2 by lia. reflexivity. }
      assert (0 <= _AveragedValue.count a)%Qc as Hna.
      { rewrite Forall_forall in Hturns. apply Hturns.
        apply list_elem_of_lookup. exists (length vs). exact Ha. }
      destruct (update_nonneg a v Hna) as [-> _]. cbn [mbind res_bind mret res_ret].
      rewrite Hupd. cbn [mbind res_bind mret res_ret]. rewrite foldl_app. do 2 f_equal.
      apply list_eq. intros i. destruct (decide (i = length vs)) as [->|Hi].
      * rewrite list_lookup_insert_eq by (rewrite length_imap; exact Hlt).
        rewrite list_lookup_imap, Ha. cbn [fmap option_fmap option_map]. f_equal.
        unfold bucket_rule. rewrite list_lookup_middle by reflexivity. reflexivity.
      * rewrite list_lookup_insert_ne by congruence. rewrite !list_lookup_imap.
        destruct (per_turn_average self !! i) as [b|]; [|reflexivity].
        cbn [fmap option_fmap option_map]. rewrite Hother by exact Hi. reflexivity.
    + cbn [mbind res_bind mret res_ret].
      rewrite Hupd. cbn [mbind res_bind mret res_ret]. rewrite foldl_app. do 2 f_equal.
      apply imap_ext. intros i b Hb. symmetry. apply Hother.
      apply lookup_lt_Some in Hb. lia.
Qed.

Lemma bucket_rule_nonneg values i turn_avg :
  (0 <= _AveragedValue.count turn_avg)%Qc ->
  (0 <= _AveragedValue.count (bucket_rule values i turn_avg))%Qc.
Proof.
  intros H. unfold bucket_rule. destruct (values !! i) as [v|]; [|exact H].
  apply (foldl_mean_rule_nonneg turn_avg [v] H).
Qed.

Lemma summary_rule_nonneg self values :
  counts_nonneg self -> counts_nonneg (summary_rule self values).
Proof.
  intros (Hmicro & Hmacro & Hturns). unfold counts_nonneg, summary_rule.
  cbn [micro_average macro_average per_turn_average].
  split; [apply foldl_mean_rule_nonneg, Hmicro|].
  split; [apply (foldl_mean_rule_nonneg _ [mean values] Hmacro)|].
  apply Forall_lookup. intros i a. rewrite list_lookup_imap.
  destruct (per_turn_average self !! i) as [b|] eqn:Hb; [|discriminate].
  intros [= <-]. apply bucket_rule_nonneg.
  rewrite Forall_lookup in Hturns. exact (Hturns i b Hb).
Qed.

(** [update(values)] on a non-empty list never raises. *)
Lemma summary_update_rule self values :
  counts_nonneg self -> values <> [] ->
  update self values = Ok (summary_rule self values).
Proof.
  intros Hnn Hne. pose proof Hnn as (Hmicro & Hmacro & Hturns). unfold update.
  rewrite truediv_Ok
    by (rewrite Qc_of_nat_eq_0; destruct values; [congruence|simpl; lia]).
  cbn [mbind res_bind].
  destruct (update_nonneg (macro_average self) (sum values / Qc_of_nat (length values))%Qc Hmacro)
    as [-> Hmacro'].
  cbn [mbind res_bind]. rewrite update_turns_rule; [reflexivity|].
  repeat split; assumption.
Qed.

Lemma summary_updates_rule self vss :
  counts_nonneg self -> Forall (fun values => values <> []) vss ->
  for_each_res update vss self = Ok (foldl summary_rule self vss).
Proof.
  revert self. induction vss as [|values vss IH]; intros self Hnn Hne; [reflexivity|].
  apply Forall_cons in Hne as [Hne Hrest]. cbn [for_each_res foldl].
  rewrite (summary_update_rule self values Hnn Hne). cbn [mbind res_bind].
  apply IH; [apply summary_rule_nonneg, Hnn|exact Hrest].
Qed.

Lemma foldl_summary_rule_micro self vss :
  micro_average (foldl summary_rule self vss)
  = foldl mean_rule (micro_average self) (concat vss).
Proof.
  revert self. induction vss as [|values vss IH]; intros self; [reflexivity|].
  cbn [foldl concat]. rewrite IH, foldl_app. reflexivity.
Qed.

Lemma foldl_summary_rule_macro self vss :
  macro_average (foldl summary_rule self vss)
  = foldl mean_rule (macro_average self) (mean <$> vss).
Proof.
  revert self. induction vss as [|values vss IH]; intros self; [reflexivity|].
  cbn [foldl fmap list_fmap]. rewrite IH. reflexivity.
Qed.

Lemma foldl_summary_rule_bucket self vss i :
  per_turn_average (foldl summary_rule self vss) !! i
  = (fun turn_avg => foldl mean_rule turn_avg (omap (fun values => values !! i) vss))
    <$> per_turn_average self !! i.
Proof.
  revert self. induction vss as [|values vss IH]; intros self.
  - cbn [foldl omap list_omap]. destruct (per_turn_average self !! i); reflexivity.
  - cbn [foldl omap list_omap]. rewrite IH. cbn [summary_rule per_turn_average].
    rewrite list_lookup_imap. destruct (per_turn_average self !! i) as [a|]; [|reflexivity].
    cbn [fmap option_fmap option_map]. f_equal. unfold bucket_rule.
    destruct (values !! i); reflexivity.
Qed.

Lemma foldl_summary_rule_length self vss :
  length (per_turn_average (foldl summary_rule self vss)) = length (per_turn_average self).
Proof.
  revert self. induction vss as [|values vss IH]; intros self; [reflexivity|].
  cbn [foldl]. rewrite IH. cbn [summary_rule per_turn_average]. apply length_imap.
Qed.

Lemma __init___nonneg max_turns : counts_nonneg (__init__ max_turns).
Proof.
  unfold counts_nonneg, __init__. cbn [micro_average macro_average per_turn_average].
  split; [discriminate|]. split; [discriminate|].
  apply Forall_replicate. discriminate.
Qed.

End summary.

(** ** Aggregation over the dataset *)

Lemma foldl_summary_rule_nonneg self vss :
  counts_nonneg self -> counts_nonneg (foldl summary_rule self vss).
Proof.
  revert self. induction vss as [|values vss IH]; intros self H; [exact H|].
  cbn [foldl]. apply IH, summary_rule_nonneg, H.
Qed.

Lemma aggregate_metric_rule max_turns agg metric_name vals :
  counts_nonneg (default (_PerTurnMetricSummary.__init__ max_turns)
                         (dict_get agg metric_name)) ->
  vals <> [] ->
  aggregate_metric max_turns agg (metric_name, vals)
  = mret (dict_set agg metric_name
            (summary_rule (default (_PerTurnMetricSummary.__init__ max_turns)
                                   (dict_get agg metric_name)) vals)).
Proof.
  intros Hsumm Hvals. unfold aggregate_metric.
  rewrite (summary_update_rule _ vals Hsumm Hvals), M_bind_lift_Ok. reflexivity.
Qed.

(** The loop over one dialog's metrics. *)
Lemma aggregate_metrics_rule max_turns dm agg :
  NoDup (dict_keys dm) ->
  (forall name vals, dict_get dm name = Some vals -> vals <> []) ->
  NoDup (dict_keys agg) ->
  (forall name summ, dict_get agg name = Some summ -> counts_nonneg summ) ->
  exists agg',
    for_each (aggregate_metric max_turns) dm agg = Run [] (Ok agg')
    /\ NoDup (dict_keys agg')
    /\ forall name,
         dict_get agg' name
         = match dict_get dm name with
           | Some vals =>
               Some (summary_rule (default (_PerTurnMetricSummary.__init__ max_turns)
                                           (dict_get agg name)) vals)
           | None => dict_get agg name
           end.
Proof.
  revert agg. induction dm as [|[metric_name vals] dm IH]; intros agg Hnd Hne Hagg Hnn.
  - exists agg. split; [reflexivity|]. split; [exact Hagg|]. intros name. reflexivity.
  - unfold dict_keys in Hnd. rewrite fmap_cons in Hnd. apply NoDup_cons in Hnd as [Hfresh Hnd].
    cbn [fst] in Hfresh. apply dict_get_None in Hfresh.
    set (summ := default (_PerTurnMetricSummary.__init__ max_turns) (dict_get agg metric_name)).
    assert (counts_nonneg summ) as Hsumm.
    { unfold summ. destruct (dict_get agg metric_name) as [s0|] eqn:Hs0; cbn [default].
      - exact (Hnn _ _ Hs0).
      - apply __init___nonneg. }
    assert (vals <> []) as Hvals.
    { apply (Hne metric_name). cbn [dict_get]. rewrite decide_True; reflexivity. }
    destruct (IH (dict_set agg metric_name (summary_rule summ vals))) as (agg' & Hrun & Hnd' & Hget).
    + exact Hnd.
    + intros name vs Hvs. apply (Hne name). cbn [dict_get].
      destruct (decide (metric_name = name)) as [->|]; [congruence|exact Hvs].
    + apply dict_set_NoDup, Hagg.
    + intros name s0. destruct (decide (metric_name = name)) as [->|Hn].
      * rewrite dict_get_set_eq. intros [= <-]. apply summary_rule_nonneg, Hsumm.
      * rewrite dict_get_set_ne by exact Hn. apply Hnn.
    + exists agg'. split; [|split; [exact Hnd'|]].
      * cbn [for_each].
        rewrite (aggregate_metric_rule max_turns agg metric_name vals Hsumm Hvals).
        rewrite M_bind_ret_l. exact Hrun.
      * intros name. rewrite Hget. cbn [dict_get].
        destruct (decide (metric_name = name)) as [->|Hn].
        -- rewrite Hfresh, dict_get_set_eq. reflexivity.
        -- rewrite dict_get_set_ne by exact Hn. reflexivity.
Qed.

(** What a dialog's result looks like to the aggregator. *)
Lemma per_turn_result_wf preds gold seed_tracks k_values dm :
  outcome (compute_metrics_per_turn preds gold seed_tracks k_values) = Ok dm ->
  NoDup (dict_keys dm)
  /\ (forall name vals, dict_get dm name = Some vals -> vals <> [])
  /\ (forall name, name ∈ dict_keys dm -> name ∈ standard_keys k_values).
Proof.
  intros Hdm.
  pose proof (compute_metrics_per_turn_shape preds gold seed_tracks k_values) as Hshape.
  rewrite Hdm in Hshape. destruct Hshape as (Hlen & Hnone & Hsome).
  destruct (scored_turns gold (zip preds (seen_sets seed_tracks))) as [|x l] eqn:Hs.
  - rewrite (Hnone eq_refl). split; [constructor|].
    split; [discriminate|]. intros name H. inversion H.
  - split; [rewrite Hsome by discriminate; apply standard_keys_NoDup|].
    split; [|intros name; rewrite Hsome by discriminate; trivial].
    intros name vals Hget Hnil. apply Hlen in Hget. rewrite Hnil in Hget. discriminate.
Qed.

Lemma aggregated_nonneg max_turns dms agg name summ :
  aggregated max_turns dms agg -> dict_get agg name = Some summ -> counts_nonneg summ.
Proof.
  intros [_ Hagg] Hget. rewrite Hagg in Hget.
  destruct (metric_lists name dms) as [|vs vss]; [discriminate|]. injection Hget as <-.
  apply (foldl_summary_rule_nonneg _ (vs :: vss)), __init___nonneg.
Qed.

Lemma aggregated_snoc max_turns dms agg dm agg' :
  aggregated max_turns dms agg ->
  NoDup (dict_keys agg') ->
  (forall name,
     dict_get agg' name
     = match dict_get dm name with
       | Some vals =>
           Some (summary_rule (default (_PerTurnMetricSummary.__init__ max_turns)
                                       (dict_get agg name)) vals)
       | None => dict_get agg name
       end) ->
  aggregated max_turns (dms ++ [dm]) agg'.
Proof.
  intros [_ Hagg] Hnd Hget. split; [exact Hnd|].
  intros name. rewrite Hget, Hagg. unfold metric_lists. rewrite omap_app.
  cbn [omap list_omap]. destruct (dict_get dm name) as [vals|].
  - destruct (omap (fun dm0 => dict_get dm0 name) dms) as [|vs vss]; cbn [default app].
    + reflexivity.
    + rewrite (app_comm_cons vss [vals] vs), foldl_app. reflexivity.
  - rewrite app_nil_r. reflexivity.
Qed.

(** The first loop of [score_dataset]: only [compute_metrics_per_turn] can
    raise or call, and what is aggregated is what it returned. *)
Lemma aggregate_dataset_rule preds gold seed_tracks k_values max_turns :
  match outcome (aggregate_dataset preds gold seed_tracks k_values max_turns) with
  | Ok agg =>
      exists dms,
        Forall2 (dialog_result gold seed_tracks k_values) preds dms
        /\ aggregated max_turns dms agg
        /\ forall name, name ∈ dict_keys agg -> name ∈ standard_keys k_values
  | Raise _ => True
  end.
Proof.
  unfold aggregate_dataset.
  apply (for_each_rule
           (fun pre agg =>
              exists dms,
                Forall2 (dialog_result gold seed_tracks k_values) pre dms
                /\ aggregated max_turns dms agg
                /\ forall name, name ∈ dict_keys agg -> name ∈ standard_keys k_values)
           (fun _ => True) (fun _ => True)).
  - exists []. split; [constructor|]. split; [split; [constructor|reflexivity]|].
    intros name H. inversion H.
  - intros pre [dialog_id dialog_preds] post agg _ (dms & Hdms & Hagg & Hkeys).
    split; [apply Forall_forall; done|].
    unfold score_dialog, getitem.
    destruct (gold !! dialog_id) as [dialog_gold|] eqn:Hg; [|exact I].
    rewrite M_bind_lift_Ok.
    destruct (seed_tracks !! dialog_id) as [dialog_seed_tracks|] eqn:Hs; [|exact I].
    rewrite M_bind_lift_Ok. unfold mbind, M_bind.
    destruct (compute_metrics_per_turn dialog_preds dialog_gold dialog_seed_tracks k_values)
      as [c [dm|e]] eqn:Hcm; cbn [outcome calls]; [|exact I].
    assert (outcome (compute_metrics_per_turn dialog_preds dialog_gold
                       dialog_seed_tracks k_values) = Ok dm) as Hdm
      by (rewrite Hcm; reflexivity).
    destruct (per_turn_result_wf _ _ _ _ _ Hdm) as (Hnd & Hne & Hstd).
    destruct (aggregate_metrics_rule max_turns dm agg Hnd Hne (proj1 Hagg))
      as (agg' & Hrun & Hnd' & Hget).
    { intros name summ. apply (aggregated_nonneg max_turns dms agg name summ Hagg). }
    rewrite Hrun. cbn [outcome]. exists (dms ++ [dm]).
    split; [|split].
    + apply Forall2_app; [exact Hdms|]. constructor; [|constructor].
      exists dialog_gold, dialog_seed_tracks. repeat split; assumption.
    + exact (aggregated_snoc max_turns dms agg dm agg' Hagg Hnd' Hget).
    + intros name Hin. apply dict_get_is_Some in Hin. rewrite Hget in Hin.
      destruct (dict_get dm name) as [vals|] eqn:Hv.
      * apply Hstd, dict_get_is_Some. eexists. exact Hv.
      * apply Hkeys, dict_get_is_Some, Hin.
Qed.

Lemma aggregate_dataset_summary preds gold seed_tracks k_values max_turns agg :
  outcome (aggregate_dataset preds gold seed_tracks k_values max_turns) = Ok agg ->
  exists dms,
    Forall2 (dialog_result gold seed_tracks k_values) preds dms
    /\ NoDup (dict_keys agg)
    /\ (forall name, name ∈ dict_keys agg -> name ∈ standard_keys k_values)
    /\ forall metric_name summ,
         dict_get agg metric_name = Some summ ->
         summ = foldl summary_rule (_PerTurnMetricSummary.__init__ max_turns)
                  (metric_lists metric_name dms).
Proof.
  intros Hagg.
  pose proof (aggregate_dataset_rule preds gold seed_tracks k_values max_turns) as Hrule.
  rewrite Hagg in Hrule. destruct Hrule as (dms & Hdms & [Hnd Hget] & Hkeys).
  exists dms. split; [exact Hdms|]. split; [exact Hnd|]. split; [exact Hkeys|].
  intros metric_name summ Hsumm. rewrite Hget in Hsumm.
  destruct (metric_lists metric_name dms); [discriminate|congruence].
Qed.

Lemma metric_lists_nonempty metric_name dms :
  metric_lists metric_name dms <> []
  <-> exists dm values, dm ∈ dms /\ dict_get dm metric_name = Some values.
Proof.
  unfold metric_lists. split.
  - destruct (omap (fun dm => dict_get dm metric_name) dms) as [|values vss] eqn:Ho;
      [congruence|]. intros _.
    assert (values ∈ omap (fun dm => dict_get dm metric_name) dms) as Hin
      by (rewrite Ho; left).
    apply list_elem_of_omap in Hin as (dm & Hdm & Hget). exists dm, values. split; assumption.
  - intros (dm & values & Hdm & Hget) Hnil.
    assert (values ∈ omap (fun dm => dict_get dm metric_name) dms) as Hin
      by (apply list_elem_of_omap; exists dm; split; assumption).
    rewrite Hnil in Hin. inversion Hin.
Qed.

(** C4: the aggregator holds a summary for a metric exactly when some
    dialog's per-turn result lists that metric.  The summary has
    [max_turns] positional buckets; bucket [i] is a fresh accumulator
    updated once per dialog that has a scored turn at position [i], with
    that turn's value, in dialog order; the values at positions
    [max_turns] and beyond reach no bucket, yet every value reaches the
    micro accumulator and every dialog's mean, taken over all its values,
    reaches the macro accumulator. *)
Theorem positional_buckets (preds : dict (list (list string)))
    (gold : gmap string (list string)) (seed_tracks : gmap string (list (list string)))
    (k_values : list Z) (max_turns : Z) (agg : dict _PerTurnMetricSummary.t) :
  outcome (aggregate_dataset preds gold seed_tracks k_values max_turns) = Ok agg ->
  exists dms,
    Forall2 (dialog_result gold seed_tracks k_values) preds dms
    /\ (forall metric_name,
          (exists dm values, dm ∈ dms /\ dict_get dm metric_name = Some values)
          <-> is_Some (dict_get agg metric_name))
    /\ forall metric_name summ,
         dict_get agg metric_name = Some summ ->
         length (_PerTurnMetricSummary.per_turn_average summ) = Z.to_nat max_turns
         /\ (forall i, (i < Z.to_nat max_turns)%nat ->
               exists bucket,
                 _PerTurnMetricSummary.per_turn_average summ !! i = Some bucket
                 /\ for_each_res _AveragedValue.update
                      (omap (fun values => values !! i) (metric_lists metric_name dms))
                      _AveragedValue.fresh = Ok bucket
                 /\ _AveragedValue.count bucket
                    = Qc_of_nat (length (omap (fun values => values !! i)
                                              (metric_lists metric_name dms))))
         /\ for_each_res _AveragedValue.update (concat (metric_lists metric_name dms))
              _AveragedValue.fresh
            = Ok (_PerTurnMetricSummary.micro_average summ)
         /\ _AveragedValue.count (_PerTurnMetricSummary.micro_average summ)
            = Qc_of_nat (length (concat (metric_lists metric_name dms)))
         /\ for_each_res _AveragedValue.update (mean <$> metric_lists metric_name dms)
              _AveragedValue.fresh
            = Ok (_PerTurnMetricSummary.macro_average summ)
         /\ _AveragedValue.count (_PerTurnMetricSummary.macro_average summ)
            = Qc_of_nat (length (metric_lists metric_name dms)).
Proof.
  intros Hagg.
  pose proof (aggregate_dataset_rule preds gold seed_tracks k_values max_turns) as Hrule.
  rewrite Hagg in Hrule. destruct Hrule as (dms & Hdms & [_ Hlookup] & _).
  exists dms. split; [exact Hdms|]. split.
  { intros metric_name. rewrite <- metric_lists_nonempty, Hlookup.
    destruct (metric_lists metric_name dms) as [|values vss].
    - split; [congruence|]. intros [summ [=]].
    - split; [intros _; eexists; reflexivity|discriminate]. }
  intros metric_name summ Hsumm.
  assert (summ = foldl summary_rule (_PerTurnMetricSummary.__init__ max_turns)
                   (metric_lists metric_name dms)) as ->.
  { rewrite Hlookup in Hsumm.
    destruct (metric_lists metric_name dms); [discriminate|congruence]. }
  clear Hsumm.
  assert (forall vs, for_each_res _AveragedValue.update vs _AveragedValue.fresh
                     = Ok (foldl mean_rule _AveragedValue.fresh vs)
                     /\ _AveragedValue.count (foldl mean_rule _AveragedValue.fresh vs)
                        = Qc_of_nat (length vs)) as Hfeed.
  { intros vs. destruct (feed_rule vs _AveragedValue.fresh) as [Hf Hc]; [discriminate|].
    split; [exact Hf|]. rewrite Hc. apply Qcplus_0_l. }
  split; [|split; [|split; [|split; [|split]]]].
  - rewrite foldl_summary_rule_length. apply length_replicate.
  - intros i Hi. eexists. split; [|apply Hfeed].
    rewrite foldl_summary_rule_bucket. cbn [_PerTurnMetricSummary.__init__
      _PerTurnMetricSummary.per_turn_average].
    rewrite lookup_replicate_2 by exact Hi. reflexivity.
  - rewrite foldl_summary_rule_micro. apply Hfeed.
  - rewrite foldl_summary_rule_micro. apply Hfeed.
  - rewrite foldl_summary_rule_macro. apply Hfeed.
  - rewrite foldl_summary_rule_macro.
    rewrite (proj2 (Hfeed _)), length_fmap. reflexivity.
Qed.

(** Two dialogs and one positional bucket: the first dialog has a second
    scored turn, beyond the last bucket.  The summary of ["hit@1"] is there;
    its bucket 0 has been updated twice, its micro average three times and
    its macro average twice. *)
Lemma positional_buckets_witness :
  exists agg summ bucket,
    outcome (aggregate_dataset [("d1", [["X"]; ["Y"]]); ("d2", [["X"]])]
               (list_to_map [("d1", ["X"; "Y"]); ("d2", ["X"])])
               (list_to_map [("d1", [[]; []]); ("d2", [[]])]) [1] 1) = Ok agg
    /\ dict_get agg "hit@1" = Some summ
    /\ _PerTurnMetricSummary.per_turn_average summ = [bucket]
    /\ _AveragedValue.count bucket = Qc_of_nat 2
    /\ _AveragedValue.count (_PerTurnMetricSummary.micro_average summ) = Qc_of_nat 3
    /\ _AveragedValue.count (_PerTurnMetricSummary.macro_average summ) = Qc_of_nat 2.
Proof.
  destruct (outcome (aggregate_dataset [("d1", [["X"]; ["Y"]]); ("d2", [["X"]])]
                       (list_to_map [("d1", ["X"; "Y"]); ("d2", ["X"])])
                       (list_to_map [("d1", [[]; []]); ("d2", [[]])]) [1] 1))
    as [agg|e] eqn:Hagg; [|vm_compute in Hagg; discriminate Hagg].
  destruct (positional_buckets _ _ _ _ _ agg Hagg) as (dms & Hdms & Hsome & H).
  apply Forall2_cons_inv_l in Hdms as (dm1 & dms1 & (g1 & s1 & Hg1 & Hs1 & Hdm1) & Hdms & ->).
  apply Forall2_cons_inv_l in Hdms as (dm2 & dms2 & (g2 & s2 & Hg2 & Hs2 & Hdm2) & Hdms & ->).
  apply Forall2_nil_inv_l in Hdms as ->.
  vm_compute in Hg1. injection Hg1 as <-. vm_compute in Hs1. injection Hs1 as <-.
  vm_compute in Hg2. injection Hg2 as <-. vm_compute in Hs2. injection Hs2 as <-.
  cbn [fst snd] in Hdm1, Hdm2.
  assert (match outcome (compute_metrics_per_turn [["X"]; ["Y"]] ["X"; "Y"] [[]; []] [1])
          with Ok dm => dict_get dm "hit@1" | Raise _ => None end
          = Some [1%Qc; 1%Qc]) as Hv1 by compute_done.
  assert (match outcome (compute_metrics_per_turn [["X"]] ["X"] [[]] [1])
          with Ok dm => dict_get dm "hit@1" | Raise _ => None end
          = Some [1%Qc]) as Hv2 by compute_done.
  rewrite Hdm1 in Hv1. rewrite Hdm2 in Hv2. clear Hdm1 Hdm2 Hagg.
  destruct (proj1 (Hsome "hit@1")) as [summ Hsumm].
  { exists dm1, [1%Qc; 1%Qc]. split; [left|exact Hv1]. }
  destruct (H "hit@1" summ Hsumm) as (Hlen & Hbucket & _ & Hmicro & _ & Hmacro).
  destruct (Hbucket 0%nat ltac:(simpl; lia)) as (bucket & Hb & _ & Hcount).
  unfold metric_lists in Hcount, Hmicro, Hmacro.
  cbn [omap list_omap] in Hcount, Hmicro, Hmacro.
  rewrite Hv1, Hv2 in Hcount, Hmicro, Hmacro.
  exists agg, summ, bucket. split; [reflexivity|]. split; [exact Hsumm|].
  split; [|split; [exact Hcount|split; [exact Hmicro|exact Hmacro]]].
  destruct (_PerTurnMetricSummary.per_turn_average summ) as [|b [|b' l]];
    try discriminate Hlen.
  injection Hb as ->. reflexivity.
Defined.

(** ** The report *)

Lemma metric_key_not_counts metric k :
  metric ∈ STANDARD_METRICS -> metric_key metric k <> "counts".
Proof.
  rewrite STANDARD_METRICS_eq, !elem_of_cons, elem_of_nil. unfold metric_key.
  intros [->|[->|[->|[->|[->|[]]]]]]; simpl; discriminate.
Qed.

Lemma standard_keys_not_counts k_values : "counts" ∉ standard_keys k_values.
Proof.
  rewrite elem_of_standard_keys. intros (metric & k & Hm & _ & Heq).
  symmetry in Heq. exact (metric_key_not_counts metric k Hm Heq).
Qed.

Lemma report_snoc agg metric_name metric_summ :
  report (agg ++ [(metric_name, metric_summ)])
  = dict_set (dict_set (report agg) metric_name (values_row metric_summ))
             "counts" (counts_row metric_summ).
Proof. unfold report. rewrite foldl_app. reflexivity. Qed.

Lemma report_get agg metric_name metric_summ :
  NoDup (dict_keys agg) -> "counts" ∉ dict_keys agg ->
  dict_get agg metric_name = Some metric_summ ->
  dict_get (report agg) metric_name = Some (values_row metric_summ).
Proof.
  induction agg as [|[name summ] agg IH] using rev_ind; [discriminate|].
  unfold dict_keys. rewrite fmap_app, NoDup_app, not_elem_of_app. cbn [fmap list_fmap fst].
  intros (Hnd & Hdis & _) [Hc Hc'] Hget.
  apply not_elem_of_cons in Hc' as [Hc' _].
  rewrite report_snoc.
  apply dict_get_elem_of, elem_of_app in Hget as [Hin|Hin].
  - assert (metric_name ∈ agg.*1) as Hk.
    { apply list_elem_of_fmap. exists (metric_name, metric_summ). split; [reflexivity|exact Hin]. }
    assert (metric_name <> name) as Hne.
    { intros ->. apply (Hdis name Hk). left. }
    assert (metric_name <> "counts") as Hne' by (intros ->; exact (Hc Hk)).
    rewrite !dict_get_set_ne by congruence.
    apply IH; [exact Hnd|exact Hc|]. apply elem_of_dict_get; assumption.
  - apply list_elem_of_singleton in Hin. injection Hin as -> ->.
    rewrite dict_get_set_ne by congruence. apply dict_get_set_eq.
Qed.

Lemma score_dataset_returns preds gold seed_tracks k_values max_turns reported :
  outcome (score_dataset preds gold seed_tracks k_values max_turns) = Ok reported ->
  exists agg,
    outcome (aggregate_dataset preds gold seed_tracks k_values max_turns) = Ok agg
    /\ reported = report agg.
Proof.
  unfold score_dataset, mbind, M_bind.
  destruct (outcome (aggregate_dataset preds gold seed_tracks k_values max_turns)) as [agg|e];
    cbn [outcome mret M_ret]; [|discriminate].
  intros [= <-]. exists agg. split; reflexivity.
Qed.

(** C7: in what [score_dataset] returns, every metric key maps to
    [macro mean, micro mean, bucket 0, ..., bucket max_turns-1] of that
    metric; the entry ["counts"], of the same shape, is written anew at
    every round of the reporting loop, so that it ends as the counts of the
    metric iterated last. *)
Theorem report_counts_last_metric (preds : dict (list (list string)))
    (gold : gmap string (list string)) (seed_tracks : gmap string (list (list string)))
    (k_values : list Z) (max_turns : Z) (reported : dict (list Qc)) :
  outcome (score_dataset preds gold seed_tracks k_values max_turns) = Ok reported ->
  exists agg,
    outcome (aggregate_dataset preds gold seed_tracks k_values max_turns) = Ok agg
    /\ reported = report agg
    /\ (forall metric_name metric_summ,
          dict_get agg metric_name = Some metric_summ ->
          dict_get reported metric_name
          = Some (_AveragedValue.value (_PerTurnMetricSummary.macro_average metric_summ)
                  :: _AveragedValue.value (_PerTurnMetricSummary.micro_average metric_summ)
                  :: map _AveragedValue.value
                       (_PerTurnMetricSummary.per_turn_average metric_summ))
          /\ length (_PerTurnMetricSummary.per_turn_average metric_summ) = Z.to_nat max_turns
          /\ length (counts_row metric_summ) = length (values_row metric_summ))
    /\ (forall done metric_name metric_summ rest,
          agg = done ++ (metric_name, metric_summ) :: rest ->
          dict_get (report (done ++ [(metric_name, metric_summ)])) "counts"
          = Some (counts_row metric_summ))
    /\ (forall done metric_name metric_summ,
          agg = done ++ [(metric_name, metric_summ)] ->
          dict_get reported "counts"
          = Some (_AveragedValue.count (_PerTurnMetricSummary.macro_average metric_summ)
                  :: _AveragedValue.count (_PerTurnMetricSummary.micro_average metric_summ)
                  :: map _AveragedValue.count
                       (_PerTurnMetricSummary.per_turn_average metric_summ)))
    /\ (agg = [] -> reported = []).
Proof.
  intros Hret. destruct (score_dataset_returns _ _ _ _ _ _ Hret) as (agg & Hagg & ->).
  exists agg. split; [exact Hagg|]. split; [reflexivity|].
  destruct (aggregate_dataset_summary _ _ _ _ _ _ Hagg) as (dms & _ & Hnd & Hkeys & Hget).
  assert ("counts" ∉ dict_keys agg) as Hcounts.
  { intros Hin. exact (standard_keys_not_counts k_values (Hkeys _ Hin)). }
  split; [|split; [|split]].
  - intros metric_name metric_summ Hsumm.
    split; [exact (report_get agg metric_name metric_summ Hnd Hcounts Hsumm)|].
    split; [|unfold counts_row, values_row; cbn [length]; rewrite !length_map; reflexivity].
    rewrite (Hget metric_name metric_summ Hsumm), foldl_summary_rule_length.
    apply length_replicate.
  - intros done metric_name metric_summ rest _. rewrite report_snoc. apply dict_get_set_eq.
  - intros done metric_name metric_summ ->. rewrite report_snoc. apply dict_get_set_eq.
  - intros ->. reflexivity.
Qed.

(** Two identical one-turn dialogs, gold [X, Y], predictions [X, A, B]. *)
Lemma report_counts_last_metric_witness :
  exists reported agg,
    outcome (score_dataset [("d1", [["X"; "A"; "B"]]); ("d2", [["X"; "A"; "B"]])]
               (list_to_map [("d1", ["X"; "Y"]); ("d2", ["X"; "Y"])])
               (list_to_map [("d1", [[]]); ("d2", [[]])]) [1; 2] 3) = Ok reported
    /\ reported = report agg
    /\ forall done metric_name metric_summ,
         agg = done ++ [(metric_name, metric_summ)] ->
         dict_get reported "counts"
         = Some (_AveragedValue.count (_PerTurnMetricSummary.macro_average metric_summ)
                 :: _AveragedValue.count (_PerTurnMetricSummary.micro_average metric_summ)
                 :: map _AveragedValue.count
                      (_PerTurnMetricSummary.per_turn_average metric_summ)).
Proof.
  destruct (outcome (score_dataset [("d1", [["X"; "A"; "B"]]); ("d2", [["X"; "A"; "B"]])]
                       (list_to_map [("d1", ["X"; "Y"]); ("d2", ["X"; "Y"])])
                       (list_to_map [("d1", [[]]); ("d2", [[]])]) [1; 2] 3))
    as [reported|e] eqn:Hret.
  - destruct (report_counts_last_metric _ _ _ _ _ reported Hret)
      as (agg & _ & Hrep & _ & _ & Hcounts & _).
    exists reported, agg. split; [reflexivity|]. split; [exact Hrep|exact Hcounts].
  - vm_compute in Hret. discriminate Hret.
Defined.

(** ** The scenarios of the specification, evaluated *)

Example end_to_end_metrics :
  outcome (compute_metrics ["X"; "A"; "B"] ["X"; "Y"] [1; 2] STANDARD_METRICS)
  = Ok [ ("hit@1", 1%Qc); ("hit@2", 1%Qc);
         ("map@1", 1%Qc); ("map@2", (1 / Qc_of_Z 2)%Qc);
         ("mrr@1", 1%Qc); ("mrr@2", 1%Qc);
         ("precision@1", 1%Qc); ("precision@2", (1 / Qc_of_Z 2)%Qc);
         ("recall@1", (1 / Qc_of_Z 2)%Qc); ("recall@2", (1 / Qc_of_Z 2)%Qc) ].
Proof. compute_done. Qed.

Example end_to_end_report :
  outcome (score_dataset [("d1", [["X"; "A"; "B"]]); ("d2", [["X"; "A"; "B"]])]
             (list_to_map [("d1", ["X"; "Y"]); ("d2", ["X"; "Y"])])
             (list_to_map [("d1", [[]]); ("d2", [[]])]) [1] 2)
  = Ok [ ("hit@1", [1; 1; 1; 0]%Qc);
         ("counts", [Qc_of_Z 2; Qc_of_Z 2; Qc_of_Z 2; 0%Qc]);
         ("map@1", [1; 1; 1; 0]%Qc);
         ("mrr@1", [1; 1; 1; 0]%Qc);
         ("precision@1", [1; 1; 1; 0]%Qc);
         ("recall@1", [1 / Qc_of_Z 2; 1 / Qc_of_Z 2; 1 / Qc_of_Z 2; 0]%Qc) ].
Proof. compute_done. Qed.

Example duplicate_predictions_rejected :
  compute_metrics ["X"; "X"; "Y"] ["X"] [1] STANDARD_METRICS
  = raise (ValueError "Predictions should be unique. Duplicates detected.").
Proof. compute_done. Qed.

(** ** The values of the per-turn result *)

Lemma score_turn_values gold k_values turns ret turn :
  per_turn_shape gold k_values turns ret ->
  per_turn_values gold k_values turns ret ->
  match outcome (score_turn gold k_values ret turn) with
  | Ok ret' => per_turn_values gold k_values (turns ++ [turn]) ret'
  | Raise _ => True
  end.
Proof.
  intros (Hlen & Hnone & Hsome) Hvals. destruct turn as [turn_preds seen].
  unfold score_turn, per_turn_values. rewrite scored_turns_snoc.
  destruct (decide (_filter_tracks gold seen = [])) as [Hnil|Hne].
  - rewrite app_nil_r. cbn [outcome mret M_ret]. exact Hvals.
  - pose proof (compute_metrics_spec (_filter_tracks turn_preds seen) (_filter_tracks gold seen)
                  k_values STANDARD_METRICS) as [_ Hcm].
    unfold mbind, M_bind.
    destruct (outcome (compute_metrics (_filter_tracks turn_preds seen)
                         (_filter_tracks gold seen) k_values STANDARD_METRICS))
      as [tm|e]; [|exact I].
    destruct Hcm as (-> & _). cbn [outcome mret M_ret].
    intros metric k Hm Hk _.
    rewrite record_turn_get
      by (rewrite metric_table_standard_keys; apply standard_keys_NoDup).
    rewrite metric_table_lookup by (trivial || exact Hm || exact Hk).
    rewrite fmap_app. cbn [fmap list_fmap]. unfold turn_value at 2. cbn [fst snd].
    destruct (decide (scored_turns gold turns = [])) as [Hs|Hs].
    + rewrite (Hnone Hs), Hs. reflexivity.
    + rewrite (Hvals metric k Hm Hk Hs). reflexivity.
Qed.

Lemma compute_metrics_per_turn_values preds gold seed_tracks k_values :
  match outcome (compute_metrics_per_turn preds gold seed_tracks k_values) with
  | Ok ret => per_turn_values gold k_values (zip preds (seen_sets seed_tracks)) ret
  | Raise _ => True
  end.
Proof.
  rewrite compute_metrics_per_turn_score.
  destruct (for_each_rule
              (fun pre ret => per_turn_shape gold k_values pre ret
                              /\ per_turn_values gold k_values pre ret)
              (fun _ => True) (fun _ => True)
              (score_turn gold k_values) (zip preds (seen_sets seed_tracks)) [])
    as [_ H].
  - split; [repeat split; [discriminate|contradiction]|].
    intros metric k _ _ Hne. contradiction.
  - intros pre turn post ret _ [Hshape Hvals]. split; [apply Forall_forall; done|].
    pose proof (score_turn_shape gold k_values pre ret turn Hshape) as H1.
    pose proof (score_turn_values gold k_values pre ret turn Hshape Hvals) as H2.
    destruct (outcome (score_turn gold k_values ret turn)); [split; assumption|exact I].
  - destruct (outcome _); [apply H|exact I].
Qed.

(** A filter whose predicate, once false, stays false keeps a prefix. *)
Lemma filter_prefix {A} (P : A -> Prop) `{forall x, Decision (P x)} (l : list A) :
  (forall i j x y, (i <= j)%nat -> l !! i = Some x -> l !! j = Some y -> P y -> P x) ->
  filter P l = take (length (filter P l)) l.
Proof.
  induction l as [|x l IH]; intros Hmono; [reflexivity|].
  rewrite filter_cons. destruct (decide (P x)) as [Hx|Hx].
  - cbn [length take]. f_equal. apply IH.
    intros i j a b Hij Ha Hb. exact (Hmono (S i) (S j) a b ltac:(lia) Ha Hb).
  - assert (filter P l = []) as ->; [|reflexivity].
    destruct (filter P l) as [|y l'] eqn:Hf; [reflexivity|].
    assert (y ∈ filter P l) as Hy by (rewrite Hf; left).
    apply list_elem_of_filter in Hy as [Hy Hin].
    apply list_elem_of_lookup in Hin as [j Hj].
    destruct Hx. exact (Hmono 0%nat (S j) x y ltac:(lia) eq_refl Hj Hy).
Qed.

(** The scored turns of a dialog are its first turns. *)
Lemma scored_turns_prefix preds gold seed_tracks :
  scored_turns gold (zip preds (seen_sets seed_tracks))
  = take (length (scored_turns gold (zip preds (seen_sets seed_tracks))))
         (zip preds (seen_sets seed_tracks)).
Proof.
  unfold scored_turns. apply filter_prefix.
  intros i j [p s] [p' s'] Hij Hi Hj. cbn [snd].
  apply lookup_zip_with_Some in Hi as (? & ? & [= <- <-] & _ & Hi).
  apply lookup_zip_with_Some in Hj as (? & ? & [= <- <-] & _ & Hj).
  unfold seen_sets in Hi, Hj. rewrite list_lookup_fmap in Hi, Hj.
  apply fmap_Some in Hi as (t & Ht & ->). apply fmap_Some in Hj as (t' & Ht' & ->).
  apply lookup_seq in Ht as [-> _]. apply lookup_seq in Ht' as [-> _]. cbn [Nat.add].
  intros Hne Hnil. apply Hne.
  exact (_filter_tracks_empty_mono gold _ _ (seen_at_mono seed_tracks i j Hij) Hnil).
Qed.

(** ** Further properties of the specification *)







(** When the first prediction is relevant, the reciprocal rank is 1 at
    every cutoff [k >= 1]. *)
Theorem first_relevant_reciprocal_rank (gold : list string) (pred : string)
    (rest : list string) (k : Z) :
  pred ∈ gold -> 1 <= k -> get_reciprocal_rank gold (pred :: rest) k = 1%Qc.
Proof.
  intros Hin Hk. unfold get_reciprocal_rank, slice_to.
  rewrite decide_True by lia.
  destruct (Z.to_nat k) as [|n] eqn:Hn; [lia|].
  cbn [take reciprocal_rank_loop]. rewrite decide_True by exact Hin.
  change (Qc_of_nat 1) with (Qc_of_Z 1). rewrite Z2Qc_inj_1.
  apply Qcmult_inv_r. discriminate.
Qed.

Lemma first_relevant_reciprocal_rank_witness :
  get_reciprocal_rank ["X"; "Y"] ("X" :: ["A"; "B"]) 2 = 1%Qc.
Proof.
  apply first_relevant_reciprocal_rank; [left|lia].
Defined.

Lemma Qc_div_pos_iff (a b : Qc) : (0 < b)%Qc -> (0 < a / b)%Qc <-> (0 < a)%Qc.
Proof.
  intros Hb. split; intros Ha.
  - rewrite <- (test_field a b) by (intros ->; destruct (irreflexivity Qclt 0%Qc Hb)).
    apply Qcmult_pos_pos; assumption.
  - unfold Qcdiv. apply Qcmult_pos_pos; [exact Ha|apply Qcinv_pos, Hb].
Qed.

Lemma Qc_of_nat_pos_iff n : (0 < Qc_of_nat n)%Qc <-> (0 < n)%nat.
Proof.
  split; [|apply Qc_of_nat_pos]. intros H. destruct n as [|n]; [|lia].
  rewrite Qc_of_nat_0 in H. destruct (irreflexivity Qclt 0%Qc H).
Qed.

Lemma average_precision_loop_pos gold i num_hit total preds :
  (0 < i)%nat -> (0 <= total)%Qc ->
  (0 < average_precision_loop gold i num_hit total preds)%Qc
  <-> (0 < total)%Qc \/ exists x, x ∈ gold /\ x ∈ preds.
Proof.
  revert i num_hit total. induction preds as [|pred rest IH]; intros i num_hit total Hi Ht;
    cbn [average_precision_loop].
  - split; [left; assumption|]. intros [H|(x & _ & Hx)]; [exact H|inversion Hx].
  - destruct (decide (pred ∈ gold)) as [Hin|Hnin].
    + assert (0 < total + Qc_of_nat (S num_hit) / Qc_of_nat i)%Qc as Hpos.
      { apply Qcplus_nonneg_pos; [exact Ht|].
        apply Qc_div_pos_iff; apply Qc_of_nat_pos; lia. }
      rewrite IH by (try lia; apply Qclt_le_weak, Hpos).
      split; [|intros _; left; exact Hpos].
      intros _. right. exists pred. split; [exact Hin|left].
    + rewrite IH by (try lia; exact Ht). split.
      * intros [H|(x & Hg & Hx)]; [left; exact H|].
        right. exists x. split; [exact Hg|right; exact Hx].
      * intros [H|(x & Hg & Hx)]; [left; exact H|].
        apply elem_of_cons in Hx as [->|Hx]; [contradiction|].
        right. exists x. split; assumption.
Qed.

(** precision@k, recall@k and average-precision@k are positive exactly
    when hit@k is 1, that is, when one of the top [k] predictions is in
    gold; for a cutoff within the prediction list and a non-empty gold all
    three return. *)
Theorem metrics_positive_iff_hit (gold preds : list string) (k : Z) :
  gold <> [] -> 1 <= k <= Z.of_nat (length preds) ->
  exists p r ap,
    get_precision gold preds k = Ok p
    /\ get_recall gold preds k = Ok r
    /\ get_average_precision gold preds k = Ok ap
    /\ ((0 < p)%Qc <-> get_hit gold preds k = 1)
    /\ ((0 < r)%Qc <-> get_hit gold preds k = 1)
    /\ ((0 < ap)%Qc <-> get_hit gold preds k = 1).
Proof.
  intros Hgold Hk. destruct (slice_to_in_range preds k ltac:(lia)) as [_ Hlen].
  assert (0 < length gold)%nat as Hg by (destruct gold; [congruence|simpl; lia]).
  assert (0 < length (slice_to preds k))%nat as Hl by lia.
  assert (get_hit gold preds k = 1 <-> (0 < num_common gold (slice_to preds k))%nat) as Hhit.
  { unfold get_hit. destruct (decide (0 < num_common gold (slice_to preds k))%nat);
      split; (done || lia). }
  unfold get_precision, get_recall, get_average_precision.
  rewrite !truediv_Ok by (rewrite Qc_of_nat_eq_0; lia).
  eexists _, _, _. split; [reflexivity|]. split; [reflexivity|]. split; [reflexivity|].
  rewrite !Hhit. split; [|split].
  - rewrite Qc_div_pos_iff by (apply Qc_of_nat_pos, Hl). apply Qc_of_nat_pos_iff.
  - rewrite Qc_div_pos_iff by (apply Qc_of_nat_pos, Hg). apply Qc_of_nat_pos_iff.
  - rewrite Qc_div_pos_iff by (apply Qc_of_nat_pos; lia).
    rewrite average_precision_loop_pos by (try lia; apply Qcle_refl).
    rewrite num_common_pos. split; [|right; assumption].
    intros [H|H]; [destruct (irreflexivity Qclt 0%Qc H)|exact H].
Qed.

Lemma metrics_positive_iff_hit_witness :
  exists p r ap,
    get_precision ["X"; "Y"] ["A"; "X"; "B"] 2 = Ok p
    /\ get_recall ["X"; "Y"] ["A"; "X"; "B"] 2 = Ok r
    /\ get_average_precision ["X"; "Y"] ["A"; "X"; "B"] 2 = Ok ap
    /\ ((0 < p)%Qc <-> get_hit ["X"; "Y"] ["A"; "X"; "B"] 2 = 1)
    /\ ((0 < r)%Qc <-> get_hit ["X"; "Y"] ["A"; "X"; "B"] 2 = 1)
    /\ ((0 < ap)%Qc <-> get_hit ["X"; "Y"] ["A"; "X"; "B"] 2 = 1).
Proof.
  apply metrics_positive_iff_hit; [discriminate|]. simpl. lia.
Defined.

Lemma num_common_take_mono gold preds n n' :
  (n <= n')%nat -> (num_common gold (take n preds) <= num_common gold (take n' preds))%nat.
Proof.
  intros Hle. unfold num_common. apply subseteq_size.
  intros x. rewrite !elem_of_intersection, !elem_of_list_to_set, !elem_of_take.
  intros [Hg (i & Hi & Hlt)]. split; [exact Hg|]. exists i. split; [exact Hi|lia].
Qed.

(** recall@k does not decrease when the cutoff grows. *)
Theorem recall_monotone (gold preds : list string) (k k' : Z) :
  gold <> [] -> 0 <= k <= k' ->
  exists r r',
    get_recall gold preds k = Ok r
    /\ get_recall gold preds k' = Ok r'
    /\ (r <= r')%Qc.
Proof.
  intros Hgold Hk. rewrite !get_recall_returns by exact Hgold.
  eexists _, _. split; [reflexivity|]. split; [reflexivity|].
  unfold Qcdiv. apply Qcmult_le_compat_r.
  - unfold slice_to. rewrite !decide_True by lia.
    unfold Qc_of_nat. apply (proj1 (Z2Qc_inj_le _ _)).
    apply inj_le, num_common_take_mono. lia.
  - apply Qclt_le_weak, Qcinv_pos, Qc_of_nat_pos.
    destruct gold; [congruence|simpl; lia].
Qed.

Lemma recall_monotone_witness :
  exists r r',
    get_recall ["X"; "Y"] ["A"; "X"; "Y"] 1 = Ok r
    /\ get_recall ["X"; "Y"] ["A"; "X"; "Y"] 3 = Ok r'
    /\ (r <= r')%Qc.
Proof.
  apply recall_monotone; [discriminate|lia].
Defined.

(** The turns that are scored are the first turns of the dialog, and the
    list under the key of a metric and a cutoff holds, at index [i], the
    value of that metric for turn [i]. *)
Theorem per_turn_lists_follow_turns (preds : list (list string)) (gold : list string)
    (seed_tracks : list (list string)) (k_values : list Z) (ret : dict (list Qc))
    (metric : string) (k : Z) :
  outcome (compute_metrics_per_turn preds gold seed_tracks k_values) = Ok ret ->
  metric ∈ STANDARD_METRICS -> k ∈ k_values ->
  scored_turns gold (zip preds (seen_sets seed_tracks))
  = take (length (scored_turns gold (zip preds (seen_sets seed_tracks))))
         (zip preds (seen_sets seed_tracks))
  /\ (scored_turns gold (zip preds (seen_sets seed_tracks)) <> [] ->
      dict_get ret (metric_key metric k)
      = Some (turn_value gold metric k
              <$> take (length (scored_turns gold (zip preds (seen_sets seed_tracks))))
                       (zip preds (seen_sets seed_tracks)))).
Proof.
  intros Hret Hm Hk. split; [apply scored_turns_prefix|].
  intros Hne. rewrite <- scored_turns_prefix.
  pose proof (compute_metrics_per_turn_values preds gold seed_tracks k_values) as Hvals.
  rewrite Hret in Hvals. exact (Hvals metric k Hm Hk Hne).
Qed.

Lemma per_turn_lists_follow_turns_witness :
  exists ret,
    outcome (compute_metrics_per_turn [["A"; "B"]; ["A"; "C"]] ["A"; "B"; "C"]
               [[]; ["A"]] [1]) = Ok ret
    /\ scored_turns ["A"; "B"; "C"] (zip [["A"; "B"]; ["A"; "C"]] (seen_sets [[]; ["A"]]))
       = take (length (scored_turns ["A"; "B"; "C"]
                         (zip [["A"; "B"]; ["A"; "C"]] (seen_sets [[]; ["A"]]))))
              (zip [["A"; "B"]; ["A"; "C"]] (seen_sets [[]; ["A"]])).
Proof.
  destruct (outcome (compute_metrics_per_turn [["A"; "B"]; ["A"; "C"]] ["A"; "B"; "C"]
                       [[]; ["A"]] [1])) as [ret|e] eqn:Hret.
  - exists ret. split; [reflexivity|].
    pose proof recall_registered as Hm.
    assert (1 ∈ [1]) as Hk by left.
    destruct (per_turn_lists_follow_turns [["A"; "B"]; ["A"; "C"]] ["A"; "B"; "C"]
                [[]; ["A"]] [1] ret "recall" 1 Hret Hm Hk) as [Hprefix _].
    exact Hprefix.
  - vm_compute in Hret. discriminate Hret.
Defined.

(** ** The range and the failures of the metric functions *)

Lemma not_NoDup_repeated (values : list string) :
  ~ NoDup values -> exists i j v, i <> j /\ values !! i = Some v /\ values !! j = Some v.
Proof.
  induction values as [|x l IH]; intros Hnd; [destruct Hnd; constructor|].
  destruct (decide (x ∈ l)) as [Hin|Hnin].
  - apply list_elem_of_lookup in Hin as [j Hj].
    exists 0%nat, (S j), x. repeat split; [discriminate|exact Hj].
  - destruct IH as (i & j & v & Hne & Hi & Hj).
    + intros Hl. apply Hnd. constructor; assumption.
    + exists (S i), (S j), v. repeat split; [congruence|exact Hi|exact Hj].
Qed.

(** [_has_duplicates] is true exactly on the lists in which some value
    occurs at two positions. *)
Theorem has_duplicates_iff (values : list string) :
  _has_duplicates values = true
  <-> exists i j v, i <> j /\ values !! i = Some v /\ values !! j = Some v.
Proof.
  rewrite _has_duplicates_true. split; [apply not_NoDup_repeated|].
  intros (i & j & v & Hne & Hi & Hj) Hnd.
  exact (Hne (proj1 (NoDup_alt values) Hnd i j v Hi Hj)).
Qed.

Lemma Qc_div_unit (a b : Qc) :
  (0 <= a)%Qc -> (a <= b)%Qc -> (0 < b)%Qc -> (0 <= a / b)%Qc /\ (a / b <= 1)%Qc.
Proof.
  intros Ha Hab Hb. pose proof (Qcinv_pos b Hb) as Hinv. unfold Qcdiv. split.
  - rewrite <- (Qcmult_0_l (/ b)). apply Qcmult_le_compat_r; [exact Ha|].
    apply Qclt_le_weak, Hinv.
  - rewrite <- (Qcmult_inv_r b) by (intros ->; destruct (irreflexivity Qclt 0%Qc Hb)).
    apply Qcmult_le_compat_r; [exact Hab|]. apply Qclt_le_weak, Hinv.
Qed.

Lemma Qc_of_nat_le n m : (n <= m)%nat -> (Qc_of_nat n <= Qc_of_nat m)%Qc.
Proof. intros H. unfold Qc_of_nat. apply (proj1 (Z2Qc_inj_le _ _)). lia. Qed.

Lemma truediv_unit (n m : nat) (v : Qc) :
  (n <= m)%nat -> truediv (Qc_of_nat n) (Qc_of_nat m) = Ok v -> (0 <= v)%Qc /\ (v <= 1)%Qc.
Proof.
  intros Hle. unfold truediv. destruct (decide (Qc_of_nat m = 0%Qc)) as [|Hm]; [discriminate|].
  intros [= <-]. apply Qc_div_unit.
  - apply Qc_of_nat_nonneg.
  - apply Qc_of_nat_le, Hle.
  - apply Qc_of_nat_pos. rewrite Qc_of_nat_eq_0 in Hm. lia.
Qed.

Lemma num_common_le_preds gold preds : (num_common gold preds <= length preds)%nat.
Proof.
  unfold num_common. etransitivity; [|apply size_list_to_set_le].
  apply subseteq_size. set_solver.
Qed.

Lemma num_common_le_gold gold preds : (num_common gold preds <= length gold)%nat.
Proof.
  unfold num_common. etransitivity; [|apply size_list_to_set_le].
  apply subseteq_size. set_solver.
Qed.

Lemma reciprocal_rank_loop_unit gold i preds :
  (0 < i)%nat ->
  (0 <= reciprocal_rank_loop gold i preds)%Qc /\ (reciprocal_rank_loop gold i preds <= 1)%Qc.
Proof.
  revert i. induction preds as [|pred rest IH]; intros i Hi; simpl.
  - split; discriminate.
  - destruct (decide (pred ∈ gold)); [|apply IH; lia].
    apply Qc_div_unit; [discriminate| |apply Qc_of_nat_pos, Hi].
    change 1%Qc with (Q2Qc 1). rewrite <- Z2Qc_inj_1.
    apply (Qc_of_nat_le 1 i). lia.
Qed.

Lemma hits_so_far_le gold top rank : (hits_so_far gold top rank <= rank)%nat.
Proof.
  unfold hits_so_far. etransitivity; [apply length_filter|]. rewrite length_take. lia.
Qed.

Lemma precision_term_unit gold top j :
  (0 <= precision_term gold top j)%Qc
  /\ (precision_term gold top j
      <= match top !! j with
         | Some pred => if decide (pred ∈ gold) then 1 else 0
         | None => 0
         end)%Qc.
Proof.
  unfold precision_term. destruct (top !! j) as [pred|]; [|split; discriminate].
  destruct (decide (pred ∈ gold)); [|split; discriminate].
  apply Qc_div_unit; [apply Qc_of_nat_nonneg| |apply Qc_of_nat_pos; lia].
  apply Qc_of_nat_le, hits_so_far_le.
Qed.

Lemma precision_sum_bound gold pre rest :
  (0 <= foldr Qcplus 0%Qc
          (precision_term gold (pre ++ rest) <$> seq (length pre) (length rest)))%Qc
  /\ (foldr Qcplus 0%Qc
        (precision_term gold (pre ++ rest) <$> seq (length pre) (length rest))
      <= Qc_of_nat (length (filter (fun pred => pred ∈ gold) rest)))%Qc.
Proof.
  revert pre. induction rest as [|pred rest IH]; intros pre.
  - simpl. rewrite Qc_of_nat_0. split; discriminate.
  - cbn [length seq fmap list_fmap foldr].
    specialize (IH (pre ++ [pred])).
    rewrite length_app, Nat.add_1_r, <- app_assoc in IH. cbn [app] in IH.
    destruct IH as [IH0 IH1].
    destruct (precision_term_unit gold (pre ++ pred :: rest) (length pre)) as [Ht0 Ht1].
    rewrite list_lookup_middle in Ht1 by reflexivity.
    split.
    + rewrite <- (Qcplus_0_r 0%Qc). apply Qcplus_le_compat; assumption.
    + rewrite filter_cons. destruct (decide (pred ∈ gold)).
      * cbn [length]. rewrite Qc_of_nat_S, (Qcplus_comm (Qc_of_nat _) 1).
        apply Qcplus_le_compat; assumption.
      * rewrite <- (Qcplus_0_l (Qc_of_nat _)). apply Qcplus_le_compat; assumption.
Qed.

Lemma relevant_le_gold (gold top : list string) :
  NoDup top -> (length (filter (fun pred => pred ∈ gold) top) <= length gold)%nat.
Proof.
  intros Hnd. apply submseteq_length, NoDup_submseteq.
  - apply NoDup_filter, Hnd.
  - intros x Hx. apply list_elem_of_filter in Hx as [Hx _]. exact Hx.
Qed.

Lemma get_average_precision_unit gold preds k v :
  NoDup preds -> get_average_precision gold preds k = Ok v -> (0 <= v)%Qc /\ (v <= 1)%Qc.
Proof.
  intros Hnd. rewrite get_average_precision_unfold. unfold truediv.
  destruct (decide _) as [|Hnz]; [discriminate|]. intros [= <-].
  destruct (precision_sum_bound gold [] (slice_to preds k)) as [H0 H1].
  cbn [app length] in H0, H1. fold (precision_sum gold (slice_to preds k)) in H0, H1.
  apply Qc_div_unit; [exact H0| |].
  - etransitivity; [exact H1|]. apply Qc_of_nat_le.
    apply Nat.min_glb; [|apply length_filter].
    apply relevant_le_gold. unfold slice_to.
    destruct (decide (0 <= k)); apply (sublist_NoDup _ preds); (apply sublist_take || exact Hnd).
  - apply Qc_of_nat_pos. rewrite Qc_of_nat_eq_0 in Hnz. lia.
Qed.

(** Every value that [compute_metrics] returns lies between 0 and 1. *)
Theorem metric_values_in_unit_interval (preds gold : list string) (k_values : list Z)
    (metrics : list string) (d : dict Qc) (key : string) (v : Qc) :
  outcome (compute_metrics preds gold k_values metrics) = Ok d ->
  dict_get d key = Some v ->
  (0 <= v)%Qc /\ (v <= 1)%Qc.
Proof.
  intros Hd Hv.
  pose proof (compute_metrics_spec preds gold k_values metrics) as [_ Hspec].
  rewrite Hd in Hspec. destruct Hspec as (-> & Hnr & _ & _ & Hreg & Hvals).
  assert (NoDup preds) as Hnd.
  { destruct (decide (NoDup preds)) as [H|H]; [exact H|]. destruct Hnr. left. exact H. }
  assert (key ∈ dict_keys (metric_table gold preds k_values metrics)) as Hkey
    by (apply dict_get_is_Some; eexists; exact Hv).
  apply metric_table_keys in Hkey as (metric & k & Hm & Hk & ->).
  rewrite (metric_table_lookup gold preds k_values metrics metric k Hreg Hm Hk) in Hv.
  injection Hv as <-.
  destruct (proj2 (registered_iff metric) (Hreg metric Hm)) as [fn Hfn].
  pose proof (Hvals metric k fn Hm Hk Hfn) as Hfnv.
  revert Hfnv. generalize (metric_value metric gold preds k). intros v.
  rewrite registry_lookup in Hfn.
  repeat (destruct (decide _) as [_|_]; [injection Hfn as <-|]); try discriminate.
  - intros [= <-]. unfold get_hit.
    destruct (decide _); [rewrite Z2Qc_inj_1|rewrite Z2Qc_inj_0]; split; discriminate.
  - apply get_average_precision_unit, Hnd.
  - unfold get_recall. apply truediv_unit, num_common_le_gold.
  - unfold get_precision. apply truediv_unit, num_common_le_preds.
  - intros [= <-]. apply reciprocal_rank_loop_unit. lia.
Qed.

Lemma metric_values_in_unit_interval_witness :
  exists d v,
    outcome (compute_metrics ["X"; "A"; "B"] ["X"; "Y"] [1; 2] STANDARD_METRICS) = Ok d
    /\ dict_get d "map@2" = Some v
    /\ (0 <= v)%Qc /\ (v <= 1)%Qc.
Proof.
  destruct (outcome (compute_metrics ["X"; "A"; "B"] ["X"; "Y"] [1; 2] STANDARD_METRICS))
    as [d|e] eqn:Hd; [|vm_compute in Hd; discriminate Hd].
  destruct (dict_get d "map@2") as [v|] eqn:Hv.
  - exists d, v. split; [reflexivity|]. split; [exact Hv|].
    exact (metric_values_in_unit_interval _ _ _ _ d "map@2" v Hd Hv).
  - vm_compute in Hd. injection Hd as <-. vm_compute in Hv. discriminate Hv.
Defined.

Lemma slice_to_nil {A} (l : list A) (k : Z) :
  slice_to l k = [] <-> l = [] \/ k = 0 \/ k <= - Z.of_nat (length l).
Proof.
  unfold slice_to. destruct (decide (0 <= k)) as [Hk|Hk].
  - destruct l as [|x l]; [rewrite take_nil; split; [left; reflexivity|reflexivity]|].
    destruct (Z.to_nat k) as [|n] eqn:Hn; cbn [take].
    + split; [intros _; right; left; lia|reflexivity].
    + split; [discriminate|]. intros [H|[H|H]]; [discriminate|lia|simpl in H; lia].
  - destruct l as [|x l]; [rewrite take_nil; split; [left; reflexivity|reflexivity]|].
    destruct (length (x :: l) - Z.to_nat (- k))%nat as [|n] eqn:Hn; cbn [take].
    + split; [intros _; right; right; lia|reflexivity].
    + split; [discriminate|]. intros [H|[H|H]]; [discriminate|lia|lia].
Qed.

(** Which calls divide by zero: precision@k exactly when [preds[:k]] is
    empty, average-precision@k exactly when gold or [preds[:k]] is empty;
    and [preds[:k]] is empty exactly when preds is empty, [k] is 0, or [k]
    is at most [-len(preds)].  hit@k and reciprocal-rank@k are 0 there. *)
Theorem metric_division_errors (gold preds : list string) (k : Z) :
  (get_precision gold preds k = Raise ZeroDivisionError <-> slice_to preds k = [])
  /\ (get_average_precision gold preds k = Raise ZeroDivisionError
      <-> gold = [] \/ slice_to preds k = [])
  /\ (slice_to preds k = [] <-> preds = [] \/ k = 0 \/ k <= - Z.of_nat (length preds))
  /\ (slice_to preds k = [] ->
      get_hit gold preds k = 0 /\ get_reciprocal_rank gold preds k = 0%Qc).
Proof.
  split; [|split; [|split; [apply slice_to_nil|]]].
  - unfold get_precision. rewrite truediv_Raise, Qc_of_nat_eq_0. apply length_zero_iff_nil.
  - unfold get_average_precision. rewrite truediv_Raise, Qc_of_nat_eq_0.
    destruct gold as [|g gold]; [simpl; tauto|].
    destruct (slice_to preds k) as [|p l]; simpl; split; try tauto; try lia.
    intros [H|H]; discriminate.
  - intros Hnil. unfold get_hit, get_reciprocal_rank. rewrite Hnil. split; [|reflexivity].
    rewrite decide_False; [reflexivity|].
    rewrite num_common_pos. intros (x & _ & Hx). inversion Hx.
Qed.

(** ** Where the exceptions of the scorers come from *)

Lemma compute_metrics_per_turn_raises preds gold seed_tracks k_values e :
  outcome (compute_metrics_per_turn preds gold seed_tracks k_values) = Raise e ->
  exists turn_preds seen,
    (turn_preds, seen) ∈ zip preds (seen_sets seed_tracks)
    /\ _filter_tracks gold seen <> []
    /\ outcome (compute_metrics (_filter_tracks turn_preds seen) (_filter_tracks gold seen)
                  k_values STANDARD_METRICS) = Raise e.
Proof.
  rewrite compute_metrics_per_turn_score. intros Hraise.
  destruct (for_each_rule (fun _ _ => True) (fun _ => True)
              (fun e => exists turn_preds seen,
                          (turn_preds, seen) ∈ zip preds (seen_sets seed_tracks)
                          /\ _filter_tracks gold seen <> []
                          /\ outcome (compute_metrics (_filter_tracks turn_preds seen)
                                        (_filter_tracks gold seen) k_values STANDARD_METRICS)
                             = Raise e)
              (score_turn gold k_values) (zip preds (seen_sets seed_tracks)) [] I)
    as [_ H].
  - intros pre [turn_preds seen] post ret Hxs _. split; [apply Forall_forall; done|].
    unfold score_turn.
    destruct (decide (_filter_tracks gold seen = [])) as [|Hne]; [exact I|].
    unfold mbind, M_bind.
    destruct (outcome (compute_metrics (_filter_tracks turn_preds seen)
                         (_filter_tracks gold seen) k_values STANDARD_METRICS))
      as [tm|e'] eqn:Hcm; cbn [outcome]; [exact I|].
    exists turn_preds, seen. split; [|split; [exact Hne|exact Hcm]].
    rewrite Hxs. apply elem_of_app. right. left.
  - rewrite Hraise in H. exact H.
Qed.

(** The exceptions of [compute_metrics_per_turn] are those of
    [compute_metrics] on the filtered lists of a turn that has gold left:
    a [ValueError] of the input validation or a [ZeroDivisionError]. *)
Theorem per_turn_exceptions (preds : list (list string)) (gold : list string)
    (seed_tracks : list (list string)) (k_values : list Z) (e : exn) :
  outcome (compute_metrics_per_turn preds gold seed_tracks k_values) = Raise e ->
  (e = ZeroDivisionError \/ exists msg, e = ValueError msg)
  /\ exists t turn_preds,
       preds !! t = Some turn_preds
       /\ (t < length seed_tracks)%nat
       /\ _filter_tracks gold (seen_at seed_tracks t) <> []
       /\ outcome (compute_metrics (_filter_tracks turn_preds (seen_at seed_tracks t))
                     (_filter_tracks gold (seen_at seed_tracks t))
                     k_values STANDARD_METRICS) = Raise e.
Proof.
  intros Hraise.
  destruct (compute_metrics_per_turn_raises _ _ _ _ _ Hraise)
    as (turn_preds & seen & Hin & Hne & Hcm).
  split.
  - pose proof (compute_metrics_spec (_filter_tracks turn_preds seen)
                  (_filter_tracks gold seen) k_values STANDARD_METRICS) as [_ Hspec].
    rewrite Hcm in Hspec. exact Hspec.
  - apply list_elem_of_lookup in Hin as [t Ht].
    apply lookup_zip_with_Some in Ht as (tp & s & Heq & Htp & Hs).
    injection Heq as -> ->.
    unfold seen_sets in Hs. rewrite list_lookup_fmap in Hs.
    apply fmap_Some in Hs as (t' & Ht' & ->). apply lookup_seq in Ht' as [-> Hlt].
    cbn [Nat.add] in *. exists t, tp. repeat split; assumption.
Qed.

Lemma per_turn_exceptions_witness :
  exists e,
    outcome (compute_metrics_per_turn [["A"]] ["A"] [[]] [2]) = Raise e
    /\ (e = ZeroDivisionError \/ exists msg, e = ValueError msg).
Proof.
  destruct (outcome (compute_metrics_per_turn [["A"]] ["A"] [[]] [2])) as [ret|e] eqn:H;
    [vm_compute in H; discriminate H|].
  exists e. split; [reflexivity|].
  exact (proj1 (per_turn_exceptions [["A"]] ["A"] [[]] [2] e H)).
Defined.

Lemma existsb_unregistered_standard :
  existsb (fun metric => bool_decide (_STANDARD_METRIC_MAP !! metric = None)) STANDARD_METRICS
  = false.
Proof. vm_compute. reflexivity. Qed.

(** When a scored turn is left, after filtering, with fewer predictions
    than the largest cutoff, [compute_metrics_per_turn] raises the
    [ValueError] of that check: the scorer neither pads nor truncates. *)
Theorem per_turn_short_predictions (preds : list (list string)) (gold : list string)
    (seed_tracks : list (list string)) (k_values : list Z)
    (t : nat) (turn_preds : list string) (ret : dict (list Qc)) (k_max : Z) :
  outcome (compute_metrics_per_turn (take t preds) gold seed_tracks k_values) = Ok ret ->
  preds !! t = Some turn_preds ->
  (t < length seed_tracks)%nat ->
  _filter_tracks gold (seen_at seed_tracks t) <> [] ->
  NoDup turn_preds -> NoDup gold ->
  py_max k_values = Ok k_max ->
  Z.of_nat (length (_filter_tracks turn_preds (seen_at seed_tracks t))) < k_max ->
  outcome (compute_metrics_per_turn preds gold seed_tracks k_values)
  = Raise (ValueError
             ("k is larger than the number of retrieved preds, " +:+ pretty k_max
              +:+ " > "
              +:+ pretty (length (_filter_tracks turn_preds (seen_at seed_tracks t)))
              +:+ ".")).
Proof.
  intros Hret Htp Ht Hgold Hndp Hndg Hmax Hshort.
  rewrite compute_metrics_per_turn_score in Hret |- *.
  assert (zip preds (seen_sets seed_tracks)
          = zip (take t preds) (seen_sets seed_tracks)
            ++ (turn_preds, seen_at seed_tracks t)
               :: zip (drop (S t) preds) (drop (S t) (seen_sets seed_tracks))) as ->.
  { rewrite <- (take_drop t (zip preds (seen_sets seed_tracks))) at 1.
    rewrite zip_with_take, zip_with_drop.
    rewrite zip_with_take_r' by (rewrite length_take; lia). f_equal.
    rewrite (drop_S preds turn_preds t Htp).
    rewrite (drop_S (seen_sets seed_tracks) (seen_at seed_tracks t) t
               (seen_sets_lookup seed_tracks t Ht)).
    reflexivity. }
  rewrite for_each_app. unfold mbind at 1, M_bind at 1. rewrite Hret.
  cbn [for_each outcome]. unfold mbind at 1, M_bind at 1.
  assert (outcome (score_turn gold k_values ret (turn_preds, seen_at seed_tracks t))
          = Raise (ValueError
                     ("k is larger than the number of retrieved preds, " +:+ pretty k_max
                      +:+ " > "
                      +:+ pretty (length (_filter_tracks turn_preds (seen_at seed_tracks t)))
                      +:+ "."))) as ->; [|reflexivity].
  unfold score_turn. rewrite decide_False by exact Hgold.
  unfold mbind at 1, M_bind at 1.
  assert (outcome (compute_metrics (_filter_tracks turn_preds (seen_at seed_tracks t))
                     (_filter_tracks gold (seen_at seed_tracks t)) k_values STANDARD_METRICS)
          = Raise (ValueError
                     ("k is larger than the number of retrieved preds, " +:+ pretty k_max
                      +:+ " > "
                      +:+ pretty (length (_filter_tracks turn_preds (seen_at seed_tracks t)))
                      +:+ "."))) as ->; [|reflexivity].
  unfold compute_metrics.
  rewrite (proj2 (_has_duplicates_false _)) by (apply NoDup_filter, Hndp).
  rewrite (proj2 (_has_duplicates_false _)) by (apply NoDup_filter, Hndg).
  rewrite existsb_unregistered_standard, Hmax, M_bind_lift_Ok.
  rewrite decide_True by exact Hshort. reflexivity.
Qed.

Lemma per_turn_short_predictions_witness :
  outcome (compute_metrics_per_turn [["A"; "B"]] ["A"] [[]] [1; 5])
  = Raise (ValueError "k is larger than the number of retrieved preds, 5 > 2.").
Proof.
  refine (per_turn_short_predictions [["A"; "B"]] ["A"] [[]] [1; 5] 0 ["A"; "B"] [] 5
            _ _ _ _ _ _ _ _); try reflexivity.
  - simpl. lia.
  - compute_done.
  - repeat constructor; set_solver.
  - repeat constructor; set_solver.
Defined.

(** ** The outcome of [score_dataset] *)

Lemma aggregate_metrics_keys max_turns dm agg agg' :
  outcome (for_each (aggregate_metric max_turns) dm agg) = Ok agg' ->
  dict_keys agg' = foldl key_insert (dict_keys agg) (dict_keys dm).
Proof.
  revert agg. induction dm as [|[metric_name vals] dm IH]; intros agg.
  - cbn. intros [= <-]. reflexivity.
  - cbn [for_each]. unfold aggregate_metric at 2.
    destruct (_PerTurnMetricSummary.update
                (default (_PerTurnMetricSummary.__init__ max_turns)
                         (dict_get agg metric_name)) vals) as [summ'|e].
    + rewrite M_bind_lift_Ok, M_bind_ret_l. intros H. rewrite (IH _ H).
      rewrite dict_keys_set. reflexivity.
    + cbn. discriminate.
Qed.

Lemma per_turn_result_keys preds gold seed_tracks k_values dm :
  outcome (compute_metrics_per_turn preds gold seed_tracks k_values) = Ok dm ->
  dm = [] \/ dict_keys dm = standard_keys k_values.
Proof.
  intros Hdm.
  pose proof (compute_metrics_per_turn_shape preds gold seed_tracks k_values) as Hshape.
  rewrite Hdm in Hshape. destruct Hshape as (_ & Hnone & Hsome).
  destruct (decide (scored_turns gold (zip preds (seen_sets seed_tracks)) = [])) as [Hs|Hs].
  - left. exact (Hnone Hs).
  - right. exact (Hsome Hs).
Qed.

Lemma dict_keys_nil {V} (d : dict V) : dict_keys d = [] -> d = [].
Proof. destruct d; [reflexivity|discriminate]. Qed.

(** One round of the loop over the dialogs. *)
Lemma score_dialog_rule gold seed_tracks k_values max_turns agg item :
  summaries_wf k_values agg ->
  match outcome (score_dialog gold seed_tracks k_values max_turns agg item) with
  | Ok agg' => summaries_wf k_values agg' /\ dialog_scored gold seed_tracks k_values item
  | Raise e => dialog_raises gold seed_tracks k_values item e
  end.
Proof.
  intros (Hndagg & Hnn & Hkeys). destruct item as [dialog_id dialog_preds].
  unfold score_dialog, getitem, dialog_raises, dialog_scored, dialog_result. cbn [fst snd].
  destruct (gold !! dialog_id) as [dialog_gold|] eqn:Hg; [|reflexivity].
  rewrite M_bind_lift_Ok.
  destruct (seed_tracks !! dialog_id) as [dialog_seed_tracks|] eqn:Hs; [|reflexivity].
  rewrite M_bind_lift_Ok. unfold mbind, M_bind.
  destruct (compute_metrics_per_turn dialog_preds dialog_gold dialog_seed_tracks k_values)
    as [c [dm|e]] eqn:Hcm; cbn [outcome calls]; [|reflexivity].
  assert (outcome (compute_metrics_per_turn dialog_preds dialog_gold
                     dialog_seed_tracks k_values) = Ok dm) as Hdm
    by (rewrite Hcm; reflexivity).
  destruct (per_turn_result_wf _ _ _ _ _ Hdm) as (Hnd & Hne & _).
  destruct (aggregate_metrics_rule max_turns dm agg Hnd Hne Hndagg Hnn)
    as (agg' & Hrun & Hnd' & Hget).
  assert (dict_keys agg' = foldl key_insert (dict_keys agg) (dict_keys dm)) as Hk.
  { apply (aggregate_metrics_keys max_turns). rewrite Hrun. reflexivity. }
  rewrite Hrun. cbn [outcome]. split.
  - split; [exact Hnd'|]. split.
    + intros name summ. rewrite Hget. destruct (dict_get dm name) as [vals|].
      * intros [= <-]. apply summary_rule_nonneg.
        destruct (dict_get agg name) as [s0|] eqn:Hs0; cbn [default].
        -- exact (Hnn _ _ Hs0).
        -- apply __init___nonneg.
      * apply Hnn.
    + destruct (per_turn_result_keys _ _ _ _ _ Hdm) as [->|Hdmk].
      * cbn in Hk. destruct Hkeys as [->|Hkeys].
        -- left. apply dict_keys_nil. exact Hk.
        -- right. rewrite Hk. exact Hkeys.
      * right. rewrite Hk, Hdmk. destruct Hkeys as [->|Hkeys].
        -- apply foldl_key_insert_nil, standard_keys_NoDup.
        -- rewrite Hkeys. apply foldl_key_insert_known. trivial.
  - exists dm, dialog_gold, dialog_seed_tracks. repeat split; assumption.
Qed.

(** The first loop of [score_dataset] stops at the first dialog that raises. *)
Lemma aggregate_dataset_outcome preds gold seed_tracks k_values max_turns :
  match outcome (aggregate_dataset preds gold seed_tracks k_values max_turns) with
  | Ok agg =>
      summaries_wf k_values agg /\ Forall (dialog_scored gold seed_tracks k_values) preds
  | Raise e =>
      exists done item rest,
        preds = done ++ item :: rest
        /\ Forall (dialog_scored gold seed_tracks k_values) done
        /\ dialog_raises gold seed_tracks k_values item e
  end.
Proof.
  unfold aggregate_dataset.
  apply (for_each_rule
           (fun pre agg =>
              summaries_wf k_values agg
              /\ Forall (dialog_scored gold seed_tracks k_values) pre)
           (fun _ => True)
           (fun e =>
              exists done item rest,
                preds = done ++ item :: rest
                /\ Forall (dialog_scored gold seed_tracks k_values) done
                /\ dialog_raises gold seed_tracks k_values item e)).
  - split; [|constructor]. split; [constructor|]. split; [discriminate|]. left. reflexivity.
  - intros pre item post agg Hxs [Hwf Hpre]. split; [apply Forall_forall; done|].
    pose proof (score_dialog_rule gold seed_tracks k_values max_turns agg item Hwf) as H.
    destruct (outcome (score_dialog gold seed_tracks k_values max_turns agg item))
      as [agg'|e].
    + destruct H as [Hwf' Hok]. split; [exact Hwf'|].
      apply Forall_app. split; [exact Hpre|]. constructor; [exact Hok|constructor].
    + exists pre, item, post. repeat split; assumption.
Qed.

Lemma score_dataset_outcome preds gold seed_tracks k_values max_turns :
  outcome (score_dataset preds gold seed_tracks k_values max_turns)
  = match outcome (aggregate_dataset preds gold seed_tracks k_values max_turns) with
    | Ok agg => Ok (report agg)
    | Raise e => Raise e
    end.
Proof.
  unfold score_dataset, mbind, M_bind.
  destruct (outcome (aggregate_dataset preds gold seed_tracks k_values max_turns));
    reflexivity.
Qed.

(** [score_dataset] returns exactly when every dialog of [preds] has its
    gold list and its seed tracks and is scored by
    [compute_metrics_per_turn]; otherwise it raises what the first dialog
    that is not raises: [KeyError] for the missing id, or the exception of
    [compute_metrics_per_turn].  Neither the aggregation nor the report
    raises anything. *)
Theorem score_dataset_raises_at_first_failure (preds : dict (list (list string)))
    (gold : gmap string (list string)) (seed_tracks : gmap string (list (list string)))
    (k_values : list Z) (max_turns : Z) :
  match outcome (score_dataset preds gold seed_tracks k_values max_turns) with
  | Ok _ => Forall (dialog_scored gold seed_tracks k_values) preds
  | Raise e =>
      exists done dialog_id dialog_preds rest,
        preds = done ++ (dialog_id, dialog_preds) :: rest
        /\ Forall (dialog_scored gold seed_tracks k_values) done
        /\ match gold !! dialog_id, seed_tracks !! dialog_id with
           | Some dialog_gold, Some dialog_seed_tracks =>
               outcome (compute_metrics_per_turn dialog_preds dialog_gold
                          dialog_seed_tracks k_values) = Raise e
           | _, _ => e = KeyError dialog_id
           end
  end.
Proof.
  rewrite score_dataset_outcome.
  pose proof (aggregate_dataset_outcome preds gold seed_tracks k_values max_turns) as H.
  destruct (outcome (aggregate_dataset preds gold seed_tracks k_values max_turns)) as [agg|e].
  - exact (proj2 H).
  - destruct H as (done & [dialog_id dialog_preds] & rest & Hp & Hdone & He).
    exists done, dialog_id, dialog_preds, rest. repeat split; assumption.
Qed.

(** ** The layout of the report *)

Lemma report_keys agg :
  NoDup (dict_keys agg) -> "counts" ∉ dict_keys agg ->
  dict_keys (report agg)
  = match dict_keys agg with
    | [] => []
    | first :: rest => first :: "counts" :: rest
    end.
Proof.
  induction agg as [|[name summ] agg IH] using rev_ind; [reflexivity|].
  unfold dict_keys in *. rewrite fmap_app, NoDup_app, not_elem_of_app.
  cbn [fmap list_fmap fst].
  intros (Hnd & Hdis & _) [Hc Hc'].
  apply not_elem_of_cons in Hc' as [Hc' _].
  assert (name ∉ agg.*1) as Hfresh by (intros Hin; apply (Hdis name Hin); left).
  rewrite report_snoc.
  pose proof (dict_keys_set (dict_set (report agg) name (values_row summ))
                "counts" (counts_row summ)) as H1.
  pose proof (dict_keys_set (report agg) name (values_row summ)) as H2.
  unfold dict_keys in H1, H2. rewrite H1, H2, (IH Hnd Hc). clear H1 H2 IH.
  destruct (agg.*1) as [|first rest]; unfold key_insert.
  - destruct (decide (name ∈ [])) as [Hin|_]; [inversion Hin|]. cbn [app].
    rewrite decide_False; [reflexivity|].
    intros Hin. apply list_elem_of_singleton in Hin. congruence.
  - destruct (decide (name ∈ first :: "counts" :: rest)) as [Hin|_].
    + exfalso. apply elem_of_cons in Hin as [->|Hin]; [apply Hfresh; left|].
      apply elem_of_cons in Hin as [->|Hin]; [congruence|]. apply Hfresh. right. exact Hin.
    + rewrite decide_True; [reflexivity|]. cbn [app]. right. left.
Qed.

Lemma key_insert_head first keys key :
  exists rest, key_insert (first :: keys) key = first :: rest.
Proof.
  unfold key_insert. destruct (decide (key ∈ first :: keys)); eexists; reflexivity.
Qed.

Lemma foldl_key_insert_head {A} (f : A -> string) xs first keys :
  exists rest, foldl (fun keys x => key_insert keys (f x)) (first :: keys) xs = first :: rest.
Proof.
  revert keys. induction xs as [|x xs IH]; intros keys; cbn [foldl].
  - eexists; reflexivity.
  - destruct (key_insert_head first keys (f x)) as [rest ->]. apply IH.
Qed.

Lemma metric_keys_head k_values metrics first keys :
  exists rest,
    foldl (fun keys metric =>
             foldl (fun keys k => key_insert keys (metric_key metric k)) keys k_values)
          (first :: keys) metrics
    = first :: rest.
Proof.
  revert keys. induction metrics as [|metric metrics IH]; intros keys.
  - eexists; reflexivity.
  - change (exists rest,
              foldl (fun keys metric =>
                       foldl (fun keys k => key_insert keys (metric_key metric k))
                             keys k_values)
                    (foldl (fun keys k => key_insert keys (metric_key metric k))
                           (first :: keys) k_values) metrics
              = first :: rest).
    destruct (foldl_key_insert_head (metric_key metric) k_values first keys) as [rest ->].
    apply IH.
Qed.

Lemma standard_keys_head k k_values :
  exists rest, standard_keys (k :: k_values) = metric_key "hit" k :: rest.
Proof.
  unfold standard_keys. rewrite metric_table_keys_fold, STANDARD_METRICS_eq.
  change (exists rest,
            foldl (fun keys metric =>
                     foldl (fun keys k0 => key_insert keys (metric_key metric k0))
                           keys (k :: k_values))
                  (foldl (fun keys k0 => key_insert keys (metric_key "hit" k0))
                         (key_insert [] (metric_key "hit" k)) k_values)
                  ["map"; "mrr"; "precision"; "recall"]
            = metric_key "hit" k :: rest).
  change (key_insert [] (metric_key "hit" k)) with [metric_key "hit" k].
  destruct (foldl_key_insert_head (metric_key "hit") k_values (metric_key "hit" k) [])
    as [rest ->].
  apply metric_keys_head.
Qed.

(** ** When the report is empty *)

(** Without a cutoff no turn can be scored: [max] raises on it. *)
Lemma per_turn_empty_cutoffs preds gold seed_tracks dm :
  outcome (compute_metrics_per_turn preds gold seed_tracks []) = Ok dm ->
  scored_turns gold (zip preds (seen_sets seed_tracks)) = [].
Proof.
  rewrite compute_metrics_per_turn_score. intros Hret.
  destruct (for_each_rule (fun pre _ => scored_turns gold pre = []) (fun _ => True)
              (fun _ => True) (score_turn gold []) (zip preds (seen_sets seed_tracks)) []
              eq_refl) as [_ H].
  - intros pre [turn_preds seen] post ret _ Hpre. split; [apply Forall_forall; done|].
    unfold score_turn.
    destruct (decide (_filter_tracks gold seen = [])) as [Hnil|Hne].
    + cbn [outcome mret M_ret]. rewrite scored_turns_snoc, Hpre.
      rewrite decide_True by exact Hnil. reflexivity.
    + unfold mbind, M_bind.
      pose proof (compute_metrics_spec (_filter_tracks turn_preds seen)
                    (_filter_tracks gold seen) [] STANDARD_METRICS) as [_ Hspec].
      destruct (outcome (compute_metrics (_filter_tracks turn_preds seen)
                           (_filter_tracks gold seen) [] STANDARD_METRICS)) as [tm|e];
        cbn [outcome]; [|exact I].
      destruct Hspec as (_ & _ & Hks & _). congruence.
  - rewrite Hret in H. exact H.
Qed.

(** A dialog's result is empty exactly when none of its turns is scored. *)
Lemma per_turn_result_empty_iff preds gold seed_tracks k_values dm :
  outcome (compute_metrics_per_turn preds gold seed_tracks k_values) = Ok dm ->
  dm = [] <-> scored_turns gold (zip preds (seen_sets seed_tracks)) = [].
Proof.
  intros Hdm.
  pose proof (compute_metrics_per_turn_shape preds gold seed_tracks k_values) as Hshape.
  rewrite Hdm in Hshape. destruct Hshape as (_ & Hnone & Hsome).
  split; [|exact Hnone]. intros ->.
  destruct (decide (scored_turns gold (zip preds (seen_sets seed_tracks)) = []))
    as [Hs|Hs]; [exact Hs|].
  specialize (Hsome Hs). destruct k_values as [|k k_values].
  - exact (per_turn_empty_cutoffs _ _ _ _ Hdm).
  - destruct (standard_keys_head k k_values) as [rest Hrest].
    rewrite Hrest in Hsome. discriminate Hsome.
Qed.

Lemma dict_set_not_nil {V} (d : dict V) key v : dict_set d key v <> [].
Proof. destruct d as [|[k w] d]; cbn [dict_set]; [|destruct (decide (k = key))]; discriminate. Qed.

Lemma report_nil_iff agg : report agg = [] <-> agg = [].
Proof.
  split; [|intros ->; reflexivity].
  destruct agg as [|item agg] using rev_ind; [reflexivity|].
  destruct item as [name summ]. rewrite report_snoc. intros H.
  destruct (dict_set_not_nil _ _ _ H).
Qed.

Lemma aggregate_dataset_scored preds gold seed_tracks k_values max_turns agg :
  outcome (aggregate_dataset preds gold seed_tracks k_values max_turns) = Ok agg ->
  (agg = [] /\ no_scored_turn gold seed_tracks preds)
  \/ (agg <> [] /\ some_scored_turn gold seed_tracks preds).
Proof.
  intros Hagg.
  pose proof (aggregate_dataset_rule preds gold seed_tracks k_values max_turns) as Hrule.
  rewrite Hagg in Hrule. destruct Hrule as (dms & Hdms & [_ Hlookup] & _).
  destruct agg as [|[name summ] agg].
  - left. split; [reflexivity|].
    intros dialog_id dialog_preds dialog_gold dialog_seed_tracks Hin Hg Hs.
    apply list_elem_of_lookup in Hin as [i Hi].
    destruct (Forall2_lookup_l _ _ _ _ _ Hdms Hi) as (dm & Hdm & g & s & Hg' & Hs' & Hret).
    cbn [fst snd] in Hg', Hs', Hret. rewrite Hg in Hg'. injection Hg' as <-.
    rewrite Hs in Hs'. injection Hs' as <-.
    apply (per_turn_result_empty_iff _ _ _ _ _ Hret).
    destruct dm as [|[metric_name values] dm]; [reflexivity|].
    assert (metric_lists metric_name dms <> []) as Hne.
    { apply metric_lists_nonempty. eexists _, values.
      split; [eapply list_elem_of_lookup_2, Hdm|].
      cbn [dict_get]. rewrite decide_True; reflexivity. }
    specialize (Hlookup metric_name). cbn [dict_get] in Hlookup.
    destruct (metric_lists metric_name dms); [congruence|discriminate].
  - right. split; [discriminate|].
    assert (metric_lists name dms <> []) as Hne.
    { specialize (Hlookup name). cbn [dict_get] in Hlookup.
      rewrite decide_True in Hlookup by reflexivity. intros Hnil.
      rewrite Hnil in Hlookup. discriminate. }
    apply metric_lists_nonempty in Hne as (dm & values & Hdm & Hget).
    apply list_elem_of_lookup in Hdm as [i Hi].
    destruct (Forall2_lookup_r _ _ _ _ _ Hdms Hi)
      as ([dialog_id dialog_preds] & Hitem & g & s & Hg & Hs & Hret).
    cbn [fst snd] in Hg, Hs, Hret.
    exists dialog_id, dialog_preds, g, s.
    split; [eapply list_elem_of_lookup_2, Hitem|]. split; [exact Hg|]. split; [exact Hs|].
    intros Hnil. apply (per_turn_result_empty_iff _ _ _ _ _ Hret) in Hnil.
    rewrite Hnil in Hget. discriminate.
Qed.

(** The report is empty exactly when no dialog had a scored turn. *)
Lemma score_dataset_scored preds gold seed_tracks k_values max_turns reported :
  outcome (score_dataset preds gold seed_tracks k_values max_turns) = Ok reported ->
  (reported = [] /\ no_scored_turn gold seed_tracks preds)
  \/ (reported <> [] /\ some_scored_turn gold seed_tracks preds).
Proof.
  intros Hret. apply score_dataset_returns in Hret as (agg & Hagg & ->).
  destruct (aggregate_dataset_scored _ _ _ _ _ _ Hagg) as [[-> Hno]|[Hne Hsome]].
  - left. split; [reflexivity|exact Hno].
  - right. split; [|exact Hsome]. intros H. apply report_nil_iff in H. contradiction.
Qed.

(** The rows of the report [score_dataset] returns: none exactly when no
    dialog had a scored turn; otherwise the keys of [compute_metrics] in
    their order, with ["counts"] put in second place, right behind
    ["hit@k"] for the first cutoff [k]. *)
Theorem report_rows (preds : dict (list (list string)))
    (gold : gmap string (list string)) (seed_tracks : gmap string (list (list string)))
    (k_values : list Z) (max_turns : Z) (reported : dict (list Qc)) :
  outcome (score_dataset preds gold seed_tracks k_values max_turns) = Ok reported ->
  (reported = [] /\ no_scored_turn gold seed_tracks preds)
  \/ (some_scored_turn gold seed_tracks preds
      /\ exists k rest,
           head k_values = Some k
           /\ standard_keys k_values = metric_key "hit" k :: rest
           /\ dict_keys reported = metric_key "hit" k :: "counts" :: rest).
Proof.
  intros Hret.
  destruct (score_dataset_scored _ _ _ _ _ _ Hret) as [Hno|[Hne Hsome]];
    [left; exact Hno|right].
  split; [exact Hsome|]. revert Hret Hne. rewrite score_dataset_outcome.
  pose proof (aggregate_dataset_outcome preds gold seed_tracks k_values max_turns) as H.
  destruct (outcome (aggregate_dataset preds gold seed_tracks k_values max_turns))
    as [agg|e]; [|discriminate].
  intros [= <-] Hne. destruct H as [(Hnd & _ & [->|Hkeys]) _]; [destruct Hne; reflexivity|].
  destruct k_values as [|k k_values].
  - apply dict_keys_nil in Hkeys. rewrite Hkeys in Hne. destruct Hne. reflexivity.
  - destruct (standard_keys_head k k_values) as [rest Hrest].
    exists k, rest. split; [reflexivity|]. split; [exact Hrest|].
    rewrite report_keys; [rewrite Hkeys, Hrest; reflexivity|exact Hnd|].
    rewrite Hkeys. apply standard_keys_not_counts.
Qed.

(** Two dialogs with one scored turn each: the report has its rows, the
    counts second. *)
Lemma report_rows_witness :
  exists reported rest,
    outcome (score_dataset [("d1", [["X"; "A"; "B"]]); ("d2", [["X"; "A"; "B"]])]
               (list_to_map [("d1", ["X"; "Y"]); ("d2", ["X"; "Y"])])
               (list_to_map [("d1", [[]]); ("d2", [[]])]) [1; 2] 3) = Ok reported
    /\ some_scored_turn (list_to_map [("d1", ["X"; "Y"]); ("d2", ["X"; "Y"])])
         (list_to_map [("d1", [[]]); ("d2", [[]])])
         [("d1", [["X"; "A"; "B"]]); ("d2", [["X"; "A"; "B"]])]
    /\ dict_keys reported = "hit@1" :: "counts" :: rest.
Proof.
  destruct (outcome (score_dataset [("d1", [["X"; "A"; "B"]]); ("d2", [["X"; "A"; "B"]])]
                       (list_to_map [("d1", ["X"; "Y"]); ("d2", ["X"; "Y"])])
                       (list_to_map [("d1", [[]]); ("d2", [[]])]) [1; 2] 3))
    as [reported|e] eqn:Hret; [|vm_compute in Hret; discriminate Hret].
  destruct (report_rows _ _ _ _ _ reported Hret)
    as [[-> _]|(Hsome & k & rest & Hk & _ & Hkeys)].
  - vm_compute in Hret. discriminate Hret.
  - injection Hk as <-. exists reported, rest. split; [reflexivity|].
    split; [exact Hsome|exact Hkeys].
Defined.

(** ** Loops and comprehensions in [res] *)

Lemma res_bind_Ok {A B} (m : res A) (f : A -> res B) b :
  m ≫= f = Ok b <-> exists a, m = Ok a /\ f a = Ok b.
Proof.
  destruct m as [a|e]; cbn.
  - split; [intros H; exists a; split; [reflexivity|exact H]|intros (a' & [= <-] & H); exact H].
  - split; [discriminate|intros (a & [=] & _)].
Qed.

Lemma res_bind_Raise {A B} (m : res A) (f : A -> res B) e :
  m ≫= f = Raise e <-> m = Raise e \/ exists a, m = Ok a /\ f a = Raise e.
Proof.
  destruct m as [a|e']; cbn.
  - split; [intros H; right; exists a; split; [reflexivity|exact H]|].
    intros [[=]|(a' & [= <-] & H)]; exact H.
  - split; [intros [= <-]; left; reflexivity|]. intros [[= <-]|(a & [=] & _)]; reflexivity.
Qed.

Lemma res_bind_ret_l {A B} (a : A) (f : A -> res B) : (mret a ≫= f) = f a.
Proof. reflexivity. Qed.

Lemma res_mapM_cons {A B} (f : A -> res B) x l :
  mapM f (x :: l) = y ← f x; k ← mapM f l; mret (y :: k).
Proof. reflexivity. Qed.

Lemma res_mapM_app {A B} (f : A -> res B) l1 l2 :
  mapM f (l1 ++ l2) = k1 ← mapM f l1; k2 ← mapM f l2; mret (k1 ++ k2).
Proof.
  induction l1 as [|x l1 IH].
  - cbn [app]. change (mapM f []) with (Ok (@nil B)). cbn.
    destruct (mapM f l2); reflexivity.
  - cbn [app]. rewrite !res_mapM_cons, IH. destruct (f x) as [y|e]; cbn; [|reflexivity].
    destruct (mapM f l1) as [k1|e]; cbn; [|reflexivity].
    destruct (mapM f l2) as [k2|e]; reflexivity.
Qed.

Lemma res_mapM_Ok {A B} (f : A -> res B) l k :
  mapM f l = Ok k <-> Forall2 (fun x y => f x = Ok y) l k.
Proof.
  revert k. induction l as [|x l IH]; intros k.
  - change (mapM f []) with (Ok (@nil B)). split.
    + intros [= <-]. constructor.
    + intros H. inversion H. reflexivity.
  - rewrite res_mapM_cons. split.
    + intros H. apply res_bind_Ok in H as (y & Hy & H).
      apply res_bind_Ok in H as (k' & Hk' & [= <-]).
      constructor; [exact Hy|apply IH, Hk'].
    + intros H. inversion H as [|? y ? k' Hy Hk']; subst.
      rewrite Hy. cbn. rewrite (proj2 (IH k') Hk'). reflexivity.
Qed.

(** A list comprehension raises what its first failing element raises. *)
Lemma res_mapM_Raise {A B} (f : A -> res B) l e :
  mapM f l = Raise e <->
  exists pre x post k, l = pre ++ x :: post /\ mapM f pre = Ok k /\ f x = Raise e.
Proof.
  split.
  - induction l as [|x l IH]; [discriminate|].
    rewrite res_mapM_cons. intros H. apply res_bind_Raise in H as [H|(y & Hy & H)].
    + exists [], x, l, []. repeat split. exact H.
    + apply res_bind_Raise in H as [H|(k & _ & [=])].
      destruct (IH H) as (pre & x' & post & k & -> & Hpre & Hx').
      exists (x :: pre), x', post, (y :: k). split; [reflexivity|]. split; [|exact Hx'].
      rewrite res_mapM_cons, Hy, Hpre. reflexivity.
  - intros (pre & x & post & k & -> & Hpre & Hx).
    rewrite res_mapM_app, Hpre, res_mapM_cons, Hx. reflexivity.
Qed.

(** The invariant rule for loops in [res]. *)
Lemma for_each_res_rule {S X} (Inv : list X -> S -> Prop) (E : exn -> Prop)
    (body : S -> X -> res S) (xs : list X) (s0 : S) :
  Inv [] s0 ->
  (forall pre x post s, xs = pre ++ x :: post -> Inv pre s ->
     match body s x with
     | Ok s' => Inv (pre ++ [x]) s'
     | Raise e => E e
     end) ->
  match for_each_res body xs s0 with
  | Ok s' => Inv xs s'
  | Raise e => E e
  end.
Proof.
  intros H0 Hstep.
  assert (forall rest pre s, xs = pre ++ rest -> Inv pre s ->
            match for_each_res body rest s with
            | Ok s' => Inv xs s'
            | Raise e => E e
            end) as Hgen.
  { induction rest as [|x rest IH]; intros pre s Hxs Hinv; cbn [for_each_res].
    - rewrite app_nil_r in Hxs. subst pre. exact Hinv.
    - pose proof (Hstep pre x rest s Hxs Hinv) as Hb.
      destruct (body s x) as [s'|e]; cbn; [|exact Hb].
      apply (IH (pre ++ [x]) s'); [rewrite <- app_assoc; exact Hxs|exact Hb]. }
  apply (Hgen xs [] s0); [reflexivity|exact H0].
Qed.

Lemma dict_set_fresh {V} (d : dict V) key v :
  key ∉ dict_keys d -> dict_set d key v = d ++ [(key, v)].
Proof.
  unfold dict_keys. induction d as [|[k v'] d IH]; intros Hk; [reflexivity|].
  rewrite fmap_cons in Hk. apply not_elem_of_cons in Hk as [Hne Hk]. cbn [fst] in Hne.
  cbn [dict_set]. rewrite decide_False by congruence. rewrite IH by exact Hk. reflexivity.
Qed.

Lemma dict_set_set {V} (d : dict V) key v v' :
  dict_set (dict_set d key v) key v' = dict_set d key v'.
Proof.
  induction d as [|[k w] d IH]; cbn [dict_set].
  - rewrite decide_True by reflexivity. reflexivity.
  - destruct (decide (k = key)) as [->|Hne]; cbn [dict_set].
    + rewrite decide_True by reflexivity. reflexivity.
    + rewrite decide_False by exact Hne. rewrite IH. reflexivity.
Qed.

(** A comprehension over a dictionary keeps its keys and their order. *)
Lemma foldl_dict_set_map {V W} (g : V -> W) (d : dict V) (acc : dict W) :
  NoDup (dict_keys acc ++ dict_keys d) ->
  foldl (fun out item => dict_set out item.1 (g item.2)) acc d
  = acc ++ ((fun item => (item.1, g item.2)) <$> d).
Proof.
  revert acc. induction d as [|[k v] d IH]; intros acc Hnd; cbn [foldl].
  - rewrite app_nil_r. reflexivity.
  - unfold dict_keys in Hnd. rewrite fmap_cons in Hnd. cbn [fst snd] in *.
    assert (k ∉ dict_keys acc) as Hk.
    { apply NoDup_app in Hnd as (_ & Hdis & _). intros Hin. apply (Hdis k Hin). left. }
    rewrite (dict_set_fresh acc k (g v) Hk). rewrite IH.
    + rewrite fmap_cons, <- app_assoc. reflexivity.
    + unfold dict_keys. rewrite fmap_app, <- app_assoc. exact Hnd.
Qed.

(** ** [convert_to_cluster_ids] *)

Lemma foldl_key_insert_snoc acc l x :
  foldl key_insert acc (l ++ [x]) = key_insert (foldl key_insert acc l) x.
Proof. rewrite foldl_app. reflexivity. Qed.

Lemma foldl_key_insert_NoDup acc l : NoDup acc -> NoDup (foldl key_insert acc l).
Proof.
  revert acc. induction l as [|x l IH]; intros acc Hacc; cbn [foldl]; [exact Hacc|].
  apply IH, key_insert_NoDup, Hacc.
Qed.

Lemma foldl_key_insert_length acc l :
  (length (foldl key_insert acc l) <= length acc + length l)%nat.
Proof.
  revert acc. induction l as [|x l IH]; intros acc; cbn [foldl length]; [lia|].
  etransitivity; [apply IH|]. unfold key_insert.
  destruct (decide (x ∈ acc)); [lia|]. rewrite length_app. cbn [length]. lia.
Qed.

Lemma elem_of_foldl_key_insert acc l x :
  x ∈ foldl key_insert acc l <-> x ∈ acc \/ x ∈ l.
Proof.
  revert acc. induction l as [|y l IH]; intros acc; cbn [foldl].
  - split; [left; assumption|]. intros [H|H]; [exact H|inversion H].
  - rewrite IH, elem_of_key_insert, elem_of_cons. tauto.
Qed.

(** Inserting into a list that holds keys already: the new keys go behind,
    in the order they have on their own. *)
Lemma foldl_key_insert_onto (acc l : list string) :
  foldl key_insert acc l = acc ++ filter (fun x => x ∉ acc) (foldl key_insert [] l).
Proof.
  induction l as [|x l IH] using rev_ind.
  - cbn. rewrite app_nil_r. reflexivity.
  - rewrite !foldl_key_insert_snoc, IH. set (D := foldl key_insert [] l).
    unfold key_insert at 2. destruct (decide (x ∈ D)) as [HD|HD].
    + unfold key_insert. rewrite decide_True; [reflexivity|].
      destruct (decide (x ∈ acc)) as [Ha|Ha]; apply elem_of_app; [left; exact Ha|].
      right. apply list_elem_of_filter. split; assumption.
    + rewrite filter_app, filter_cons, filter_nil. unfold key_insert.
      destruct (decide (x ∉ acc)) as [Ha|Ha].
      * rewrite decide_False; [rewrite <- app_assoc; reflexivity|].
        rewrite elem_of_app, list_elem_of_filter. tauto.
      * rewrite decide_True; [rewrite app_nil_r; reflexivity|].
        apply elem_of_app. left. destruct (decide (x ∈ acc)); [assumption|contradiction].
Qed.

Lemma lookup_clusters_cons tracks track_id track_ids :
  lookup_clusters tracks (track_id :: track_ids)
  = track ← getitem tracks track_id;
    clusters ← lookup_clusters tracks track_ids;
    mret (data.track_cluster_ids track :: clusters).
Proof.
  unfold lookup_clusters. rewrite res_mapM_cons.
  destruct (getitem tracks track_id); reflexivity.
Qed.

(** The loop, from any state whose set holds the ids listed so far. *)
Lemma convert_loop tracks track_ids cluster_ids :
  for_each_res (convert_track tracks) track_ids (cluster_ids, list_to_set cluster_ids)
  = clusters ← lookup_clusters tracks track_ids;
    mret (foldl key_insert cluster_ids clusters,
          list_to_set (foldl key_insert cluster_ids clusters)).
Proof.
  revert cluster_ids. induction track_ids as [|track_id track_ids IH]; intros cluster_ids.
  - reflexivity.
  - rewrite lookup_clusters_cons. cbn [for_each_res]. unfold convert_track at 2.
    destruct (getitem tracks track_id) as [track|e]; [|reflexivity].
    rewrite !res_bind_ret_l. set (cluster_id := data.track_cluster_ids track).
    assert (forall clusters,
              foldl key_insert cluster_ids (cluster_id :: clusters)
              = foldl key_insert (key_insert cluster_ids cluster_id) clusters) as Hfold
      by reflexivity.
    destruct (decide (cluster_id ∈ (list_to_set cluster_ids : gset string))) as [Hin|Hin];
      rewrite elem_of_list_to_set in Hin; rewrite res_bind_ret_l.
    + rewrite IH. destruct (lookup_clusters tracks track_ids) as [clusters|e]; [|reflexivity].
      rewrite !res_bind_ret_l, Hfold.
      assert (key_insert cluster_ids cluster_id = cluster_ids) as ->; [|reflexivity].
      unfold key_insert. rewrite decide_True by exact Hin. reflexivity.
    + assert ((list_to_set cluster_ids : gset string) ∪ {[cluster_id]}
              = list_to_set (cluster_ids ++ [cluster_id])) as ->.
      { apply set_eq. intros x.
        rewrite elem_of_union, !elem_of_list_to_set, elem_of_app, elem_of_singleton,
          list_elem_of_singleton. reflexivity. }
      rewrite IH. destruct (lookup_clusters tracks track_ids) as [clusters|e]; [|reflexivity].
      rewrite !res_bind_ret_l, Hfold.
      assert (key_insert cluster_ids cluster_id = cluster_ids ++ [cluster_id]) as ->;
        [|reflexivity].
      unfold key_insert. rewrite decide_False by exact Hin. reflexivity.
Qed.

(** [convert_to_cluster_ids] looks every track up, then keeps the first
    occurrence of each cluster id. *)
Lemma convert_to_cluster_ids_unfold track_ids tracks :
  convert_to_cluster_ids track_ids tracks
  = clusters ← lookup_clusters tracks track_ids; mret (foldl key_insert [] clusters).
Proof.
  unfold convert_to_cluster_ids.
  change (∅ : gset string) with (list_to_set (@nil string) : gset string).
  rewrite convert_loop. destruct (lookup_clusters tracks track_ids); reflexivity.
Qed.

Lemma getitem_Ok {V} (d : gmap string V) key v : getitem d key = Ok v <-> d !! key = Some v.
Proof. unfold getitem. destruct (d !! key); split; congruence. Qed.

Lemma getitem_Raise {V} (d : gmap string V) key e :
  getitem d key = Raise e <-> d !! key = None /\ e = KeyError key.
Proof.
  unfold getitem. destruct (d !! key); split; try discriminate.
  - intros [[=] _].
  - intros [= <-]. split; reflexivity.
  - intros [_ ->]. reflexivity.
Qed.

Lemma lookup_clusters_Ok tracks track_ids clusters :
  lookup_clusters tracks track_ids = Ok clusters
  <-> Forall2 (fun track_id cluster_id =>
                 exists track, tracks !! track_id = Some track
                               /\ data.track_cluster_ids track = cluster_id)
              track_ids clusters.
Proof.
  unfold lookup_clusters. rewrite res_mapM_Ok.
  split; intros H; apply (Forall2_impl _ _ _ _ H); intros track_id cluster_id;
    unfold getitem; destruct (tracks !! track_id) as [track|]; cbn.
  - intros [= <-]. exists track. split; reflexivity.
  - discriminate.
  - intros (track' & [= <-] & <-). reflexivity.
  - intros (track' & [=] & _).
Qed.

Lemma convert_to_cluster_ids_NoDup track_ids tracks cluster_ids :
  convert_to_cluster_ids track_ids tracks = Ok cluster_ids -> NoDup cluster_ids.
Proof.
  rewrite convert_to_cluster_ids_unfold. intros H.
  apply res_bind_Ok in H as (clusters & _ & [= <-]).
  apply foldl_key_insert_NoDup. constructor.
Qed.

Lemma convert_to_cluster_ids_KeyError track_ids tracks e :
  convert_to_cluster_ids track_ids tracks = Raise e ->
  exists known track_id rest,
    track_ids = known ++ track_id :: rest
    /\ Forall (fun track_id => is_Some (tracks !! track_id)) known
    /\ tracks !! track_id = None
    /\ e = KeyError track_id.
Proof.
  rewrite convert_to_cluster_ids_unfold. intros H.
  apply res_bind_Raise in H as [H|(clusters & _ & [=])].
  apply res_mapM_Raise in H as (known & track_id & rest & k & -> & Hk & Hx).
  exists known, track_id, rest. split; [reflexivity|].
  apply res_bind_Raise in Hx as [Hx|(track & _ & [=])].
  apply getitem_Raise in Hx as [Hnone ->]. split; [|split; [exact Hnone|reflexivity]].
  apply (proj1 (lookup_clusters_Ok tracks known k)) in Hk.
  apply Forall_forall. intros track_id' Hin.
  apply list_elem_of_lookup in Hin as [i Hi].
  destruct (Forall2_lookup_l _ _ _ _ _ Hk Hi) as (c & _ & track & Ht & _).
  eexists. exact Ht.
Qed.

(** [convert_to_cluster_ids] raises [KeyError] for the first track id that
    [tracks] lacks, and nothing else; when it returns, no cluster id is
    listed twice, and the cluster ids listed are exactly those of the
    tracks given. *)
Theorem convert_to_cluster_ids_outcome (track_ids : list string)
    (tracks : gmap string data.Track) :
  match convert_to_cluster_ids track_ids tracks with
  | Ok cluster_ids =>
      NoDup cluster_ids
      /\ Forall (fun track_id => is_Some (tracks !! track_id)) track_ids
      /\ (length cluster_ids <= length track_ids)%nat
      /\ forall cluster_id,
           cluster_id ∈ cluster_ids
           <-> exists track_id track,
                 track_id ∈ track_ids /\ tracks !! track_id = Some track
                 /\ data.track_cluster_ids track = cluster_id
  | Raise e =>
      exists known track_id rest,
        track_ids = known ++ track_id :: rest
        /\ Forall (fun track_id => is_Some (tracks !! track_id)) known
        /\ tracks !! track_id = None
        /\ e = KeyError track_id
  end.
Proof.
  destruct (convert_to_cluster_ids track_ids tracks) as [cluster_ids|e] eqn:Hc;
    [|exact (convert_to_cluster_ids_KeyError _ _ _ Hc)].
  split; [exact (convert_to_cluster_ids_NoDup _ _ _ Hc)|].
  rewrite convert_to_cluster_ids_unfold in Hc.
  apply res_bind_Ok in Hc as (clusters & Hl & [= <-]).
  apply (proj1 (lookup_clusters_Ok _ _ _)) in Hl.
  split; [|split].
  - apply Forall_forall. intros track_id Hin. apply list_elem_of_lookup in Hin as [i Hi].
    destruct (Forall2_lookup_l _ _ _ _ _ Hl Hi) as (c & _ & track & Ht & _).
    eexists. exact Ht.
  - rewrite (Forall2_length _ _ _ Hl).
    apply (foldl_key_insert_length [] clusters).
  - intros cluster_id. rewrite elem_of_foldl_key_insert. split.
    + intros [H|H]; [inversion H|]. apply list_elem_of_lookup in H as [i Hi].
      destruct (Forall2_lookup_r _ _ _ _ _ Hl Hi) as (track_id & Hid & track & Ht & Hc).
      exists track_id, track. split; [eapply list_elem_of_lookup_2, Hid|]. split; assumption.
    + intros (track_id & track & Hin & Ht & Hc). right.
      apply list_elem_of_lookup in Hin as [i Hi].
      destruct (Forall2_lookup_l _ _ _ _ _ Hl Hi) as (c & Hci & track' & Ht' & Hc').
      rewrite Ht in Ht'. injection Ht' as <-. rewrite Hc in Hc'. subst c.
      eapply list_elem_of_lookup_2, Hci.
Qed.

(** The order of the result: converting a concatenation is converting the
    front, then appending the cluster ids of the back that the front did not
    give; and track ids whose cluster ids are all different are converted
    to these, one for one. *)
Theorem convert_to_cluster_ids_order (tracks : gmap string data.Track) :
  (forall front back,
     convert_to_cluster_ids (front ++ back) tracks
     = front_ids ← convert_to_cluster_ids front tracks;
       back_ids ← convert_to_cluster_ids back tracks;
       mret (front_ids ++ filter (fun cluster_id => cluster_id ∉ front_ids) back_ids))
  /\ (forall track_ids clusters,
        lookup_clusters tracks track_ids = Ok clusters -> NoDup clusters ->
        convert_to_cluster_ids track_ids tracks = Ok clusters).
Proof.
  split.
  - intros front back. rewrite !convert_to_cluster_ids_unfold. unfold lookup_clusters.
    rewrite res_mapM_app.
    destruct (mapM _ front) as [k1|e]; [|reflexivity].
    destruct (mapM _ back) as [k2|e]; [|reflexivity].
    rewrite !res_bind_ret_l, foldl_app, foldl_key_insert_onto. reflexivity.
  - intros track_ids clusters Hl Hnd. rewrite convert_to_cluster_ids_unfold, Hl.
    rewrite res_bind_ret_l, foldl_key_insert_nil by exact Hnd. reflexivity.
Qed.

(** ** [get_gold_results] and [get_seed_tracks] *)

Lemma dict_get_fmap {V W} (g : V -> W) (d : dict V) key :
  dict_get ((fun item => (item.1, g item.2)) <$> d) key = g <$> dict_get d key.
Proof.
  induction d as [|[k v] d IH]; [reflexivity|].
  rewrite fmap_cons. cbn [dict_get fst snd]. destruct (decide (k = key)); [reflexivity|exact IH].
Qed.

Lemma dict_keys_fmap {V W} (g : V -> W) (d : dict V) :
  dict_keys ((fun item => (item.1, g item.2)) <$> d) = dict_keys d.
Proof.
  unfold dict_keys. rewrite <- list_fmap_compose. apply list_fmap_ext.
  intros i [k v] _. reflexivity.
Qed.

Lemma get_gold_results_map dialogs :
  NoDup (dict_keys dialogs) ->
  get_gold_results dialogs = (fun item => (item.1, data.goal_playlist item.2)) <$> dialogs.
Proof.
  intros Hnd. unfold get_gold_results.
  apply (foldl_dict_set_map data.goal_playlist dialogs []). exact Hnd.
Qed.

(** The inner loop appends to the entry of the dialog and never raises. *)
Lemma append_seed_tracks_loop dialog_id n turns seed_tracks seeds :
  dict_get seed_tracks dialog_id = Some seeds ->
  for_each_res (append_seed_tracks dialog_id n) turns seed_tracks
  = Ok (dict_set seed_tracks dialog_id
          (seeds ++ ((fun turn => slice_to (data.liked_results turn) n) <$> turns))).
Proof.
  revert seed_tracks seeds. induction turns as [|turn turns IH]; intros seed_tracks seeds Hget.
  - cbn. rewrite app_nil_r. f_equal. revert Hget.
    induction seed_tracks as [|[k v] d IHd]; cbn [dict_get dict_set]; [discriminate|].
    destruct (decide (k = dialog_id)); [intros [= ->]; reflexivity|].
    intros H. rewrite <- (IHd H). reflexivity.
  - cbn [for_each_res]. unfold append_seed_tracks at 2, dict_getitem. rewrite Hget.
    rewrite !res_bind_ret_l.
    rewrite (IH _ (seeds ++ [slice_to (data.liked_results turn) n]))
      by apply dict_get_set_eq.
    rewrite dict_set_set, fmap_cons, <- app_assoc. reflexivity.
Qed.

Lemma seed_dialog_set n seed_tracks item :
  seed_dialog n seed_tracks item = Ok (dict_set seed_tracks item.1 (dialog_seeds n item.2)).
Proof.
  unfold seed_dialog.
  rewrite (append_seed_tracks_loop item.1 n _ _ [[]]) by apply dict_get_set_eq.
  rewrite dict_set_set. reflexivity.
Qed.

(** [get_seed_tracks] never raises: the entry it appends to is there. *)
Lemma get_seed_tracks_fold dialogs n :
  get_seed_tracks dialogs n
  = Ok (foldl (fun d item => dict_set d item.1 (dialog_seeds n item.2)) [] dialogs).
Proof.
  unfold get_seed_tracks. generalize (@nil (string * list (list string))).
  induction dialogs as [|item dialogs IH]; intros acc; [reflexivity|].
  cbn [for_each_res foldl]. rewrite seed_dialog_set, res_bind_ret_l. apply IH.
Qed.

Lemma get_seed_tracks_map dialogs n :
  NoDup (dict_keys dialogs) ->
  get_seed_tracks dialogs n = Ok ((fun item => (item.1, dialog_seeds n item.2)) <$> dialogs).
Proof.
  intros Hnd. rewrite get_seed_tracks_fold. f_equal.
  apply (foldl_dict_set_map (dialog_seeds n) dialogs []). exact Hnd.
Qed.

Lemma slice_to_minus_1 {A} (l : list A) : slice_to l (-1) = take (length l - 1) l.
Proof. reflexivity. Qed.

(** For dialogs under distinct ids, [get_seed_tracks] returns, under the
    same ids in the same order, one list of seed tracks per turn (one for a
    dialog without turns): none for the first turn, and for each later turn
    the first [num_previous_tracks] liked results of the turn before it.
    The liked results of the last turn are not used. *)
Theorem get_seed_tracks_per_turn (dialogs : dict data.Dialog) (num_previous_tracks : Z) :
  NoDup (dict_keys dialogs) ->
  exists seed_tracks,
    get_seed_tracks dialogs num_previous_tracks = Ok seed_tracks
    /\ dict_keys seed_tracks = dict_keys dialogs
    /\ forall dialog_id dialog,
         dict_get dialogs dialog_id = Some dialog ->
         exists seeds,
           dict_get seed_tracks dialog_id = Some seeds
           /\ length seeds = (1 `max` length (data.turns dialog))%nat
           /\ seeds !! 0%nat = Some []
           /\ forall t turn,
                data.turns dialog !! t = Some turn ->
                (S t < length (data.turns dialog))%nat ->
                seeds !! S t
                = Some (slice_to (data.liked_results turn) num_previous_tracks).
Proof.
  intros Hnd. eexists. split; [apply get_seed_tracks_map, Hnd|].
  split; [apply dict_keys_fmap|].
  intros dialog_id dialog Hget. exists (dialog_seeds num_previous_tracks dialog).
  split; [rewrite dict_get_fmap, Hget; reflexivity|].
  unfold dialog_seeds. rewrite slice_to_minus_1. split; [|split; [reflexivity|]].
  - cbn [length]. rewrite length_fmap, length_take. lia.
  - intros t turn Ht Hlt. cbn [lookup list_lookup].
    change ((((fun turn0 => slice_to (data.liked_results turn0) num_previous_tracks)
              <$> take (length (data.turns dialog) - 1) (data.turns dialog)) !! t)
            = Some (slice_to (data.liked_results turn) num_previous_tracks)).
    rewrite list_lookup_fmap, lookup_take_lt by lia. rewrite Ht. reflexivity.
Qed.

Lemma get_seed_tracks_per_turn_witness :
  exists seed_tracks,
    get_seed_tracks
      [("d", data.Build_Dialog "d"
               [data.Build_Turn "q0" "r0" [] [] ["t1"; "t2"; "t3"; "t4"] [];
                data.Build_Turn "q1" "r1" [] [] ["t5"] ["t6"]]
               [] ["t1"; "t5"])] 3 = Ok seed_tracks
    /\ dict_get seed_tracks "d" = Some [[]; ["t1"; "t2"; "t3"]].
Proof.
  destruct (get_seed_tracks_per_turn
              [("d", data.Build_Dialog "d"
                       [data.Build_Turn "q0" "r0" [] [] ["t1"; "t2"; "t3"; "t4"] [];
                        data.Build_Turn "q1" "r1" [] [] ["t5"] ["t6"]]
                       [] ["t1"; "t5"])] 3) as (seed_tracks & Hret & _ & _).
  - repeat constructor. set_solver.
  - exists seed_tracks. split; [exact Hret|].
    vm_compute in Hret. injection Hret as <-. reflexivity.
Defined.

(** ** [compute_metrics] on the input the scorers give it *)

Lemma compute_metrics_positive_cutoffs preds gold k_values k_max :
  NoDup preds -> NoDup gold -> gold <> [] ->
  py_max k_values = Ok k_max -> (forall k, k ∈ k_values -> 1 <= k) ->
  outcome (compute_metrics preds gold k_values STANDARD_METRICS)
  = if decide (Z.of_nat (length preds) < k_max)
    then Raise (k_too_large k_max (length preds))
    else Ok (metric_table gold preds k_values STANDARD_METRICS).
Proof.
  intros Hndp Hndg Hgold Hmax Hpos. unfold compute_metrics.
  rewrite (proj2 (_has_duplicates_false _)) by exact Hndp.
  rewrite (proj2 (_has_duplicates_false _)) by exact Hndg.
  rewrite existsb_unregistered_standard, Hmax, M_bind_lift_Ok.
  destruct (decide (Z.of_nat (length preds) < k_max)) as [Hlt|Hge]; [reflexivity|].
  destruct (metric_rounds_rule (fun _ => False) preds gold k_values STANDARD_METRICS)
    as [_ Hout].
  - intros metric Hm. apply registered_iff, Hm.
  - intros metric k fn _ Hk Hfn.
    destruct (metric_fn_returns metric fn gold preds k Hfn Hgold) as [v ->]; [|exact I].
    split; [apply Hpos, Hk|]. destruct (py_max_spec _ _ Hmax) as [_ Hle].
    specialize (Hle k Hk). lia.
  - destruct (outcome (for_each (metric_rounds preds gold k_values) STANDARD_METRICS []))
      as [d|e]; [|destruct Hout].
    destruct Hout as [-> _]. reflexivity.
Qed.

(** With predictions and gold free of duplicates, gold not empty and every
    cutoff between 1 and the number of predictions, [compute_metrics]
    returns, with one entry per standard metric and cutoff: no division by
    zero is left. *)
Theorem compute_metrics_returns (preds gold : list string) (k_values : list Z) :
  NoDup preds -> NoDup gold -> gold <> [] -> k_values <> [] ->
  (forall k, k ∈ k_values -> 1 <= k <= Z.of_nat (length preds)) ->
  exists metric_vals,
    outcome (compute_metrics preds gold k_values STANDARD_METRICS) = Ok metric_vals
    /\ dict_keys metric_vals = standard_keys k_values
    /\ forall metric k,
         metric ∈ STANDARD_METRICS -> k ∈ k_values ->
         exists v, dict_get metric_vals (metric_key metric k) = Some v.
Proof.
  intros Hndp Hndg Hgold Hks Hk.
  destruct (py_max k_values) as [k_max|e] eqn:Hmax;
    [|destruct k_values; [congruence|discriminate]].
  exists (metric_table gold preds k_values STANDARD_METRICS).
  split; [|split].
  - rewrite (compute_metrics_positive_cutoffs preds gold k_values k_max)
      by (try assumption; intros k Hin; apply Hk, Hin).
    rewrite decide_False; [reflexivity|].
    destruct (py_max_spec _ _ Hmax) as [Hin _]. specialize (Hk _ Hin). lia.
  - apply metric_table_standard_keys.
  - intros metric k Hm Hin. eexists. apply metric_table_lookup; [trivial|exact Hm|exact Hin].
Qed.

Lemma compute_metrics_returns_witness :
  exists metric_vals,
    outcome (compute_metrics ["X"; "A"; "B"] ["X"; "Y"] [1; 2] STANDARD_METRICS)
    = Ok metric_vals
    /\ dict_keys metric_vals = standard_keys [1; 2].
Proof.
  destruct (compute_metrics_returns ["X"; "A"; "B"] ["X"; "Y"] [1; 2])
    as (metric_vals & Hret & Hkeys & _).
  - repeat constructor; set_solver.
  - repeat constructor; set_solver.
  - discriminate.
  - discriminate.
  - intros k Hk. cbn [length]. set_unfold in Hk. lia.
  - exists metric_vals. split; assumption.
Defined.

(** ** [main] *)

Lemma dict_set_Forall {V} (P : V -> Prop) (d : dict V) key v :
  Forall (fun item => P item.2) d -> P v -> Forall (fun item => P item.2) (dict_set d key v).
Proof.
  intros Hd Hv. induction d as [|[k w] d IH]; cbn [dict_set].
  - constructor; [exact Hv|constructor].
  - apply Forall_cons in Hd as [Hw Hd]. destruct (decide (k = key)).
    + constructor; [exact Hv|exact Hd].
    + constructor; [exact Hw|apply IH, Hd].
Qed.

(** Every value of a comprehension is a result of [f]; the comprehension
    raises what [f] raises. *)
Lemma dict_comprehension_rule {V W} (f : V -> res W) (d : dict V) :
  match dict_comprehension f d with
  | Ok out => Forall (fun item => exists v, f v = Ok item.2) out
  | Raise e => exists v, f v = Raise e
  end.
Proof.
  unfold dict_comprehension.
  apply (for_each_res_rule
           (fun _ out => Forall (fun item : string * W => exists v, f v = Ok item.2) out)
           (fun e => exists v, f v = Raise e)).
  - constructor.
  - intros pre [key v] post out _ Hout. cbn [fst snd].
    destruct (f v) as [w|e] eqn:Hf; cbn.
    + apply (dict_set_Forall (fun w => exists v, f v = Ok w)); [exact Hout|].
      exists v. exact Hf.
    + exists v. exact Hf.
Qed.

Lemma map_comprehension_rule {V W} (f : V -> res W) (d : dict V) :
  match map_comprehension f d with
  | Ok out => forall key w, out !! key = Some w -> exists v, f v = Ok w
  | Raise e => exists v, f v = Raise e
  end.
Proof.
  unfold map_comprehension.
  apply (for_each_res_rule
           (fun _ (out : gmap string W) =>
              forall key w, out !! key = Some w -> exists v, f v = Ok w)
           (fun e => exists v, f v = Raise e)).
  - intros key w H. rewrite lookup_empty in H. discriminate.
  - intros pre [key v] post out _ Hout. cbn [fst snd].
    destruct (f v) as [w|e] eqn:Hf; cbn.
    + intros key' w'. destruct (decide (key = key')) as [->|Hne].
      * rewrite lookup_insert_eq. intros [= <-]. exists v. exact Hf.
      * rewrite lookup_insert_ne by exact Hne. apply Hout.
    + exists v. exact Hf.
Qed.

Lemma convert_lists_rule tracks results :
  match convert_lists tracks results with
  | Ok lists => Forall (fun cluster_ids => NoDup cluster_ids) lists
  | Raise e => exists key, e = KeyError key
  end.
Proof.
  unfold convert_lists.
  destruct (mapM (fun track_ids => convert_to_cluster_ids track_ids tracks) results)
    as [lists|e] eqn:Hm.
  - apply res_mapM_Ok in Hm. apply Forall_forall. intros cluster_ids Hin.
    apply list_elem_of_lookup in Hin as [i Hi].
    destruct (Forall2_lookup_r _ _ _ _ _ Hm Hi) as (track_ids & _ & Hc).
    exact (convert_to_cluster_ids_NoDup _ _ _ Hc).
  - apply res_mapM_Raise in Hm as (_ & track_ids & _ & _ & _ & _ & Hc).
    destruct (convert_to_cluster_ids_KeyError _ _ _ Hc) as (_ & key & _ & _ & _ & _ & ->).
    exists key. reflexivity.
Qed.

Lemma default_cutoffs_positive k : k ∈ _DEFAULT_K_VALUES -> 1 <= k.
Proof.
  unfold _DEFAULT_K_VALUES. rewrite !elem_of_cons, elem_of_nil.
  intros [->|[->|[->|[->|[->|[]]]]]]; lia.
Qed.

(** What the scorer raises on lists without duplicates, with the default
    cutoffs. *)
Lemma score_dataset_default_raises preds gold seed_tracks max_turns e :
  Forall (fun item => Forall (fun turn_preds => NoDup turn_preds) item.2) preds ->
  (forall dialog_id dialog_gold, gold !! dialog_id = Some dialog_gold -> NoDup dialog_gold) ->
  outcome (score_dataset preds gold seed_tracks _DEFAULT_K_VALUES max_turns) = Raise e ->
  (exists key, e = KeyError key)
  \/ exists num_preds, (num_preds < 100)%nat /\ e = k_too_large 100 num_preds.
Proof.
  intros Hpreds Hgold. rewrite score_dataset_outcome.
  pose proof (aggregate_dataset_outcome preds gold seed_tracks _DEFAULT_K_VALUES max_turns)
    as H.
  destruct (outcome (aggregate_dataset preds gold seed_tracks _DEFAULT_K_VALUES max_turns))
    as [agg|e']; [discriminate|].
  intros [= ->]. destruct H as (done & [dialog_id dialog_preds] & rest & Hp & _ & Hraise).
  unfold dialog_raises in Hraise. cbn [fst snd] in Hraise.
  destruct (gold !! dialog_id) as [dialog_gold|] eqn:Hg; [|left; eexists; exact Hraise].
  destruct (seed_tracks !! dialog_id) as [dialog_seed_tracks|];
    [|left; eexists; exact Hraise].
  destruct (compute_metrics_per_turn_raises _ _ _ _ _ Hraise)
    as (turn_preds & seen & Hin & Hne & Hcm).
  right. exists (length (_filter_tracks turn_preds seen)).
  assert (NoDup turn_preds) as Hndp.
  { rewrite Forall_forall in Hpreds.
    assert ((dialog_id, dialog_preds) ∈ preds) as Hitem
      by (rewrite Hp; apply elem_of_app; right; left).
    specialize (Hpreds _ Hitem). cbn [snd] in Hpreds. rewrite Forall_forall in Hpreds.
    apply Hpreds. exact (elem_of_zip_l _ _ _ _ Hin). }
  rewrite (compute_metrics_positive_cutoffs _ _ _DEFAULT_K_VALUES 100) in Hcm.
  - destruct (decide (Z.of_nat (length (_filter_tracks turn_preds seen)) < 100)) as [Hlt|];
      [|discriminate].
    injection Hcm as <-. split; [lia|reflexivity].
  - apply NoDup_filter, Hndp.
  - apply NoDup_filter, (Hgold _ _ Hg).
  - exact Hne.
  - reflexivity.
  - apply default_cutoffs_positive.
Qed.

Lemma M_bind_lift_Raise {A B} (e : exn) (f : A -> M B) :
  outcome (lift (Raise e) ≫= f) = Raise e.
Proof. reflexivity. Qed.

(** Whatever the predictions, dialogs and tracks, [main] raises nothing but
    [KeyError] (a track id missing from [tracks], a dialog id missing from
    the gold dialogs) and the [ValueError] of a scored turn left with
    fewer than 100 predictions: the converted lists have no duplicates, and
    the metrics do not divide by zero. *)
Theorem main_exceptions (model_results : dict (list (list string)))
    (gold_dialogs : dict data.Dialog) (tracks : gmap string data.Track)
    (num_prev_tracks : Z) (e : exn) :
  outcome (main model_results gold_dialogs tracks num_prev_tracks) = Raise e ->
  (exists key, e = KeyError key)
  \/ exists num_preds, (num_preds < 100)%nat /\ e = k_too_large 100 num_preds.
Proof.
  unfold main. rewrite get_seed_tracks_fold, M_bind_lift_Ok.
  pose proof (dict_comprehension_rule (convert_lists tracks) model_results) as Hmr.
  destruct (dict_comprehension (convert_lists tracks) model_results)
    as [model_results_|e1].
  2:{ rewrite M_bind_lift_Raise. intros [= <-]. left. destruct Hmr as [v Hv].
      pose proof (convert_lists_rule tracks v) as H. rewrite Hv in H. exact H. }
  rewrite M_bind_lift_Ok.
  pose proof (map_comprehension_rule (fun results => convert_to_cluster_ids results tracks)
                (get_gold_results gold_dialogs)) as Hgr.
  destruct (map_comprehension (fun results => convert_to_cluster_ids results tracks)
              (get_gold_results gold_dialogs)) as [gold_results_|e2].
  2:{ rewrite M_bind_lift_Raise. intros [= <-]. left. destruct Hgr as [v Hv].
      destruct (convert_to_cluster_ids_KeyError _ _ _ Hv) as (_ & key & _ & _ & _ & _ & ->).
      exists key. reflexivity. }
  rewrite M_bind_lift_Ok.
  generalize (foldl (fun d (item : string * data.Dialog) =>
                       dict_set d item.1 (dialog_seeds num_prev_tracks item.2))
                    [] gold_dialogs).
  intros seed_tracks.
  pose proof (map_comprehension_rule (convert_lists tracks) seed_tracks) as Hst.
  destruct (map_comprehension (convert_lists tracks) seed_tracks) as [seed_tracks_|e3].
  2:{ rewrite M_bind_lift_Raise. intros [= <-]. left. destruct Hst as [v Hv].
      pose proof (convert_lists_rule tracks v) as H. rewrite Hv in H. exact H. }
  rewrite M_bind_lift_Ok.
  apply score_dataset_default_raises.
  - apply (Forall_impl _ _ _ Hmr). intros item [v Hv].
    pose proof (convert_lists_rule tracks v) as H. rewrite Hv in H. exact H.
  - intros dialog_id dialog_gold Hg. destruct (Hgr _ _ Hg) as [v Hv].
    exact (convert_to_cluster_ids_NoDup _ _ _ Hv).
Qed.

Lemma main_exceptions_witness :
  exists e,
    outcome (main [("d", [["t1"; "t2"; "t3"]])]
                  [("d", data.Build_Dialog "d"
                           [data.Build_Turn "q" "r" [] [] ["t1"] []] [] ["t1"])]
                  (list_to_map [("t1", data.Build_Track "t1" "" [] "" "t1" "c1");
                                ("t2", data.Build_Track "t2" "" [] "" "t2" "c1");
                                ("t3", data.Build_Track "t3" "" [] "" "t3" "c3")]) 3)
    = Raise e
    /\ ((exists key, e = KeyError key)
        \/ exists num_preds, (num_preds < 100)%nat /\ e = k_too_large 100 num_preds).
Proof.
  destruct (outcome (main [("d", [["t1"; "t2"; "t3"]])]
                [("d", data.Build_Dialog "d"
                         [data.Build_Turn "q" "r" [] [] ["t1"] []] [] ["t1"])]
                (list_to_map [("t1", data.Build_Track "t1" "" [] "" "t1" "c1");
                              ("t2", data.Build_Track "t2" "" [] "" "t2" "c1");
                              ("t3", data.Build_Track "t3" "" [] "" "t3" "c3")]) 3))
    as [ret|e] eqn:H; [vm_compute in H; discriminate H|].
  exists e. split; [reflexivity|].
  exact (main_exceptions _ _ _ _ e H).
Defined.

(** ** [compute_metrics_per_turn] and the lengths of its arguments *)

(** Only the turns that have both a prediction list and a seed list are
    looked at: prediction lists beyond the seed lists, and seed lists beyond
    the prediction lists, are ignored without an error. *)
Theorem per_turn_surplus_ignored (preds : list (list string)) (gold : list string)
    (seed_tracks : list (list string)) (k_values : list Z) :
  compute_metrics_per_turn preds gold seed_tracks k_values
  = compute_metrics_per_turn (take (length seed_tracks) preds) gold
      (take (length preds) seed_tracks) k_values.
Proof.
  unfold compute_metrics_per_turn. f_equal. f_equal.
  revert seed_tracks. induction preds as [|p preds IH]; intros [|s seed_tracks];
    cbn [length take zip_with]; try reflexivity.
  f_equal. apply IH.
Qed.

(** ** [load_results] *)

Lemma load_result_record int per_turn_results result :
  load_result int per_turn_results result
  = record ← result_record int result; mret (store_record per_turn_results record).
Proof.
  unfold load_result, result_record, store_record.
  destruct (field "docid" (data.Result.docid result)) as [docid|e]; [|reflexivity].
  rewrite !res_bind_ret_l.
  destruct (unpack_split docid) as [parts|e]; [|reflexivity]. rewrite !res_bind_ret_l.
  destruct (field "neighbor" (data.Result.neighbor result)) as [neighbor|e]; [|reflexivity].
  rewrite !res_bind_ret_l.
  destruct (mapM (fun n => field "docid" (data.Neighbor.docid n)) neighbor) as [docids|e];
    [|reflexivity].
  rewrite !res_bind_ret_l. destruct (int parts.2) as [turn_idx|e]; reflexivity.
Qed.

Lemma load_results_loop int results acc :
  for_each_res (load_result int) results acc
  = records ← mapM (result_record int) results; mret (foldl store_record acc records).
Proof.
  revert acc. induction results as [|result results IH]; intros acc; [reflexivity|].
  cbn [for_each_res]. rewrite load_result_record, res_mapM_cons.
  destruct (result_record int result) as [record|e]; [|reflexivity].
  rewrite !res_bind_ret_l, IH.
  destruct (mapM (result_record int) results) as [records|e]; reflexivity.
Qed.

Lemma store_record_keys acc records :
  dict_keys (foldl store_record acc records)
  = foldl key_insert (dict_keys acc) (records.*1.*1).
Proof.
  revert acc. induction records as [|record records IH]; intros acc; [reflexivity|].
  rewrite !fmap_cons.
  change (dict_keys (foldl store_record (store_record acc record) records)
          = foldl key_insert (key_insert (dict_keys acc) record.1.1) (records.*1.*1)).
  rewrite IH. unfold store_record. rewrite dict_keys_set. reflexivity.
Qed.

Lemma latest_snoc records record dialog_id turn_idx :
  latest (records ++ [record]) dialog_id turn_idx
  = if decide (record.1.1 = dialog_id /\ record.1.2 = turn_idx) then Some record.2
    else latest records dialog_id turn_idx.
Proof.
  unfold latest. rewrite omap_app. cbn [omap list_omap].
  destruct (decide (record.1.1 = dialog_id /\ record.1.2 = turn_idx)).
  - apply last_snoc.
  - rewrite app_nil_r. reflexivity.
Qed.

Lemma store_record_latest records dialog_id turn_idx :
  dict_get (foldl store_record [] records) dialog_id ≫= (fun m => m !! turn_idx)
  = latest records dialog_id turn_idx.
Proof.
  induction records as [|record records IH] using rev_ind; [reflexivity|].
  rewrite foldl_app, latest_snoc. cbn [foldl]. unfold store_record at 1.
  set (per_turn_results := foldl store_record [] records) in *.
  destruct (decide (record.1.1 = dialog_id)) as [Hd|Hd].
  - rewrite Hd, dict_get_set_eq. cbn [mbind option_bind].
    destruct (decide (record.1.2 = turn_idx)) as [Hi|Hi].
    + rewrite decide_True by (split; [reflexivity|exact Hi]). rewrite Hi.
      apply lookup_insert_eq.
    + rewrite decide_False by (intros [_ ?]; contradiction).
      rewrite lookup_insert_ne by exact Hi.
      rewrite <- IH. destruct (dict_get per_turn_results dialog_id); [reflexivity|].
      apply lookup_empty.
  - rewrite dict_get_set_ne by exact Hd. rewrite decide_False by tauto. exact IH.
Qed.

Lemma store_record_nonempty records dialog_id m :
  dict_get (foldl store_record [] records) dialog_id = Some m -> m <> ∅.
Proof.
  revert m. induction records as [|record records IH] using rev_ind; intros m;
    [discriminate|].
  rewrite foldl_app. cbn [foldl]. unfold store_record at 1.
  destruct (decide (record.1.1 = dialog_id)) as [Hd|Hd].
  - rewrite Hd, dict_get_set_eq. intros [= <-]. apply insert_non_empty.
  - rewrite dict_get_set_ne by exact Hd. apply IH.
Qed.

Lemma turn_lists_nonempty (m : gmap Z (list string)) :
  m <> ∅ -> exists lists, turn_lists m = Ok lists.
Proof.
  intros Hm. unfold turn_lists.
  destruct ((map_to_list m).*1) as [|k ks] eqn:Hk.
  - apply fmap_nil_inv, map_to_list_empty_iff in Hk. contradiction.
  - eexists. reflexivity.
Qed.

Lemma turn_lists_spec (m : gmap Z (list string)) lists :
  turn_lists m = Ok lists ->
  (forall i docids, 0 <= i -> m !! i = Some docids -> lists !! Z.to_nat i = Some docids)
  /\ (forall t docids, lists !! t = Some docids -> docids = default [] (m !! Z.of_nat t))
  /\ (lists <> [] -> is_Some (m !! (Z.of_nat (length lists) - 1))).
Proof.
  unfold turn_lists. intros H. apply res_bind_Ok in H as (k_max & Hmax & [= <-]).
  apply py_max_spec in Hmax as [Hin Hle].
  assert (forall i, i ∈ (map_to_list m).*1 <-> is_Some (m !! i)) as Hkeys.
  { intros i. rewrite list_elem_of_fmap. split.
    - intros ([i' docids] & -> & Hi). apply elem_of_map_to_list in Hi. eexists. exact Hi.
    - intros [docids Hi]. exists (i, docids). split; [reflexivity|].
      apply elem_of_map_to_list. exact Hi. }
  split; [|split].
  - intros i docids Hi Hm. rewrite list_lookup_fmap.
    assert (i <= k_max) as Hik by (apply Hle, Hkeys; eexists; exact Hm).
    rewrite lookup_seqZ_lt by lia. cbn [fmap option_fmap option_map].
    rewrite Z.add_0_l, Z2Nat.id by exact Hi. rewrite Hm. reflexivity.
  - intros t docids. rewrite list_lookup_fmap. intros Ht.
    apply fmap_Some in Ht as (i & Hi & ->). apply lookup_seqZ in Hi as [-> _].
    rewrite Z.add_0_l. reflexivity.
  - rewrite length_fmap, length_seqZ. intros Hne.
    assert (0 < k_max + 1) as Hpos.
    { destruct (decide (0 < k_max + 1)) as [|Hn]; [assumption|]. destruct Hne.
      apply nil_length_inv. rewrite length_fmap, length_seqZ. lia. }
    replace (Z.of_nat (Z.to_nat (k_max + 1)) - 1) with k_max by lia.
    apply Hkeys, Hin.
Qed.

Lemma turn_lists_loop (per_turn_results : dict (gmap Z (list string))) acc :
  Forall (fun item => item.2 <> ∅) per_turn_results ->
  for_each_res (fun out (item : string * gmap Z (list string)) =>
                  lists ← turn_lists item.2; mret (dict_set out item.1 lists))
               per_turn_results acc
  = Ok (foldl (fun out item => dict_set out item.1 (turn_lists_of item.2))
              acc per_turn_results).
Proof.
  revert acc. induction per_turn_results as [|item d IH]; intros acc Hne; [reflexivity|].
  apply Forall_cons in Hne as [Hitem Hne]. cbn [for_each_res foldl].
  unfold turn_lists_of at 2.
  destruct (turn_lists_nonempty item.2 Hitem) as [lists ->].
  rewrite !res_bind_ret_l. apply IH, Hne.
Qed.

(** [load_results], without its loops. *)
Lemma load_results_unfold int results :
  load_results int results
  = records ← mapM (result_record int) results;
    mret ((fun item => (item.1, turn_lists_of item.2)) <$> foldl store_record [] records).
Proof.
  unfold load_results. rewrite load_results_loop.
  destruct (mapM (result_record int) results) as [records|e]; [|reflexivity].
  rewrite !res_bind_ret_l.
  assert (NoDup (dict_keys (foldl store_record [] records))) as Hnd.
  { rewrite store_record_keys. apply foldl_key_insert_NoDup. constructor. }
  rewrite turn_lists_loop.
  - f_equal. apply (foldl_dict_set_map turn_lists_of _ []). exact Hnd.
  - apply Forall_forall. intros [dialog_id m] Hin. cbn [snd].
    apply (store_record_nonempty records dialog_id), elem_of_dict_get; assumption.
Qed.

(** When [load_results] returns, every result was read, and the dialogs come
    in the order of their first result.  The list of a dialog holds, at every
    index [i >= 0] for which there is a result, the docids of the last such
    result, and the empty list at the indices in between; it ends with the
    largest index that has a result.  Results with a negative index are
    dropped. *)
Theorem load_results_lists (int : string -> res Z) (results : list data.Result.t)
    (per_turn : dict (list (list string))) :
  load_results int results = Ok per_turn ->
  exists records,
    mapM (result_record int) results = Ok records
    /\ dict_keys per_turn = foldl key_insert [] (records.*1.*1)
    /\ forall dialog_id lists,
         dict_get per_turn dialog_id = Some lists ->
         (forall i docids,
            0 <= i -> latest records dialog_id i = Some docids ->
            lists !! Z.to_nat i = Some docids)
         /\ (forall t docids,
               lists !! t = Some docids ->
               docids = default [] (latest records dialog_id (Z.of_nat t)))
         /\ (lists <> [] ->
             is_Some (latest records dialog_id (Z.of_nat (length lists) - 1))).
Proof.
  rewrite load_results_unfold. intros H.
  apply res_bind_Ok in H as (records & Hrec & [= <-]).
  exists records. split; [exact Hrec|].
  split; [rewrite dict_keys_fmap; apply store_record_keys|].
  intros dialog_id lists. rewrite dict_get_fmap. intros Hget.
  apply fmap_Some in Hget as (m & Hm & ->).
  assert (forall i, m !! i = latest records dialog_id i) as Hlatest.
  { intros i. rewrite <- store_record_latest, Hm. reflexivity. }
  destruct (turn_lists_nonempty m (store_record_nonempty _ _ _ Hm)) as [lists Hl].
  unfold turn_lists_of. rewrite Hl.
  destruct (turn_lists_spec m lists Hl) as (H1 & H2 & H3).
  split; [|split].
  - intros i docids Hi Hlat. apply H1; [exact Hi|]. rewrite Hlatest. exact Hlat.
  - intros t docids Ht. rewrite <- Hlatest. apply H2, Ht.
  - intros Hne. rewrite <- Hlatest. apply H3, Hne.
Qed.

Lemma load_results_lists_witness :
  exists per_turn,
    load_results int_of_digits
      [data.Result.Build (Some "a:2") (Some [data.Neighbor.Build (Some "x") None]);
       data.Result.Build (Some "b:0") (Some [data.Neighbor.Build (Some "y") None]);
       data.Result.Build (Some "a:2") (Some [data.Neighbor.Build (Some "z") None])]
    = Ok per_turn
    /\ dict_keys per_turn = ["a"; "b"]
    /\ dict_get per_turn "a" = Some [[]; []; ["z"]].
Proof.
  destruct (load_results int_of_digits
      [data.Result.Build (Some "a:2") (Some [data.Neighbor.Build (Some "x") None]);
       data.Result.Build (Some "b:0") (Some [data.Neighbor.Build (Some "y") None]);
       data.Result.Build (Some "a:2") (Some [data.Neighbor.Build (Some "z") None])])
    as [per_turn|e] eqn:H; [|vm_compute in H; discriminate H].
  exists per_turn. split; [reflexivity|].
  destruct (load_results_lists _ _ _ H) as (records & Hrec & Hkeys & _).
  vm_compute in Hrec. injection Hrec as <-. split; [exact Hkeys|].
  vm_compute in H. injection H as <-. reflexivity.
Defined.

Lemma result_record_raises int result e :
  result_record int result = Raise e ->
  (data.Result.docid result = None /\ e = KeyError "docid")
  \/ (exists docid, data.Result.docid result = Some docid /\ split_colon docid = None
                    /\ e = ValueError "not enough values to unpack (expected 2, got 1)")
  \/ (data.Result.neighbor result = None /\ e = KeyError "neighbor")
  \/ (exists neighbor n, data.Result.neighbor result = Some neighbor /\ n ∈ neighbor
                         /\ data.Neighbor.docid n = None /\ e = KeyError "docid")
  \/ (exists docid dialog_id turn_idx,
        data.Result.docid result = Some docid
        /\ split_colon docid = Some (dialog_id, turn_idx)
        /\ int turn_idx = Raise e).
Proof.
  unfold result_record, field, unpack_split.
  destruct (data.Result.docid result) as [docid|]; [|intros [= <-]; left; split; reflexivity].
  rewrite res_bind_ret_l.
  destruct (split_colon docid) as [[dialog_id turn_idx]|] eqn:Hsplit;
    [|intros [= <-]; right; left; exists docid;
      split; [reflexivity|split; [exact Hsplit|reflexivity]]].
  rewrite res_bind_ret_l.
  destruct (data.Result.neighbor result) as [neighbor|];
    [|intros [= <-]; right; right; left; split; reflexivity].
  rewrite res_bind_ret_l.
  destruct (mapM _ neighbor) as [docids|e'] eqn:Hn.
  - rewrite res_bind_ret_l. cbn [fst snd].
    destruct (int turn_idx) as [i|e'] eqn:Hint; [discriminate|].
    intros [= <-]. right; right; right; right.
    exists docid, dialog_id, turn_idx.
    split; [reflexivity|split; [exact Hsplit|exact Hint]].
  - intros [= <-]. right; right; right; left.
    apply res_mapM_Raise in Hn as (pre & n & post & k & -> & _ & Hx).
    exists (pre ++ n :: post), n. split; [reflexivity|].
    split; [apply elem_of_app; right; left|].
    destruct (data.Neighbor.docid n); [discriminate|]. injection Hx as <-.
    split; reflexivity.
Qed.

(** [load_results] raises at the first result that cannot be read, and only
    there: a missing ["docid"] or ["neighbor"] key gives [KeyError], a docid
    without a colon the [ValueError] of the unpacking, and a turn index that
    [int] rejects what [int] raises.  Building the lists raises nothing. *)
Theorem load_results_raises_at_first_bad_result (int : string -> res Z)
    (results : list data.Result.t) (e : exn) :
  load_results int results = Raise e ->
  exists read result rest,
    results = read ++ result :: rest
    /\ Forall (fun result => exists record, result_record int result = Ok record) read
    /\ ((data.Result.docid result = None /\ e = KeyError "docid")
        \/ (exists docid,
              data.Result.docid result = Some docid /\ split_colon docid = None
              /\ e = ValueError "not enough values to unpack (expected 2, got 1)")
        \/ (data.Result.neighbor result = None /\ e = KeyError "neighbor")
        \/ (exists neighbor n,
              data.Result.neighbor result = Some neighbor /\ n ∈ neighbor
              /\ data.Neighbor.docid n = None /\ e = KeyError "docid")
        \/ (exists docid dialog_id turn_idx,
              data.Result.docid result = Some docid
              /\ split_colon docid = Some (dialog_id, turn_idx)
              /\ int turn_idx = Raise e)).
Proof.
  rewrite load_results_unfold. intros H.
  apply res_bind_Raise in H as [H|(records & _ & [=])].
  apply res_mapM_Raise in H as (read & result & rest & k & -> & Hread & Hx).
  exists read, result, rest. split; [reflexivity|]. split.
  - apply res_mapM_Ok in Hread. apply Forall_forall. intros r Hin.
    apply list_elem_of_lookup in Hin as [i Hi].
    destruct (Forall2_lookup_l _ _ _ _ _ Hread Hi) as (record & _ & Hr).
    exists record. exact Hr.
  - exact (result_record_raises int result e Hx).
Qed.

Lemma load_results_raises_at_first_bad_result_witness :
  exists e read result rest,
    load_results int_of_digits
      [data.Result.Build (Some "a:0") (Some []);
       data.Result.Build (Some "a1") (Some [])] = Raise e
    /\ [data.Result.Build (Some "a:0") (Some []);
        data.Result.Build (Some "a1") (Some [])] = read ++ result :: rest
    /\ Forall (fun result => exists record, result_record int_of_digits result = Ok record)
              read.
Proof.
  destruct (load_results int_of_digits
      [data.Result.Build (Some "a:0") (Some []);
       data.Result.Build (Some "a1") (Some [])]) as [per_turn|e] eqn:H;
    [vm_compute in H; discriminate H|].
  destruct (load_results_raises_at_first_bad_result _ _ _ H)
    as (read & result & rest & Hsplit & Hread & _).
  exists e, read, result, rest. split; [reflexivity|]. split; assumption.
Defined.

(** ** [load_cpcd_dialogs] and [load_cpcd_tracks] *)

Lemma load_cpcd_dialogs_NoDup results : NoDup (dict_keys (load_cpcd_dialogs results)).
Proof.
  unfold load_cpcd_dialogs. induction results as [|x results IH] using rev_ind.
  - constructor.
  - rewrite foldl_app. apply dict_set_NoDup, IH.
Qed.

Lemma last_filter_snoc {A} (P : A -> Prop) `{forall x, Decision (P x)} (l : list A) (x : A) :
  last (filter P (l ++ [x])) = if decide (P x) then Some x else last (filter P l).
Proof.
  rewrite filter_app, filter_cons, filter_nil. destruct (decide (P x)).
  - apply last_snoc.
  - rewrite app_nil_r. reflexivity.
Qed.

(** Of several records with one id the loaders keep the last: the dialogs
    come out under distinct ids, each with its last record, and a track id
    is looked up to its last record. *)
Theorem loaders_keep_last_record :
  (forall (results : list data.Dialog) (dialog_id : string),
     NoDup (dict_keys (load_cpcd_dialogs results))
     /\ dict_get (load_cpcd_dialogs results) dialog_id
        = last (filter (fun x => data.id x = dialog_id) results))
  /\ (forall (results : list data.Track) (track_id : string),
        load_cpcd_tracks results !! track_id
        = last (filter (fun x => data.track_ids x = track_id) results)).
Proof.
  split.
  - intros results dialog_id. split; [apply load_cpcd_dialogs_NoDup|].
    unfold load_cpcd_dialogs. induction results as [|x results IH] using rev_ind;
      [reflexivity|].
    rewrite foldl_app, last_filter_snoc. cbn [foldl].
    destruct (decide (data.id x = dialog_id)) as [Hx|Hx].
    + rewrite Hx. apply dict_get_set_eq.
    + rewrite dict_get_set_ne by exact Hx. exact IH.
  - intros results track_id.
    unfold load_cpcd_tracks. induction results as [|x results IH] using rev_ind;
      [apply lookup_empty|].
    rewrite foldl_app, last_filter_snoc. cbn [foldl].
    destruct (decide (data.track_ids x = track_id)) as [Hx|Hx].
    + rewrite Hx. apply lookup_insert_eq.
    + rewrite lookup_insert_ne by exact Hx. exact IH.
Qed.

(** ** [write_output] on the report of [score_dataset] *)

Lemma report_row_lengths agg n :
  Forall (fun item => length (_PerTurnMetricSummary.per_turn_average item.2) = n) agg ->
  Forall (fun item => length item.2 = (2 + n)%nat) (report agg).
Proof.
  induction agg as [|[name summ] agg IH] using rev_ind; intros Hagg; [constructor|].
  apply Forall_app in Hagg as [Hagg Hsumm]. apply Forall_cons in Hsumm as [Hsumm _].
  cbn [snd] in Hsumm. rewrite report_snoc.
  apply (dict_set_Forall (fun values => length values = (2 + n)%nat)).
  - apply (dict_set_Forall (fun values => length values = (2 + n)%nat)); [apply IH, Hagg|].
    unfold values_row. cbn [length]. rewrite length_map, Hsumm. reflexivity.
  - unfold counts_row. cbn [length]. rewrite length_map, Hsumm. reflexivity.
Qed.

Lemma score_dataset_row_lengths preds gold seed_tracks k_values max_turns reported :
  outcome (score_dataset preds gold seed_tracks k_values max_turns) = Ok reported ->
  Forall (fun item => length item.2 = (2 + Z.to_nat max_turns)%nat) reported.
Proof.
  intros Hret. apply score_dataset_returns in Hret as (agg & Hagg & ->).
  apply report_row_lengths, Forall_forall. intros [name summ] Hin. cbn [snd].
  destruct (aggregate_dataset_summary _ _ _ _ _ _ Hagg) as (dms & _ & Hnd & _ & Hsumm).
  rewrite (Hsumm name summ) by (apply elem_of_dict_get; assumption).
  rewrite foldl_summary_rule_length. apply length_replicate.
Qed.

(** [write_output] on what [score_dataset] returns.  [StopIteration] is
    raised exactly when no dialog had a scored turn: the report is then
    empty.  When some dialog had one, the rows form a rectangular table,
    with [3 + max_turns] cells in the header and in every row (3 for a
    negative [max_turns]), and one row per reported key, in order, the key
    in the first cell. *)
Theorem scores_table_rectangular (format_4f : Qc -> string)
    (preds : dict (list (list string))) (gold : gmap string (list string))
    (seed_tracks : gmap string (list (list string))) (k_values : list Z) (max_turns : Z)
    (reported : dict (list Qc)) :
  outcome (score_dataset preds gold seed_tracks k_values max_turns) = Ok reported ->
  match write_output format_4f reported with
  | StopIteration => reported = [] /\ no_scored_turn gold seed_tracks preds
  | Rows rows =>
      some_scored_turn gold seed_tracks preds
      /\ exists header body,
           rows = header :: body
           /\ length header = (3 + Z.to_nat max_turns)%nat
           /\ Forall (fun row => length row = (3 + Z.to_nat max_turns)%nat) body
           /\ omap head body = dict_keys reported
  end.
Proof.
  intros Hret. pose proof (score_dataset_row_lengths _ _ _ _ _ _ Hret) as Hlen.
  destruct (score_dataset_scored _ _ _ _ _ _ Hret) as [[-> Hno]|[Hne Hsome]].
  { split; [reflexivity|exact Hno]. }
  destruct reported as [|[name values] reported]; [destruct Hne; reflexivity|].
  unfold write_output. split; [exact Hsome|]. eexists _, _. split; [reflexivity|].
  pose proof Hlen as Hall. apply Forall_cons in Hlen as [Hvalues _]. cbn [snd] in Hvalues.
  split; [|split].
  - cbn [length]. rewrite length_fmap, length_seqZ, Hvalues. lia.
  - apply Forall_fmap, (Forall_impl _ _ _ Hall). intros [k vs] Hk. cbn [snd fst] in Hk.
    unfold compose. cbn [snd fst length]. rewrite length_fmap, Hk. reflexivity.
  - generalize ((name, values) :: reported). intros d. unfold dict_keys.
    induction d as [|[k vs] d IH]; [reflexivity|].
    rewrite !fmap_cons. cbn [omap list_omap head fst]. f_equal. exact IH.
Qed.

(** One dialog with a scored turn gives a table of five columns; a dialog
    whose gold is all seeded away gives no report, and [StopIteration]. *)
Lemma scores_table_rectangular_witness :
  (exists reported rows,
     outcome (score_dataset [("d1", [["X"; "A"; "B"]])]
                (list_to_map [("d1", ["X"; "Y"])])
                (list_to_map [("d1", [[]])]) [1] 2) = Ok reported
     /\ write_output (fun _ => "0.0000") reported = Rows rows
     /\ some_scored_turn (list_to_map [("d1", ["X"; "Y"])]) (list_to_map [("d1", [[]])])
          [("d1", [["X"; "A"; "B"]])]
     /\ Forall (fun row => length row = 5%nat) rows)
  /\ (exists reported,
        outcome (score_dataset [("d1", [["A"; "B"]])]
                   (list_to_map [("d1", ["X"])])
                   (list_to_map [("d1", [["X"]])]) [1] 2) = Ok reported
        /\ write_output (fun _ => "0.0000") reported = StopIteration
        /\ no_scored_turn (list_to_map [("d1", ["X"])]) (list_to_map [("d1", [["X"]])])
             [("d1", [["A"; "B"]])]).
Proof.
  split.
  - destruct (outcome (score_dataset [("d1", [["X"; "A"; "B"]])]
                         (list_to_map [("d1", ["X"; "Y"])])
                         (list_to_map [("d1", [[]])]) [1] 2)) as [reported|e] eqn:Hret;
      [|vm_compute in Hret; discriminate Hret].
    pose proof (scores_table_rectangular (fun _ => "0.0000") _ _ _ _ _ _ Hret) as H.
    destruct (write_output (fun _ => "0.0000") reported) as [rows|] eqn:Hw.
    + destruct H as (Hsome & header & body & -> & Hh & Hb & _).
      exists reported, (header :: body).
      split; [reflexivity|]. split; [exact Hw|]. split; [exact Hsome|].
      constructor; [exact Hh|exact Hb].
    + destruct H as [-> _]. vm_compute in Hret. discriminate Hret.
  - destruct (outcome (score_dataset [("d1", [["A"; "B"]])]
                         (list_to_map [("d1", ["X"])])
                         (list_to_map [("d1", [["X"]])]) [1] 2)) as [reported|e] eqn:Hret;
      [|vm_compute in Hret; discriminate Hret].
    pose proof (scores_table_rectangular (fun _ => "0.0000") _ _ _ _ _ _ Hret) as H.
    destruct (write_output (fun _ => "0.0000") reported) as [rows|] eqn:Hw.
    + vm_compute in Hret. injection Hret as <-. discriminate Hw.
    + destruct H as [_ Hno]. exists reported.
      split; [reflexivity|]. split; [exact Hw|exact Hno].
Defined.
